(** * GridBasedGrid: the grid-point displacement partitioner of repa

    A shallow embedding of [src/grids/gridbased.cpp] (with the index helpers of
    [util/linearize.hpp]) and the properties of its specification.

    Numbers are modelled as the code has them: [double] is the kernel's
    binary64 [float] (round to nearest even, as the C++ operators), [int]
    ranks and cell indices are [Z].  The methods of [GridBasedGrid] mutate the
    object and may throw; they are functions in a state-and-exception monad
    over the record of the object's members.  The collectives of MPI take what
    the other ranks contribute as an argument. *)

From Stdlib Require Import ZArith List Bool Lia Floats String Ascii.
From stdpp Require Import gmap list sorting.

Open Scope Z_scope.

Set Default Proof Using "Type".

(* ===================================================================== *)
(** ** Vectors of three components *)
(* ===================================================================== *)

(** The index [d] of [for (int d = 0; d < 3; ++d)]. *)
Inductive axis := ax0 | ax1 | ax2.

Definition axes : list axis := [ax0; ax1; ax2].

#[global] Instance axis_eq_dec : EqDecision axis.
Proof. solve_decision. Defined.

(** [std::array<T, 3>] *)
Record Vec3 (A : Type) := mkVec3 { c0 : A; c1 : A; c2 : A }.
Arguments mkVec3 {A} _ _ _.
Arguments c0 {A} _.
Arguments c1 {A} _.
Arguments c2 {A} _.

Definition vget {A} (v : Vec3 A) (d : axis) : A :=
  match d with ax0 => c0 v | ax1 => c1 v | ax2 => c2 v end.

Definition vset {A} (v : Vec3 A) (d : axis) (x : A) : Vec3 A :=
  match d with
  | ax0 => mkVec3 x (c1 v) (c2 v)
  | ax1 => mkVec3 (c0 v) x (c2 v)
  | ax2 => mkVec3 (c0 v) (c1 v) x
  end.

Definition vmap2 {A B C} (f : A -> B -> C) (v : Vec3 A) (w : Vec3 B) : Vec3 C :=
  mkVec3 (f (c0 v) (c0 w)) (f (c1 v) (c1 w)) (f (c2 v) (c2 w)).

Definition double := float.
Definition Vec3d := Vec3 double.
Definition Vec3i := Vec3 Z.

(** Conversion of an [int] to [double] (exact below 2^53). *)
Definition Z2F (z : Z) : double :=
  if z <? 0 then (- PrimFloat.of_uint63 (Uint63.of_Z (- z)))%float
  else PrimFloat.of_uint63 (Uint63.of_Z z).

(** The literal [1e-6]: the binary64 value nearest to it. *)
Definition lit_1e_6 : double := 0x1.0c6f7a0b5ed8dp-20%float.

(** [v[i]] on a [std::vector]; [None] stands for the out-of-range access. *)
Definition vec_at {A} (l : list A) (i : Z) : option A :=
  if i <? 0 then None else l !! Z.to_nat i.

(* ===================================================================== *)
(** ** util::linearize and util::unlinearize *)
(* ===================================================================== *)

Definition linearize (c grid : Vec3i) : Z :=
  (c0 c * c1 grid + c1 c) * c2 grid + c2 c.

(** C++ [/] and [%] truncate toward zero: [Z.quot] and [Z.rem]. *)
Definition unlinearize (cidx : Z) (grid : Vec3i) : Vec3i :=
  mkVec3 (Z.quot (Z.quot cidx (c2 grid)) (c1 grid))
         (Z.rem (Z.quot cidx (c2 grid)) (c1 grid))
         (Z.rem cidx (c2 grid)).

(* ===================================================================== *)
(** ** What the translation unit takes from elsewhere *)
(* ===================================================================== *)

(** An octagon is kept as the eight corners it was built from;
    [tetra::Octagon::contains] is a parameter of the environment. *)
Definition Octagon := list Vec3d.

(** [globox.hpp]: the global cell grid [gbox]. *)
Record GlobalBox := {
  gb_ncells : Z;
  gb_midpoint : Z -> Vec3d;
  gb_cell_at_pos : Vec3d -> Z;
  gb_full_shell_neigh_without_center : Z -> list Z;
  gb_neighbor : Z -> Z -> Z;
  gb_cell_size : Vec3d;
  gb_grid_size : Vec3i
}.

(** The process-wide values of [grid.hpp] and [communication.hpp], the
    Cartesian communicator [comm_cart], the build configuration and the
    library functions the code calls. *)
Record Env := {
  GRID_DEBUG : bool;            (* defined unless NDEBUG is *)
  n_nodes : Z;
  this_node : Z;
  cart_dims : Vec3i;            (* MPI_Cart_get: dims *)
  cart_coords : Vec3i;          (* MPI_Cart_get: coords of the caller *)
  box_l : Vec3d;
  my_right : Vec3d;
  map_position_node_array : Vec3d -> Z;
  gbox : GlobalBox;
  contains : Octagon -> Vec3d -> bool;
  strtod : string -> double
}.

(** [MPI_Cart_rank] and [MPI_Cart_coords] on [comm_cart]: MPI numbers the
    processes of a Cartesian topology in row-major order. *)
Definition MPI_Cart_rank (dims nc : Vec3i) : Z := linearize nc dims.
Definition MPI_Cart_coords (dims : Vec3i) (r : Z) : Vec3i := unlinearize r dims.

(* ===================================================================== *)
(** ** The object *)
(* ===================================================================== *)

(** [GhostExchangeDesc]; a default-constructed one has [dest == -1]. *)
Record GhostExchangeDesc := mkDesc {
  dest : Z;
  recv : list Z;
  send : list Z
}.

Definition default_desc : GhostExchangeDesc := mkDesc (-1) [] [].

(** The adjacency handed to [MPI_Dist_graph_create_adjacent]. *)
Record DistGraph := mkDistGraph {
  sources : list Z;
  destinations : list Z
}.

(** The checks of [ENSURE] in the order of the source. *)
Inductive ensure_site :=
  | ensure_nlocalcells_positive
  | ensure_nghostcells_positive
  | ensure_dest_set
  | ensure_gridpoints_size
  | ensure_0.

Record GridBasedGrid := mkGrid {
  mu : double;
  neighcomm : option DistGraph;       (* None is MPI_COMM_NULL *)
  is_regular_grid : bool;
  gridpoint : Vec3d;
  gridpoints : list Vec3d;
  neighbor_ranks : list Z;
  neighbor_idx : gmap Z Z;
  my_dom : Octagon;
  neighbor_doms : list Octagon;
  nlocalcells : Z;
  nghostcells : Z;
  cells : list Z;
  global_to_local : gmap Z Z;
  exchange_vec : list GhostExchangeDesc;
  (* SIGINTs sent to the process group by failed ENSUREs, latest first *)
  raised : list ensure_site
}.

Definition with_mu x s := mkGrid x (neighcomm s) (is_regular_grid s) (gridpoint s) (gridpoints s) (neighbor_ranks s) (neighbor_idx s) (my_dom s) (neighbor_doms s) (nlocalcells s) (nghostcells s) (cells s) (global_to_local s) (exchange_vec s) (raised s).
Definition with_neighcomm x s := mkGrid (mu s) x (is_regular_grid s) (gridpoint s) (gridpoints s) (neighbor_ranks s) (neighbor_idx s) (my_dom s) (neighbor_doms s) (nlocalcells s) (nghostcells s) (cells s) (global_to_local s) (exchange_vec s) (raised s).
Definition with_is_regular_grid x s := mkGrid (mu s) (neighcomm s) x (gridpoint s) (gridpoints s) (neighbor_ranks s) (neighbor_idx s) (my_dom s) (neighbor_doms s) (nlocalcells s) (nghostcells s) (cells s) (global_to_local s) (exchange_vec s) (raised s).
Definition with_gridpoint x s := mkGrid (mu s) (neighcomm s) (is_regular_grid s) x (gridpoints s) (neighbor_ranks s) (neighbor_idx s) (my_dom s) (neighbor_doms s) (nlocalcells s) (nghostcells s) (cells s) (global_to_local s) (exchange_vec s) (raised s).
Definition with_gridpoints x s := mkGrid (mu s) (neighcomm s) (is_regular_grid s) (gridpoint s) x (neighbor_ranks s) (neighbor_idx s) (my_dom s) (neighbor_doms s) (nlocalcells s) (nghostcells s) (cells s) (global_to_local s) (exchange_vec s) (raised s).
Definition with_neighbor_ranks x s := mkGrid (mu s) (neighcomm s) (is_regular_grid s) (gridpoint s) (gridpoints s) x (neighbor_idx s) (my_dom s) (neighbor_doms s) (nlocalcells s) (nghostcells s) (cells s) (global_to_local s) (exchange_vec s) (raised s).
Definition with_neighbor_idx x s := mkGrid (mu s) (neighcomm s) (is_regular_grid s) (gridpoint s) (gridpoints s) (neighbor_ranks s) x (my_dom s) (neighbor_doms s) (nlocalcells s) (nghostcells s) (cells s) (global_to_local s) (exchange_vec s) (raised s).
Definition with_my_dom x s := mkGrid (mu s) (neighcomm s) (is_regular_grid s) (gridpoint s) (gridpoints s) (neighbor_ranks s) (neighbor_idx s) x (neighbor_doms s) (nlocalcells s) (nghostcells s) (cells s) (global_to_local s) (exchange_vec s) (raised s).
Definition with_neighbor_doms x s := mkGrid (mu s) (neighcomm s) (is_regular_grid s) (gridpoint s) (gridpoints s) (neighbor_ranks s) (neighbor_idx s) (my_dom s) x (nlocalcells s) (nghostcells s) (cells s) (global_to_local s) (exchange_vec s) (raised s).
Definition with_nlocalcells x s := mkGrid (mu s) (neighcomm s) (is_regular_grid s) (gridpoint s) (gridpoints s) (neighbor_ranks s) (neighbor_idx s) (my_dom s) (neighbor_doms s) x (nghostcells s) (cells s) (global_to_local s) (exchange_vec s) (raised s).
Definition with_nghostcells x s := mkGrid (mu s) (neighcomm s) (is_regular_grid s) (gridpoint s) (gridpoints s) (neighbor_ranks s) (neighbor_idx s) (my_dom s) (neighbor_doms s) (nlocalcells s) x (cells s) (global_to_local s) (exchange_vec s) (raised s).
Definition with_cells x s := mkGrid (mu s) (neighcomm s) (is_regular_grid s) (gridpoint s) (gridpoints s) (neighbor_ranks s) (neighbor_idx s) (my_dom s) (neighbor_doms s) (nlocalcells s) (nghostcells s) x (global_to_local s) (exchange_vec s) (raised s).
Definition with_global_to_local x s := mkGrid (mu s) (neighcomm s) (is_regular_grid s) (gridpoint s) (gridpoints s) (neighbor_ranks s) (neighbor_idx s) (my_dom s) (neighbor_doms s) (nlocalcells s) (nghostcells s) (cells s) x (exchange_vec s) (raised s).
Definition with_exchange_vec x s := mkGrid (mu s) (neighcomm s) (is_regular_grid s) (gridpoint s) (gridpoints s) (neighbor_ranks s) (neighbor_idx s) (my_dom s) (neighbor_doms s) (nlocalcells s) (nghostcells s) (cells s) (global_to_local s) x (raised s).
Definition with_raised x s := mkGrid (mu s) (neighcomm s) (is_regular_grid s) (gridpoint s) (gridpoints s) (neighbor_ranks s) (neighbor_idx s) (my_dom s) (neighbor_doms s) (nlocalcells s) (nghostcells s) (cells s) (global_to_local s) (exchange_vec s) x.

(* ===================================================================== *)
(** ** Methods: state and exceptions *)
(* ===================================================================== *)

Inductive exn :=
  | domain_error_not_in_local_box      (* "Particle not in local box" *)
  | runtime_error_ghost_layer          (* "... position_to_cell for ghost layer cell." *)
  | runtime_error_position_unknown     (* "Position unknown. ..." *)
  | out_of_range                       (* std::unordered_map::at *)
  | mpi_error                          (* a call on MPI_COMM_NULL *)
  | bad_index.                         (* operator[] past the end: undefined *)

Inductive Res (A : Type) :=
  | Ok (a : A)
  | Throw (e : exn).
Arguments Ok {A} _.
Arguments Throw {A} _.

(** A method leaves the object in some state whether it returns or throws. *)
Definition M (A : Type) := GridBasedGrid -> Res A * GridBasedGrid.

Definition ret {A} (a : A) : M A := fun s => (Ok a, s).
Definition throw {A} (e : exn) : M A := fun s => (Throw e, s).
Definition bind {A B} (m : M A) (k : A -> M B) : M B :=
  fun s => match m s with
           | (Ok a, s') => k a s'
           | (Throw e, s') => (Throw e, s')
           end.
Definition get : M GridBasedGrid := fun s => (Ok s, s).
Definition gets {A} (f : GridBasedGrid -> A) : M A := fun s => (Ok (f s), s).
Definition modify (f : GridBasedGrid -> GridBasedGrid) : M unit := fun s => (Ok tt, f s).
Definition lift_opt {A} (o : option A) : M A :=
  match o with Some a => ret a | None => throw bad_index end.

Declare Scope meth_scope.
Delimit Scope meth_scope with meth.
Notation "x <- m ;; k" := (bind m (fun x => k))
  (at level 100, m at next level, right associativity) : meth_scope.
Notation "m ;;; k" := (bind m (fun _ => k))
  (at level 100, right associativity) : meth_scope.

(** [for (x : l) body] *)
Fixpoint for_each {A} (l : list A) (body : A -> M unit) : M unit :=
  match l with
  | [] => ret tt
  | x :: l' => bind (body x) (fun _ => for_each l' body)
  end.

(** [push_back_unique] *)
Definition push_back_unique (v : list Z) (el : Z) : list Z :=
  if decide (el ∈ v) then v else v ++ [el].

(** [operator[]] of the maps: a missing key is inserted with the value 0. *)
Definition map_subscript (m : gmap Z Z) (k : Z) : Z * gmap Z Z :=
  match m !! k with
  | Some v => (v, m)
  | None => (0, <[k := 0]> m)
  end.

(* ===================================================================== *)
(** ** std::regex, as far as [command] uses it *)
(* ===================================================================== *)

(** The ECMAScript grammar restricted to what the pattern of [command]
    contains: characters, [.], the classes [\d] and [\s], escaped
    punctuation, [*], [+], [|] and a capture group. *)
Inductive regex :=
  | Eps
  | Chr (c : ascii)
  | AnyChar                (* .  : any character but a line terminator *)
  | Digit                  (* \d *)
  | Space                  (* \s *)
  | Seq (r1 r2 : regex)
  | Alt (r1 r2 : regex)
  | Star (r : regex)
  | Plus (r : regex)
  | Group (r : regex).

Definition is_digit (c : ascii) : bool :=
  let n := nat_of_ascii c in ((48 <=? n) && (n <=? 57))%nat.

(** [isspace] in the "C" locale: space, \t, \n, \v, \f, \r. *)
Definition is_space (c : ascii) : bool :=
  let n := nat_of_ascii c in ((n =? 32) || ((9 <=? n) && (n <=? 13)))%nat.

Definition is_line_terminator (c : ascii) : bool :=
  let n := nat_of_ascii c in ((n =? 10) || (n =? 13))%nat.

Definition ascii_eqb (a b : ascii) : bool := (nat_of_ascii a =? nat_of_ascii b)%nat.

(** Parser of the pattern text.  [parse_alt] reads alternatives up to a
    closing parenthesis or the end, [parse_seq] a concatenation, and
    [parse_atom] one atom with its quantifiers. *)
Fixpoint parse_quant (r : regex) (p : list ascii) (n : nat) : regex * list ascii :=
  match n with
  | O => (r, p)
  | S n' =>
      match p with
      | "*"%char :: p' => parse_quant (Star r) p' n'
      | "+"%char :: p' => parse_quant (Plus r) p' n'
      | _ => (r, p)
      end
  end.

Definition parse_escape (c : ascii) : regex :=
  if ascii_eqb c "d" then Digit
  else if ascii_eqb c "s" then Space
  else Chr c.

Fixpoint parse_alt (fuel : nat) (p : list ascii) : option (regex * list ascii) :=
  match fuel with
  | O => None
  | S fuel' =>
      let parse_atom (p : list ascii) : option (regex * list ascii) :=
        match p with
        | [] => None
        | "\"%char :: c :: p' => Some (parse_quant (parse_escape c) p' (length p'))
        | "."%char :: p' => Some (parse_quant AnyChar p' (length p'))
        | "("%char :: p' =>
            match parse_alt fuel' p' with
            | Some (r, ")"%char :: p'') => Some (parse_quant (Group r) p'' (length p''))
            | _ => None
            end
        | c :: p' =>
            if ascii_eqb c ")" || ascii_eqb c "|" || ascii_eqb c "*" || ascii_eqb c "+"
               || ascii_eqb c "\"
            then None
            else Some (parse_quant (Chr c) p' (length p'))
        end in
      let parse_seq :=
        fix parse_seq (n : nat) (acc : regex) (p : list ascii) : regex * list ascii :=
          match n with
          | O => (acc, p)
          | S n' =>
              match parse_atom p with
              | Some (r, p') => parse_seq n' (Seq acc r) p'
              | None => (acc, p)
              end
          end in
      let '(r1, p1) := parse_seq (length p) Eps p in
      match p1 with
      | "|"%char :: p2 =>
          match parse_alt fuel' p2 with
          | Some (r2, p3) => Some (Alt r1 r2, p3)
          | None => None
          end
      | _ => Some (r1, p1)
      end
  end.

Definition parse_regex (pattern : string) : option regex :=
  let p := list_ascii_of_string pattern in
  match parse_alt (S (length p)) p with
  | Some (r, []) => Some r
  | _ => None
  end.

(** The backtracking matcher: alternatives are tried left to right,
    quantifiers are greedy, an iteration of [*] that consumes nothing is
    refused.  [cap] is the text of the capture group, [k] the rest of the
    match. *)
Fixpoint rmatch {R} (r : regex) (s : list ascii) (cap : option (list ascii))
    (k : list ascii -> option (list ascii) -> option R) {struct r} : option R :=
  let star (r' : regex) :=
    fix loop (n : nat) (s : list ascii) (cap : option (list ascii)) : option R :=
      match n with
      | O => k s cap
      | S n' =>
          match rmatch r' s cap
                  (fun s' cap' => if (length s' <? length s)%nat
                                  then loop n' s' cap' else None) with
          | Some x => Some x
          | None => k s cap
          end
      end in
  let one (f : ascii -> bool) :=
    match s with
    | c :: s' => if f c then k s' cap else None
    | [] => None
    end in
  match r with
  | Eps => k s cap
  | Chr c => one (ascii_eqb c)
  | AnyChar => one (fun c => negb (is_line_terminator c))
  | Digit => one is_digit
  | Space => one is_space
  | Seq r1 r2 => rmatch r1 s cap (fun s' cap' => rmatch r2 s' cap' k)
  | Alt r1 r2 =>
      match rmatch r1 s cap k with
      | Some x => Some x
      | None => rmatch r2 s cap k
      end
  | Star r' => star r' (length s) s cap
  | Plus r' => rmatch r' s cap (fun s' cap' => star r' (length s') s' cap')
  | Group r' =>
      rmatch r' s cap
        (fun s' _ => k s' (Some (take (length s - length s') s)))
  end.

(** [std::regex_match(s, m, re)]: the whole of [s] has to match; the result
    is [m[1]], the text of the group. *)
Definition regex_match (re : regex) (s : string) : option (option string) :=
  rmatch re (list_ascii_of_string s) None
    (fun rest cap =>
       match rest with
       | [] => Some (option_map string_of_list_ascii cap)
       | _ => None
       end).

(** The pattern of [command], as the string literal of the source denotes it
    after the compiler has read its escapes. *)
Definition mure_pattern : string := "\s*mu\s*=\s*(\d+\.|\.\d+|\d+.\d+)".

Definition mure : regex :=
  match parse_regex mure_pattern with Some r => r | None => Eps end.

Section Methods.

Context (E : Env).

Local Open Scope meth_scope.

(** [ENSURE(cond)]: with [GRID_DEBUG] a failed check prints and sends SIGINT to
    the process group with [kill(0, SIGINT)]; the macro has no [return] and no
    [throw], so the statements after it are still the method's.  Without
    [GRID_DEBUG] the macro is empty. *)
Definition ENSURE (site : ensure_site) (cond : bool) : M unit :=
  if GRID_DEBUG E then
    if cond then ret tt
    else modify (fun s => with_raised (site :: raised s) s)
  else ret tt.

(* --------------------------------------------------------------------- *)
(** *** bounding_box *)
(* --------------------------------------------------------------------- *)

(** The triple loop [for (off[0] = lo; ...) for (off[1] = lo; ...) for (off[2] = lo; ...)]
    over the values [l], outermost index first. *)
Definition offsets (l : list Z) : list Vec3i :=
  flat_map (fun o0 => flat_map (fun o1 => map (fun o2 => mkVec3 o0 o1 o2) l) l) l.

(** [nc[d] = c[d] - off[d]], wrapped below zero; the second component is [mirror[d]]. *)
Definition bb_wrap (c off : Vec3i) (d : axis) : Z * Z :=
  let nc := vget c d - vget off d in
  if nc <? 0 then (vget (cart_dims E) d - 1, -1) else (nc, 0).

Definition bb_corner (gps : list Vec3d) (c off : Vec3i) : option Vec3d :=
  let w := fun d => bb_wrap c off d in
  let nc := mkVec3 (w ax0).1 (w ax1).1 (w ax2).1 in
  let rank := MPI_Cart_rank (cart_dims E) nc in
  gp ← vec_at gps rank;
  Some (mkVec3 (vget gp ax0 + Z2F (w ax0).2 * vget (box_l E) ax0)%float
               (vget gp ax1 + Z2F (w ax1).2 * vget (box_l E) ax1)%float
               (vget gp ax2 + Z2F (w ax2).2 * vget (box_l E) ax2)%float).

Definition bounding_box_of (gps : list Vec3d) (r : Z) : option (list Vec3d) :=
  let c := MPI_Cart_coords (cart_dims E) r in
  mapM (bb_corner gps c) (offsets [0; 1]).

Definition bounding_box (r : Z) : M (list Vec3d) :=
  gps <- gets gridpoints ;; lift_opt (bounding_box_of gps r).

(* --------------------------------------------------------------------- *)
(** *** init_neighbors *)
(* --------------------------------------------------------------------- *)

(** The locals and members the loop of [init_neighbors] writes. *)
Record NeighLoop := mkNeighLoop {
  nl_ranks : list Z;        (* neighbor_ranks *)
  nl_idx : gmap Z Z;        (* neighbor_idx *)
  nl_nneigh : Z;
  nl_source : list Z;       (* source_neigh *)
  nl_dest : list Z          (* dest_neigh *)
}.

(** [nc[d] = c[d] + off[d]] with the periodic wrap. *)
Definition neigh_wrap (d : axis) (off : Vec3i) : Z :=
  let nc := vget (cart_coords E) d + vget off d in
  if nc <? 0 then vget (cart_dims E) d - 1
  else if nc =? vget (cart_dims E) d then 0
  else nc.

Definition neigh_rank (off : Vec3i) : Z :=
  MPI_Cart_rank (cart_dims E)
    (mkVec3 (neigh_wrap ax0 off) (neigh_wrap ax1 off) (neigh_wrap ax2 off)).

Definition all_ge0 (off : Vec3i) : bool :=
  (0 <=? c0 off) && (0 <=? c1 off) && (0 <=? c2 off).
Definition all_le0 (off : Vec3i) : bool :=
  (c0 off <=? 0) && (c1 off <=? 0) && (c2 off <=? 0).

Definition neigh_step (a : NeighLoop) (off : Vec3i) : NeighLoop :=
  let r := neigh_rank off in
  if r =? this_node E then a
  else
    let a1 :=
      match nl_idx a !! r with
      | None => mkNeighLoop (nl_ranks a ++ [r]) (<[r := nl_nneigh a]> (nl_idx a))
                            (nl_nneigh a + 1) (nl_source a) (nl_dest a)
      | Some _ => a
      end in
    let src := if all_ge0 off then push_back_unique (nl_source a1) r else nl_source a1 in
    let dst := if all_le0 off then push_back_unique (nl_dest a1) r else nl_dest a1 in
    mkNeighLoop (nl_ranks a1) (nl_idx a1) (nl_nneigh a1) src dst.

Definition neigh_loop : NeighLoop :=
  fold_left neigh_step (offsets [-1; 0; 1]) (mkNeighLoop [] ∅ 0 [] []).

Definition init_neighbors : M unit :=
  let a := neigh_loop in
  modify (fun s =>
    with_neighcomm
      (Some (mkDistGraph (nl_source a ++ [this_node E]) (nl_dest a ++ [this_node E])))
      (with_neighbor_idx (nl_idx a) (with_neighbor_ranks (nl_ranks a) s))).

(* --------------------------------------------------------------------- *)
(** *** init_octagons *)
(* --------------------------------------------------------------------- *)

(** A collective on [comm_cart] seen from the calling rank: [peers q] is
    what rank [q] contributes, [own] what the caller does. *)
Definition contribution {A} (peers : Z -> A) (own : A) (q : Z) : A :=
  if q =? this_node E then own else peers q.

(** [boost::mpi::all_gather(comm_cart, in, out)]: [out] is resized to the
    size of the communicator and holds the contributions by rank. *)
Definition all_gather {A} (peers : Z -> A) (own : A) : list A :=
  map (contribution peers own) (seqZ 0 (n_nodes E)).

Definition init_octagons (peers : Z -> Vec3d) : M unit :=
  modify (fun s => with_gridpoints (all_gather peers (gridpoint s)) s) ;;;
  bb <- bounding_box (this_node E) ;;
  modify (with_my_dom bb) ;;;
  modify (with_neighbor_doms []) ;;;
  ranks <- gets neighbor_ranks ;;
  for_each ranks (fun r =>
    bb <- bounding_box r ;;
    modify (fun s => with_neighbor_doms (neighbor_doms s ++ [bb]) s)).

(* --------------------------------------------------------------------- *)
(** *** init_partitioning *)
(* --------------------------------------------------------------------- *)

Definition init_gridpoint_axis (d : axis) : double :=
  if (vget (my_right E) d <? vget (box_l E) d)%float
  then (vget (my_right E) d - lit_1e_6)%float
  else vget (my_right E) d.

Definition init_partitioning (peers : Z -> Vec3d) : M unit :=
  modify (with_is_regular_grid true) ;;;
  for_each axes (fun d =>
    modify (fun s => with_gridpoint (vset (gridpoint s) d (vget (my_right E) d)) s) ;;;
    if (vget (my_right E) d <? vget (box_l E) d)%float
    then modify (fun s => with_gridpoint
                   (vset (gridpoint s) d (vget (gridpoint s) d - lit_1e_6)%float) s)
    else ret tt) ;;;
  init_neighbors ;;;
  init_octagons peers.

(* --------------------------------------------------------------------- *)
(** *** position_to_rank and gloidx_to_rank *)
(* --------------------------------------------------------------------- *)

(** The scan [for (int i = 0; i < n_neighbors(); ++i)] over [neighbor_doms]. *)
Fixpoint scan_neighbor_doms (ranks : list Z) (doms : list Octagon) (i : nat)
    (mp : Vec3d) : Res Z :=
  match ranks with
  | [] => Throw runtime_error_position_unknown
  | r :: ranks' =>
      match doms !! i with
      | None => Throw bad_index
      | Some dom =>
          if contains E dom mp then Ok r
          else scan_neighbor_doms ranks' doms (S i) mp
      end
  end.

Definition resolve_midpoint (s : GridBasedGrid) (mp : Vec3d) : Res Z :=
  if is_regular_grid s then Ok (map_position_node_array E mp)
  else if contains E (my_dom s) mp then Ok (this_node E)
  else scan_neighbor_doms (neighbor_ranks s) (neighbor_doms s) 0 mp.

Definition position_to_rank (pos : Vec3d) : M Z :=
  fun s =>
    let mp := gb_midpoint (gbox E) (gb_cell_at_pos (gbox E) pos) in
    (resolve_midpoint s mp, s).

Definition gloidx_to_rank (gloidx : Z) : M Z :=
  position_to_rank (gb_midpoint (gbox E) gloidx).

(* --------------------------------------------------------------------- *)
(** *** reinit *)
(* --------------------------------------------------------------------- *)

(** [global_to_local[k]] *)
Definition global_to_local_subscript (k : Z) : M Z :=
  fun s => let '(v, g') := map_subscript (global_to_local s) k in
           (Ok v, with_global_to_local g' s).

(** [neighbor_idx[k]] *)
Definition neighbor_idx_subscript (k : Z) : M Z :=
  fun s => let '(v, m') := map_subscript (neighbor_idx s) k in
           (Ok v, with_neighbor_idx m' s).

(** The lambda [glo_to_loc]: [global_to_local.at(i)] with [GRID_DEBUG],
    [global_to_local[i]] without. *)
Definition glo_to_loc (i : Z) : M Z :=
  if GRID_DEBUG E then
    g <- gets global_to_local ;;
    match g !! i with
    | Some v => ret v
    | None => throw out_of_range
    end
  else global_to_local_subscript i.

Definition set_recv (k : nat) (l : list Z) (s : GridBasedGrid) : GridBasedGrid :=
  with_exchange_vec (alter (fun e => mkDesc (dest e) l (send e)) k (exchange_vec s)) s.
Definition set_send (k : nat) (l : list Z) (s : GridBasedGrid) : GridBasedGrid :=
  with_exchange_vec (alter (fun e => mkDesc (dest e) (recv e) l) k (exchange_vec s)) s.

(** [std::transform(begin, end, begin, glo_to_loc)]: the elements are
    replaced one after the other; [write] stores the vector. *)
Fixpoint transform (write : list Z -> GridBasedGrid -> GridBasedGrid)
    (seen todo : list Z) : M unit :=
  match todo with
  | [] => ret tt
  | x :: rest =>
      y <- glo_to_loc x ;;
      modify (write (seen ++ y :: rest)) ;;;
      transform write (seen ++ [y]) rest
  end.

(** [std::sort] on a vector of [int]. *)
Definition std_sort (l : list Z) : list Z := merge_sort Z.le l.

(** First loop: the local cells. *)
Definition local_cell_step (i : Z) : M unit :=
  dom <- gets my_dom ;;
  if contains E dom (gb_midpoint (gbox E) i) then
    modify (fun s =>
      with_nlocalcells (nlocalcells s + 1)
        (with_global_to_local (<[i := nlocalcells s]> (global_to_local s))
          (with_cells (cells s ++ [i]) s)))
  else ret tt.

(** The body of the loop over the neighbours of the local cell number [i]. *)
Definition ghost_step (i : Z) (neighidx : Z) : M unit :=
  owner <- gloidx_to_rank neighidx ;;
  if owner =? this_node E then ret tt
  else
    g <- gets global_to_local ;;
    match g !! neighidx with
    | None =>
        modify (fun s =>
          with_nghostcells (nghostcells s + 1)
            (with_global_to_local
               (<[neighidx := nlocalcells s + nghostcells s]> (global_to_local s))
               (with_cells (cells s ++ [neighidx]) s)))
    | Some _ => ret tt
    end ;;;
    idx <- neighbor_idx_subscript owner ;;
    ev <- gets exchange_vec ;;
    e <- lift_opt (vec_at ev idx) ;;
    ci <- (cs <- gets cells ;; lift_opt (vec_at cs i)) ;;
    let e1 := if dest e =? -1 then mkDesc owner (recv e) (send e) else e in
    let e2 := mkDesc (dest e1) (push_back_unique (recv e1) neighidx) (send e1) in
    let e3 := mkDesc (dest e2) (recv e2) (push_back_unique (send e2) ci) in
    modify (with_exchange_vec (<[Z.to_nat idx := e3]> ev)).

Definition ghost_loop : M unit :=
  n <- gets nlocalcells ;;
  for_each (seqZ 0 n) (fun i =>
    ci <- (cs <- gets cells ;; lift_opt (vec_at cs i)) ;;
    for_each (gb_full_shell_neigh_without_center (gbox E) ci) (ghost_step i)).

(** The body of [for (auto& v: exchange_vec)], [v] being the entry number [k]. *)
Definition finalize_desc (k : nat) : M unit :=
  ev <- gets exchange_vec ;;
  v <- lift_opt (ev !! k) ;;
  ENSURE ensure_dest_set (negb (dest v =? -1)) ;;;
  modify (set_recv k (std_sort (recv v))) ;;;
  transform (set_recv k) [] (std_sort (recv v)) ;;;
  modify (set_send k (std_sort (send v))) ;;;
  transform (set_send k) [] (std_sort (send v)).

Definition reinit : M unit :=
  modify (with_nlocalcells 0) ;;;
  modify (with_nghostcells 0) ;;;
  modify (with_cells []) ;;;
  modify (with_global_to_local ∅) ;;;
  modify (with_exchange_vec []) ;;;
  for_each (seqZ 0 (gb_ncells (gbox E))) local_cell_step ;;;
  n <- gets nlocalcells ;;
  ENSURE ensure_nlocalcells_positive (0 <? n) ;;;
  ranks <- gets neighbor_ranks ;;
  modify (with_exchange_vec (replicate (length ranks) default_desc)) ;;;
  ghost_loop ;;;
  ng <- gets nghostcells ;;
  ENSURE ensure_nghostcells_positive ((n_nodes E =? 1) || (0 <? ng)) ;;;
  ev <- gets exchange_vec ;;
  for_each (seq 0 (length ev)) finalize_desc.

(** The constructor: [mu(1.0), neighcomm(MPI_COMM_NULL)], the containers
    empty; the members it does not initialise are written before they are
    read. *)
Definition fresh : GridBasedGrid :=
  mkGrid 1%float None false (mkVec3 0 0 0)%float [] [] ∅ [] [] 0 0 [] ∅ [] [].

Definition construct (peers : Z -> Vec3d) : Res unit * GridBasedGrid :=
  (init_partitioning peers ;;; reinit) fresh.

(* --------------------------------------------------------------------- *)
(** *** The queries *)
(* --------------------------------------------------------------------- *)

Definition n_local_cells : M Z := gets nlocalcells.
Definition n_ghost_cells : M Z := gets nghostcells.
Definition n_neighbors : M Z := gets (fun s => Z.of_nat (length (neighbor_ranks s))).

Definition neighbor_rank (i : Z) : M Z :=
  ranks <- gets neighbor_ranks ;; lift_opt (vec_at ranks i).

Definition cell_neighbor_index (cellidx : Z) (neigh : Z) : M Z :=
  cs <- gets cells ;;
  c <- lift_opt (vec_at cs cellidx) ;;
  global_to_local_subscript (gb_neighbor (gbox E) c neigh).

Definition get_boundary_info : M (list GhostExchangeDesc) := gets exchange_vec.

Definition position_to_cell_index (pos : Vec3d) : M Z :=
  (if GRID_DEBUG E then
     r <- position_to_rank pos ;;
     if negb (r =? this_node E) then throw domain_error_not_in_local_box else ret tt
   else ret tt) ;;;
  i <- global_to_local_subscript (gb_cell_at_pos (gbox E) pos) ;;
  (if GRID_DEBUG E then
     n <- n_local_cells ;;
     if n <=? i then
       (* the diagnostics read position_to_rank(pos) and cells[i] *)
       _r <- position_to_rank pos ;;
       cs <- gets cells ;;
       _c <- lift_opt (vec_at cs i) ;;
       throw runtime_error_ghost_layer
     else ret tt
   else ret tt) ;;;
  ret i.

Definition position_to_neighidx (pos : Vec3d) : M Z :=
  rank <- position_to_rank pos ;;
  neighbor_idx_subscript rank.

Definition cell_size : Vec3d := gb_cell_size (gbox E).
Definition grid_size : Vec3i := gb_grid_size (gbox E).

(* --------------------------------------------------------------------- *)
(** *** command *)
(* --------------------------------------------------------------------- *)

Definition command (s : string) : M unit :=
  match regex_match mure s with
  | Some (Some m1) => modify (with_mu (strtod E m1))
  | Some None => modify (with_mu (strtod E ""))
  | None => ret tt
  end.

(* --------------------------------------------------------------------- *)
(** *** center_of_load *)
(* --------------------------------------------------------------------- *)

Definition vadd (v w : Vec3d) : Vec3d := vmap2 PrimFloat.add v w.
Definition vsub (v w : Vec3d) : Vec3d := vmap2 PrimFloat.sub v w.
Definition vzero : Vec3d := mkVec3 0%float 0%float 0%float.

(** [particles] are the positions [p.r.p] of [local_cells.particles()]. *)
Definition center_of_load (particles : list Vec3d) : M Vec3d :=
  let npart := Z.of_nat (length particles) in
  let c := fold_left vadd particles vzero in
  nc <-
    (if npart =? 0 then
       n <- n_local_cells ;;
       cs <- gets cells ;;
       mps <- lift_opt (mapM (fun i => gb_midpoint (gbox E) <$> vec_at cs i) (seqZ 0 n)) ;;
       ret (npart + Z.of_nat (length mps), fold_left vadd mps c)
     else ret (npart, c)) ;;
  let '(npart, c) := nc in
  ret (mkVec3 (c0 c / Z2F npart) (c1 c / Z2F npart) (c2 c / Z2F npart))%float.

(* --------------------------------------------------------------------- *)
(** *** The calls a client makes on the object *)
(* --------------------------------------------------------------------- *)

(** What [exchange_start_callback] can do to the grid: it is client code and
    reaches the object through its public methods. *)
Inductive api_call :=
  | call_neighbor_rank (i : Z)
  | call_cell_neighbor_index (cellidx neigh : Z)
  | call_get_boundary_info
  | call_position_to_cell_index (pos : Vec3d)
  | call_position_to_rank (pos : Vec3d)
  | call_position_to_neighidx (pos : Vec3d)
  | call_command (s : string).

Definition run_call (c : api_call) : M unit :=
  match c with
  | call_neighbor_rank i => _x <- neighbor_rank i ;; ret tt
  | call_cell_neighbor_index c k => _x <- cell_neighbor_index c k ;; ret tt
  | call_get_boundary_info => _x <- get_boundary_info ;; ret tt
  | call_position_to_cell_index p => _x <- position_to_cell_index p ;; ret tt
  | call_position_to_rank p => _x <- position_to_rank p ;; ret tt
  | call_position_to_neighidx p => _x <- position_to_neighidx p ;; ret tt
  | call_command s => command s
  end.

Definition run_calls (cb : list api_call) : M unit := for_each cb run_call.

(* --------------------------------------------------------------------- *)
(** *** repartition *)
(* --------------------------------------------------------------------- *)

(** [MPI_Dist_graph_neighbors_count]: the indegree is the number of sources. *)
Definition undirected_neighbor_count : M Z :=
  nc <- gets neighcomm ;;
  match nc with
  | Some g => ret (Z.of_nat (length (sources g)))
  | None => throw mpi_error
  end.

(** [MPI_Neighbor_allgather] on [neighcomm]: one block from every source, in
    the order of the sources. *)
Definition neighbor_allgather {A} (peers : Z -> A) (own : A) : M (list A) :=
  nc <- gets neighcomm ;;
  match nc with
  | Some g => ret (map (contribution peers own) (sources g))
  | None => throw mpi_error
  end.

Definition norm2 (v : Vec3d) : double :=
  PrimFloat.sqrt (c0 v * c0 v + c1 v * c1 v + c2 v * c2 v)%float.

Definition dist2 (v w : Vec3d) : double := norm2 (vsub v w).

(** [std::min(a, b)] *)
Definition std_min (a b : double) : double := if (b <? a)%float then b else a.

(** [std::accumulate(begin, end, 0.0)] *)
Definition accumulate (l : list double) : double := fold_left PrimFloat.add l 0%float.

(** "Form u" and "Form f" for one neighbour: [r] is its block of the
    gathered centres of load. *)
Definition force (gp : Vec3d) (lambda_hat : double) (r : Vec3d) : Vec3d :=
  let u := vsub r gp in
  let len := norm2 u in
  mkVec3 ((lambda_hat - 1) * c0 u / len)%float
         ((lambda_hat - 1) * c1 u / len)%float
         ((lambda_hat - 1) * c2 u / len)%float.

Definition forces (nneigh : Z) (gp : Vec3d) (lambda : list double) (r : list Vec3d)
    : list Vec3d :=
  let lnormalizer := (accumulate lambda / Z2F nneigh)%float in
  let lambda_hat := map (fun l => (l / lnormalizer)%float) lambda in
  zip_with (force gp) lambda_hat r.

(** One axis of [new_c]. *)
Definition shift_axis (m : double) (f : list Vec3d) (gp : Vec3d) (d : axis) : double :=
  if vget (cart_coords E) d =? vget (cart_dims E) d - 1 then vget gp d
  else fold_left (fun acc fi => (acc + m * vget fi d)%float) f (vget gp d).

Definition new_corner (m : double) (f : list Vec3d) (gp : Vec3d) : Vec3d :=
  mkVec3 (shift_axis m f gp ax0) (shift_axis m f gp ax1) (shift_axis m f gp ax2).

(** The pairs [i < j] of corners closer than [thr]. *)
Fixpoint count_conflicts (thr : double) (bb : list Vec3d) : Z :=
  match bb with
  | [] => 0
  | p :: rest =>
      Z.of_nat (length (filter (fun q => (dist2 p q <? thr)%float = true) rest))
      + count_conflicts thr rest
  end.

Definition conflict_radius : double :=
  (2 * std_min (std_min (c0 cell_size) (c1 cell_size)) (c2 cell_size))%float.

(** A 32 bit [int] after an addition that left its range. *)
Definition wrap_int (z : Z) : Z := (z + 2 ^ 31) mod 2 ^ 32 - 2 ^ 31.

(** [MPI_Allreduce(MPI_IN_PLACE, &n, 1, MPI_INT, MPI_SUM, comm_cart)] *)
Definition allreduce_sum (peers : Z -> Z) (own : Z) : Z :=
  wrap_int (foldr Z.add 0 (all_gather peers own)).

(** The arguments of a call: the weights [m()] returns, the particles
    [center_of_load] reads and the callback. *)
Record RepartArgs := mkRepartArgs {
  ra_weights : list double;
  ra_particles : list Vec3d;
  ra_callback : list api_call
}.

(** What the other ranks contribute to the five collectives of a call. *)
Record Net := mkNet {
  net_lambda : Z -> double;
  net_r : Z -> Vec3d;
  net_gridpoint : Z -> Vec3d;
  net_nconflicts : Z -> Z;
  net_gridpoint_octagons : Z -> Vec3d
}.

Definition repartition (a : RepartArgs) (net : Net) : M bool :=
  nneigh <- undirected_neighbor_count ;;
  let lambda_p := accumulate (ra_weights a) in
  r_p <- center_of_load (ra_particles a) ;;
  lambda <- neighbor_allgather (net_lambda net) lambda_p ;;
  r <- neighbor_allgather (net_r net) r_p ;;
  gp <- gets gridpoint ;;
  m <- gets mu ;;
  let new_c := new_corner m (forces nneigh gp lambda r) gp in
  modify (with_gridpoint new_c) ;;;
  old_gridpoints <- gets gridpoints ;;
  modify (with_gridpoints (all_gather (net_gridpoint net) new_c)) ;;;
  gps <- gets gridpoints ;;
  ENSURE ensure_gridpoints_size (Z.of_nat (length gps) =? n_nodes E) ;;;
  bb <- bounding_box (this_node E) ;;
  let nconflicts :=
    allreduce_sum (net_nconflicts net) (count_conflicts conflict_radius bb) in
  if 0 <? nconflicts then
    ENSURE ensure_0 false ;;;
    modify (with_gridpoints old_gridpoints) ;;;
    g <- lift_opt (vec_at old_gridpoints (this_node E)) ;;
    modify (with_gridpoint g) ;;;
    ret false
  else
    modify (with_is_regular_grid false) ;;;
    init_octagons (net_gridpoint_octagons net) ;;;
    run_calls (ra_callback a) ;;;
    reinit ;;;
    ret true.

End Methods.

(* ===================================================================== *)
(** ** A regular instance of the collaborators *)
(* ===================================================================== *)

Module Regular.

Section Instance.

Context (debug : bool) (L : Vec3d) (N dims : Vec3i).

(** Modelled from the spec: [GlobalBox] of [globox.hpp] is not part of the
    sources at hand.  The grid has [N] cells per axis of size [L/N];
    [midpoint] is the centre of the cell, [cell_at_pos] divides the position
    by the cell size and rounds down (here for positions inside the box), and
    the shell of a cell holds its 26 periodic neighbours in the order of the
    offsets. *)
Definition cs : Vec3d :=
  mkVec3 (c0 L / Z2F (c0 N))%float (c1 L / Z2F (c1 N))%float (c2 L / Z2F (c2 N))%float.

Definition midpoint (g : Z) : Vec3d :=
  let c := unlinearize g N in
  mkVec3 ((Z2F (c0 c) + 0.5) * c0 cs)%float
         ((Z2F (c1 c) + 0.5) * c1 cs)%float
         ((Z2F (c2 c) + 0.5) * c2 cs)%float.

(** The least [k < n] with [p < (k + 1) * w], or [n - 1]. *)
Definition slot (n : Z) (w p : double) : Z :=
  match List.find (fun k => (p <? Z2F (k + 1) * w)%float) (seqZ 0 n) with
  | Some k => k
  | None => n - 1
  end.

Definition cell_at_pos (p : Vec3d) : Z :=
  linearize (mkVec3 (slot (c0 N) (c0 cs) (c0 p)) (slot (c1 N) (c1 cs) (c1 p))
                    (slot (c2 N) (c2 cs) (c2 p))) N.

Definition shell_offsets : list Vec3i :=
  List.filter (fun o => negb ((c0 o =? 0) && (c1 o =? 0) && (c2 o =? 0)))
              (offsets [-1; 0; 1]).

Definition shifted (g : Z) (o : Vec3i) : Z :=
  let c := unlinearize g N in
  linearize (mkVec3 ((c0 c + c0 o) mod c0 N) ((c1 c + c1 o) mod c1 N)
                    ((c2 c + c2 o) mod c2 N)) N.

Definition full_shell_neigh_without_center (g : Z) : list Z :=
  map (shifted g) shell_offsets.

Definition neighbor (g k : Z) : Z :=
  default g (vec_at (full_shell_neigh_without_center g) k).

Definition globox : GlobalBox :=
  {| gb_ncells := c0 N * c1 N * c2 N;
     gb_midpoint := midpoint;
     gb_cell_at_pos := cell_at_pos;
     gb_full_shell_neigh_without_center := full_shell_neigh_without_center;
     gb_neighbor := neighbor;
     gb_cell_size := cs;
     gb_grid_size := N |}.

(** Modelled from the spec: [tetra::Octagon] is an external library, of which
    section 4.3 of the specification fixes the answer on an axis-aligned box:
    the box between the corner of offset (1,1,1), the last one, and the
    corner of offset (0,0,0), the first one. *)
Definition box_contains (o : Octagon) (p : Vec3d) : bool :=
  match o !! 0%nat, o !! 7%nat with
  | Some hi, Some lo =>
      forallb (fun d => (vget lo d <=? vget p d)%float && (vget p d <? vget hi d)%float) axes
  | _, _ => false
  end.

(** Modelled from the spec: [grid.hpp] is not part of the sources at hand.
    The regular decomposition gives every process a box of size
    [L/dims]; [my_right] is its upper corner and [map_position_node_array]
    the rank of the box a position falls in. *)
Definition local_box_l : Vec3d :=
  mkVec3 (c0 L / Z2F (c0 dims))%float (c1 L / Z2F (c1 dims))%float
         (c2 L / Z2F (c2 dims))%float.

Definition node_of_position (p : Vec3d) : Z :=
  linearize (mkVec3 (slot (c0 dims) (c0 local_box_l) (c0 p))
                    (slot (c1 dims) (c1 local_box_l) (c1 p))
                    (slot (c2 dims) (c2 local_box_l) (c2 p))) dims.

Definition right_corner (rank : Z) : Vec3d :=
  let c := unlinearize rank dims in
  mkVec3 (Z2F (c0 c + 1) * c0 local_box_l)%float
         (Z2F (c1 c + 1) * c1 local_box_l)%float
         (Z2F (c2 c + 1) * c2 local_box_l)%float.

(** The environment of the process [rank]; [strtod] is left to the caller. *)
Definition env (sd : string -> double) (rank : Z) : Env :=
  {| GRID_DEBUG := debug;
     n_nodes := c0 dims * c1 dims * c2 dims;
     this_node := rank;
     cart_dims := dims;
     cart_coords := unlinearize rank dims;
     box_l := L;
     my_right := right_corner rank;
     map_position_node_array := node_of_position;
     gbox := globox;
     contains := box_contains;
     strtod := sd |}.

End Instance.

End Regular.

(* ===================================================================== *)
(** ** Reasoning about methods *)
(* ===================================================================== *)

Section Triples.

(** [preserved I m]: the method keeps [I], whether it returns or throws. *)
Definition preserved {A} (I : GridBasedGrid -> Prop) (m : M A) : Prop :=
  forall s, I s -> I (m s).2.

(** [hoare P m Q]: from a state in [P], if [m] returns [a] the state is in [Q a]. *)
Definition hoare {A} (P : GridBasedGrid -> Prop) (m : M A)
    (Q : A -> GridBasedGrid -> Prop) : Prop :=
  forall s a s', P s -> m s = (Ok a, s') -> Q a s'.

Lemma bind_ok {A B} (m : M A) (k : A -> M B) s b s' :
  bind m k s = (Ok b, s') ->
  exists a s1, m s = (Ok a, s1) /\ k a s1 = (Ok b, s').
Proof.
  unfold bind. destruct (m s) as [[a|e] s1] eqn:Hm; intros H.
  - exists a, s1. auto.
  - discriminate.
Qed.

Lemma bind_eq_ok {A B} (m : M A) (k : A -> M B) s a s1 :
  m s = (Ok a, s1) -> bind m k s = k a s1.
Proof. unfold bind. intros ->. reflexivity. Qed.

Lemma bind_eq_throw {A B} (m : M A) (k : A -> M B) s e s1 :
  m s = (Throw e, s1) -> bind m k s = (Throw e, s1).
Proof. unfold bind. intros ->. reflexivity. Qed.

Lemma preserved_ret {A} I (a : A) : preserved I (ret a).
Proof. intros s H. exact H. Qed.

Lemma preserved_throw {A} I e : preserved I (@throw A e).
Proof. intros s H. exact H. Qed.

Lemma preserved_gets {A} I (f : GridBasedGrid -> A) : preserved I (gets f).
Proof. intros s H. exact H. Qed.

Lemma preserved_lift_opt {A} I (o : option A) : preserved I (lift_opt o).
Proof. destruct o; [apply preserved_ret | apply preserved_throw]. Qed.

Lemma preserved_modify I f :
  (forall s, I s -> I (f s)) -> preserved I (modify f).
Proof. intros Hf s H. apply Hf, H. Qed.

Lemma preserved_bind {A B} I (m : M A) (k : A -> M B) :
  preserved I m -> (forall a, preserved I (k a)) -> preserved I (bind m k).
Proof.
  intros Hm Hk s H. unfold bind.
  specialize (Hm s H). destruct (m s) as [[a|e] s1]; simpl in *.
  - apply Hk, Hm.
  - exact Hm.
Qed.

Lemma preserved_for_each {A} I (l : list A) (body : A -> M unit) :
  (forall x, preserved I (body x)) -> preserved I (for_each l body).
Proof.
  intros Hb. induction l as [|x l IH]; simpl.
  - apply preserved_ret.
  - apply preserved_bind; auto.
Qed.

Lemma preserved_if {A} I (b : bool) (m1 m2 : M A) :
  preserved I m1 -> preserved I m2 -> preserved I (if b then m1 else m2).
Proof. destruct b; auto. Qed.

Lemma preserved_ENSURE E I site cond :
  (forall s, I s -> I (with_raised (site :: raised s) s)) ->
  preserved I (ENSURE E site cond).
Proof.
  intros H. unfold ENSURE.
  destruct (GRID_DEBUG E); [destruct cond|];
    auto using preserved_ret, preserved_modify.
Qed.

Lemma hoare_ret {A} (P : GridBasedGrid -> Prop) (a : A) (Q : A -> GridBasedGrid -> Prop) :
  (forall s, P s -> Q a s) -> hoare P (ret a) Q.
Proof. intros H s a' s' HP [= <- <-]. auto. Qed.

Lemma hoare_bind {A B} P (m : M A) Q (k : A -> M B) R :
  hoare P m Q -> (forall a, hoare (Q a) (k a) R) -> hoare P (bind m k) R.
Proof.
  intros Hm Hk s b s' HP Hrun.
  apply bind_ok in Hrun as (a & s1 & H1 & H2).
  eapply Hk; [|exact H2]. eapply Hm; eauto.
Qed.

Lemma hoare_weaken {A} (P P' : GridBasedGrid -> Prop) (m : M A)
    (Q Q' : A -> GridBasedGrid -> Prop) :
  hoare P' m Q' -> (forall s, P s -> P' s) -> (forall a s, Q' a s -> Q a s) ->
  hoare P m Q.
Proof. intros H HP HQ s a s' Hs Hrun. eapply HQ, H; eauto. Qed.

(** A loop with an invariant over the elements already visited. *)
Lemma hoare_for_each {A} (I : list A -> GridBasedGrid -> Prop) (l : list A)
    (body : A -> M unit) :
  (forall seen x rest, l = seen ++ x :: rest ->
     hoare (I seen) (body x) (fun _ => I (seen ++ [x]))) ->
  hoare (I []) (for_each l body) (fun _ => I l).
Proof.
  intros Hb.
  assert (G : forall seen rest, l = seen ++ rest ->
            hoare (I seen) (for_each rest body) (fun _ => I l)).
  { intros seen rest. revert seen.
    induction rest as [|x rest IH]; intros seen Hl; simpl.
    - rewrite app_nil_r in Hl. subst seen. apply hoare_ret. auto.
    - eapply hoare_bind.
      + apply (Hb seen x rest Hl).
      + intros u. apply IH. rewrite <- app_assoc. exact Hl. }
  apply (G [] l). reflexivity.
Qed.

End Triples.

(** Solves [preserved I m] for methods built from the combinators, leaving
    the updates of the state. *)
Ltac preserved_step :=
  lazymatch goal with
  | |- preserved _ (ret _) => apply preserved_ret
  | |- preserved _ (throw _) => apply preserved_throw
  | |- preserved _ (gets _) => apply preserved_gets
  | |- preserved _ (lift_opt _) => apply preserved_lift_opt
  | |- preserved _ (bind _ _) => apply preserved_bind; [|intros ?]
  | |- preserved _ (for_each _ _) => apply preserved_for_each; intros ?
  | |- preserved _ (if _ then _ else _) => apply preserved_if
  | |- preserved _ (ENSURE _ _ _) => apply preserved_ENSURE; intros ? ?
  | |- preserved _ (modify _) => apply preserved_modify; intros ? ?
  end.

(* ===================================================================== *)
(** ** What the methods leave alone *)
(* ===================================================================== *)

(** The members only [init_partitioning] and [repartition] write. *)
Definition geometry (s : GridBasedGrid) :=
  (neighcomm s, is_regular_grid s, gridpoint s, gridpoints s,
   neighbor_ranks s, my_dom s, neighbor_doms s).

Section Frames.

Context (E : Env).

Lemma preserved_position_to_rank I pos : preserved I (position_to_rank E pos).
Proof. intros s H. exact H. Qed.

Lemma preserved_gloidx_to_rank I g : preserved I (gloidx_to_rank E g).
Proof. intros s H. exact H. Qed.

Lemma preserved_global_to_local_subscript (I : GridBasedGrid -> Prop) k :
  (forall s g, I s -> I (with_global_to_local g s)) ->
  preserved I (global_to_local_subscript k).
Proof.
  intros Hf s H. unfold global_to_local_subscript.
  destruct (map_subscript (global_to_local s) k) as [v g']. simpl. auto.
Qed.

Lemma preserved_neighbor_idx_subscript (I : GridBasedGrid -> Prop) k :
  (forall s g, I s -> I (with_neighbor_idx g s)) ->
  preserved I (neighbor_idx_subscript k).
Proof.
  intros Hf s H. unfold neighbor_idx_subscript.
  destruct (map_subscript (neighbor_idx s) k) as [v g']. simpl. auto.
Qed.

Lemma preserved_glo_to_loc (I : GridBasedGrid -> Prop) i :
  (forall s g, I s -> I (with_global_to_local g s)) ->
  preserved I (glo_to_loc E i).
Proof.
  intros Hf. unfold glo_to_loc. destruct (GRID_DEBUG E).
  - preserved_step; [preserved_step|]. destruct (_ !! _); preserved_step.
  - apply preserved_global_to_local_subscript, Hf.
Qed.

Lemma preserved_transform (I : GridBasedGrid -> Prop) write seen todo :
  (forall s g, I s -> I (with_global_to_local g s)) ->
  (forall s l, I s -> I (write l s)) ->
  preserved I (transform E write seen todo).
Proof.
  intros Hg Hw. revert seen. induction todo as [|x rest IH]; intros seen; simpl.
  - apply preserved_ret.
  - apply preserved_bind; [apply preserved_glo_to_loc, Hg|intros y].
    apply preserved_bind; [apply preserved_modify; auto|intros _]. apply IH.
Qed.

Lemma preserved_bounding_box I r : preserved I (bounding_box E r).
Proof. unfold bounding_box. repeat preserved_step. Qed.

End Frames.

(** [preserved_step] extended to the methods that read or write one member. *)
Ltac frame_step :=
  lazymatch goal with
  | |- preserved _ (gloidx_to_rank _ _) => apply preserved_gloidx_to_rank
  | |- preserved _ (position_to_rank _ _) => apply preserved_position_to_rank
  | |- preserved _ (bounding_box _ _) => apply preserved_bounding_box
  | |- preserved _ (neighbor_idx_subscript _) =>
      apply preserved_neighbor_idx_subscript; intros ? ? ?
  | |- preserved _ (global_to_local_subscript _) =>
      apply preserved_global_to_local_subscript; intros ? ? ?
  | |- preserved _ (glo_to_loc _ _) => apply preserved_glo_to_loc; intros ? ? ?
  | |- preserved _ (transform _ _ _ _) =>
      apply preserved_transform; [intros ? ? ? | intros ? ? ?]
  | |- preserved _ (match ?x with _ => _ end) => destruct x
  | |- preserved _ _ => preserved_step
  end.

Section Frames.

Context (E : Env).

(** [I] does not read the members [reinit] and the queries write. *)
Definition decomposition_blind (I : GridBasedGrid -> Prop) : Prop :=
  (forall s x, I s -> I (with_nlocalcells x s)) /\
  (forall s x, I s -> I (with_nghostcells x s)) /\
  (forall s x, I s -> I (with_cells x s)) /\
  (forall s x, I s -> I (with_global_to_local x s)) /\
  (forall s x, I s -> I (with_exchange_vec x s)) /\
  (forall s x, I s -> I (with_neighbor_idx x s)) /\
  (forall s x, I s -> I (with_raised x s)).

Lemma reinit_blind I : decomposition_blind I -> preserved I (reinit E).
Proof.
  intros (Hl & Hg & Hc & Hm & He & Hn & Hr).
  assert (Hsr : forall s k l, I s -> I (set_recv k l s)) by (intros; apply He; auto).
  assert (Hss : forall s k l, I s -> I (set_send k l s)) by (intros; apply He; auto).
  unfold reinit, ghost_loop, finalize_desc, local_cell_step, ghost_step.
  repeat frame_step; auto.
Qed.

Lemma geometry_blind g : decomposition_blind (fun s => geometry s = g).
Proof. repeat split; intros s x H; exact H. Qed.

Lemma reinit_geometry s : geometry (reinit E s).2 = geometry s.
Proof. apply (reinit_blind _ (geometry_blind (geometry s))). reflexivity. Qed.

Lemma init_octagons_gridpoint peers v :
  preserved (fun s => gridpoint s = v) (init_octagons E peers).
Proof. unfold init_octagons. repeat frame_step; auto. Qed.

Lemma init_neighbors_gridpoint v :
  preserved (fun s => gridpoint s = v) (init_neighbors E).
Proof. unfold init_neighbors. repeat preserved_step. auto. Qed.

End Frames.

(* ===================================================================== *)
(** ** The initial grid point *)
(* ===================================================================== *)

Section InitialGridpoint.

Context (E : Env).

Lemma init_partitioning_gridpoint peers s :
  gridpoint (init_partitioning E peers s).2 =
  mkVec3 (init_gridpoint_axis E ax0) (init_gridpoint_axis E ax1)
         (init_gridpoint_axis E ax2).
Proof.
  unfold init_partitioning, init_gridpoint_axis.
  set (rest := bind (init_neighbors E) (fun _ => init_octagons E peers)).
  assert (Hrest : forall v, preserved (fun s => gridpoint s = v) rest).
  { intros v. unfold rest. apply preserved_bind.
    - apply init_neighbors_gridpoint.
    - intros _. apply init_octagons_gridpoint. }
  rewrite (bind_eq_ok _ _ s tt (with_is_regular_grid true s)) by reflexivity.
  match goal with
  | |- context [for_each axes ?body] =>
      assert (Hloop : exists s1, for_each axes body (with_is_regular_grid true s) = (Ok tt, s1)
                /\ gridpoint s1 =
                   mkVec3 (init_gridpoint_axis E ax0) (init_gridpoint_axis E ax1)
                          (init_gridpoint_axis E ax2))
  end.
  { unfold init_gridpoint_axis. cbn [for_each axes]. unfold bind, modify, ret.
    repeat match goal with
           | |- context [PrimFloat.ltb ?a ?b] => destruct (PrimFloat.ltb a b)
           end; eexists; split; reflexivity. }
  destruct Hloop as (s1 & Hrun & Hgp).
  rewrite (bind_eq_ok _ _ _ tt s1 Hrun).
  pose proof (Hrest _ s1 Hgp) as H. exact H.
Qed.

End InitialGridpoint.

(** What the tie-break takes off the corner of the process's box on axis [d]. *)
Definition bias (E : Env) (peers : Z -> Vec3d) (d : axis) : double :=
  (vget (my_right E) d - vget (gridpoint (construct E peers).2) d)%float.

(** [x] is within a factor of ten of [y]. *)
Definition on_the_order_of (x y : double) : bool :=
  ((y / 10 <=? x) && (x <=? 10 * y))%float.

(** Two processes along the first axis of a box of 2000 x 1000 x 1000 with
    cells of edge 1000. *)
Definition env_wide_cells (rank : Z) : Env :=
  Regular.env false (mkVec3 2000 1000 1000)%float (mkVec3 2 1 1) (mkVec3 2 1 1)
              (fun _ => 0%float) rank.

(** C6, as stated, fails: on the interior axis of rank 0 the corner is lowered
    by about 1e-6, a thousandth of [1e-6 * cell_size] for cells of edge 1000;
    the bias is not of the order of [1e-6 * cell_size]. *)
Lemma bias_is_not_relative_to_cell_size :
  (vget (my_right (env_wide_cells 0)) ax0 <? vget (box_l (env_wide_cells 0)) ax0)%float = true /\
  vget (cell_size (env_wide_cells 0)) ax0 = 1000%float /\
  on_the_order_of (bias (env_wide_cells 0) (fun _ => vzero) ax0)
                  (lit_1e_6 * vget (cell_size (env_wide_cells 0)) ax0)%float = false.
Proof. repeat split; vm_compute; reflexivity. Qed.

(** C6, amended: after construction the grid point of every rank is, on every
    axis [d], the upper corner [my_right[d]] of the rank's box lowered by the
    constant [1e-6] (whatever the cell size) exactly when
    [my_right[d] < box_l[d]], and [my_right[d]] itself on the axes where the
    corner lies on the upper boundary of the box. *)
Theorem construct_gridpoint (E : Env) (peers : Z -> Vec3d) (d : axis) :
  vget (gridpoint (construct E peers).2) d =
  if (vget (my_right E) d <? vget (box_l E) d)%float
  then (vget (my_right E) d - lit_1e_6)%float
  else vget (my_right E) d.
Proof.
  unfold construct.
  assert (H : gridpoint ((init_partitioning E peers ;;; reinit E)%meth fresh).2
              = gridpoint (init_partitioning E peers fresh).2).
  { unfold bind. destruct (init_partitioning E peers fresh) as [[[]|e] s1] eqn:H1.
    - simpl. pose proof (reinit_geometry E s1) as Hg.
      unfold geometry in Hg. congruence.
    - reflexivity. }
  rewrite H, init_partitioning_gridpoint.
  destruct d; reflexivity.
Qed.

(* ===================================================================== *)
(** ** The neighbourhood *)
(* ===================================================================== *)

Lemma fold_left_prefix_ind {A B} (f : A -> B -> A) (P : list B -> A -> Prop)
    (l : list B) (a0 : A) :
  P [] a0 ->
  (forall seen x a, P seen a -> P (seen ++ [x]) (f a x)) ->
  P l (fold_left f l a0).
Proof.
  intros H0 Hstep.
  assert (G : forall rest seen a, P seen a -> P (seen ++ rest) (fold_left f rest a)).
  { induction rest as [|x rest IH]; intros seen a Ha; simpl.
    - rewrite app_nil_r. exact Ha.
    - replace (seen ++ x :: rest) with ((seen ++ [x]) ++ rest)
        by (rewrite <- app_assoc; reflexivity).
      apply IH, Hstep, Ha. }
  apply (G l [] a0 H0).
Qed.

Lemma elem_of_offsets (l : list Z) (o : Vec3i) :
  o ∈ offsets l <-> c0 o ∈ l /\ c1 o ∈ l /\ c2 o ∈ l.
Proof.
  unfold offsets. rewrite !list_elem_of_In, in_flat_map. split.
  - intros (x0 & H0 & H). apply in_flat_map in H as (x1 & H1 & H).
    apply in_map_iff in H as (x2 & <- & H2). simpl. auto.
  - intros (H0 & H1 & H2).
    exists (c0 o). split; [exact H0|]. apply in_flat_map.
    exists (c1 o). split; [exact H1|]. apply in_map_iff.
    exists (c2 o). split; [destruct o; reflexivity | exact H2].
Qed.

Lemma push_back_unique_elem (v : list Z) (el r : Z) :
  r ∈ push_back_unique v el <-> r ∈ v \/ r = el.
Proof.
  unfold push_back_unique. destruct (decide (el ∈ v)) as [Hin|Hnin].
  - split; [auto|]. intros [H| ->]; auto.
  - rewrite elem_of_app, list_elem_of_singleton. reflexivity.
Qed.

Lemma push_back_unique_NoDup (v : list Z) (el : Z) :
  NoDup v -> NoDup (push_back_unique v el).
Proof.
  intros H. unfold push_back_unique. destruct (decide (el ∈ v)) as [Hin|Hnin]; [exact H|].
  apply NoDup_app. split; [exact H|]. split.
  - intros x Hx Hx'. apply list_elem_of_singleton in Hx'. subst. contradiction.
  - apply NoDup_singleton.
Qed.

Section Neighbourhood.

Context (E : Env).

(** What the loop of [init_neighbors] has established after the offsets [seen]. *)
Record neigh_inv (seen : list Vec3i) (a : NeighLoop) : Prop := {
  ni_source_nodup : NoDup (nl_source a);
  ni_dest_nodup : NoDup (nl_dest a);
  ni_ranks_nodup : NoDup (nl_ranks a);
  ni_source : forall r, r ∈ nl_source a <->
      r <> this_node E /\ exists off, off ∈ seen /\ all_ge0 off = true /\ r = neigh_rank E off;
  ni_dest : forall r, r ∈ nl_dest a <->
      r <> this_node E /\ exists off, off ∈ seen /\ all_le0 off = true /\ r = neigh_rank E off;
  ni_ranks : forall r, r ∈ nl_ranks a <->
      r <> this_node E /\ exists off, off ∈ seen /\ r = neigh_rank E off;
  ni_nneigh : nl_nneigh a = Z.of_nat (length (nl_ranks a));
  ni_idx : forall r k, nl_idx a !! r = Some k <->
      exists i, nl_ranks a !! i = Some r /\ k = Z.of_nat i
}.

Lemma neigh_inv_init : neigh_inv [] (mkNeighLoop [] ∅ 0 [] []).
Proof.
  split; simpl; try apply NoDup_nil_2; try reflexivity.
  - intros r. split; [intros H; inversion H|].
    intros (_ & off & H & _). inversion H.
  - intros r. split; [intros H; inversion H|].
    intros (_ & off & H & _). inversion H.
  - intros r. split; [intros H; inversion H|].
    intros (_ & off & H & _). inversion H.
  - intros r k. rewrite lookup_empty. split; [discriminate|].
    intros (i & H & _). rewrite lookup_nil in H. discriminate.
Qed.

Lemma neigh_inv_step seen off a :
  neigh_inv seen a -> neigh_inv (seen ++ [off]) (neigh_step E a off).
Proof.
  intros [Hsn Hdn Hrn Hs Hd Hr Hn Hi]. unfold neigh_step.
  destruct (neigh_rank E off =? this_node E) eqn:Hself.
  - apply Z.eqb_eq in Hself.
    split; auto; intros r; rewrite ?Hs, ?Hd, ?Hr; split;
      intros (Hne & o & Ho & H); (split; [exact Hne|]); exists o;
      rewrite elem_of_app, list_elem_of_singleton in *;
      intuition (subst; congruence).
  - apply Z.eqb_neq in Hself. set (r0 := neigh_rank E off) in *.
    (* the registration of r0 in neighbor_ranks and neighbor_idx *)
    set (a1 := match nl_idx a !! r0 with
               | Some _ => a
               | None => mkNeighLoop (nl_ranks a ++ [r0]) (<[r0:=nl_nneigh a]> (nl_idx a))
                           (nl_nneigh a + 1) (nl_source a) (nl_dest a)
               end).
    assert (Hsrc1 : nl_source a1 = nl_source a) by (unfold a1; destruct (_ !! _); reflexivity).
    assert (Hdst1 : nl_dest a1 = nl_dest a) by (unfold a1; destruct (_ !! _); reflexivity).
    assert (Hr1 : forall r, r ∈ nl_ranks a1 <-> r ∈ nl_ranks a \/ r = r0).
    { intros r. unfold a1. destruct (nl_idx a !! r0) as [k|] eqn:Hk; simpl.
      - split; [auto|]. intros [H| ->]; [exact H|].
        apply Hi in Hk as (i & Hk & _). apply list_elem_of_lookup. eauto.
      - rewrite elem_of_app, list_elem_of_singleton. reflexivity. }
    assert (Hnotin : nl_idx a !! r0 = None -> r0 ∉ nl_ranks a).
    { intros Hk Hin. apply list_elem_of_lookup in Hin as (i & Hin).
      assert (nl_idx a !! r0 = Some (Z.of_nat i)) by (apply Hi; eauto). congruence. }
    split; simpl; rewrite ?Hsrc1, ?Hdst1.
    + destruct (all_ge0 off); auto using push_back_unique_NoDup.
    + destruct (all_le0 off); auto using push_back_unique_NoDup.
    + unfold a1. destruct (nl_idx a !! r0) eqn:Hk; simpl; [exact Hrn|].
      apply NoDup_app. split; [exact Hrn|]. split; [|apply NoDup_singleton].
      intros x Hx Hx'. apply list_elem_of_singleton in Hx'. subst x.
      exact (Hnotin eq_refl Hx).
    + intros r. destruct (all_ge0 off) eqn:Hge.
      * rewrite push_back_unique_elem, Hs. split.
        -- intros [(Hne & o & Ho & H)| ->].
           ++ split; [exact Hne|]. exists o. rewrite elem_of_app. auto.
           ++ split; [exact Hself|]. exists off.
              rewrite elem_of_app, list_elem_of_singleton. auto.
        -- intros (Hne & o & Ho & Hgo & ->).
           rewrite elem_of_app, list_elem_of_singleton in Ho.
           destruct Ho as [Ho| ->]; [left|right; reflexivity].
           split; [exact Hne|]. eauto.
      * rewrite Hs. split; intros (Hne & o & Ho & Hgo & ->); (split; [exact Hne|]).
        -- exists o. rewrite elem_of_app. auto.
        -- rewrite elem_of_app, list_elem_of_singleton in Ho.
           destruct Ho as [Ho| ->]; [eauto|congruence].
    + intros r. destruct (all_le0 off) eqn:Hle.
      * rewrite push_back_unique_elem, Hd. split.
        -- intros [(Hne & o & Ho & H)| ->].
           ++ split; [exact Hne|]. exists o. rewrite elem_of_app. auto.
           ++ split; [exact Hself|]. exists off.
              rewrite elem_of_app, list_elem_of_singleton. auto.
        -- intros (Hne & o & Ho & Hgo & ->).
           rewrite elem_of_app, list_elem_of_singleton in Ho.
           destruct Ho as [Ho| ->]; [left|right; reflexivity].
           split; [exact Hne|]. eauto.
      * rewrite Hd. split; intros (Hne & o & Ho & Hgo & ->); (split; [exact Hne|]).
        -- exists o. rewrite elem_of_app. auto.
        -- rewrite elem_of_app, list_elem_of_singleton in Ho.
           destruct Ho as [Ho| ->]; [eauto|congruence].
    + intros r. rewrite Hr1, Hr. split.
      * intros [(Hne & o & Ho & ->)| ->].
        -- split; [exact Hne|]. exists o. rewrite elem_of_app. auto.
        -- split; [exact Hself|]. exists off.
           rewrite elem_of_app, list_elem_of_singleton. auto.
      * intros (Hne & o & Ho & ->).
        rewrite elem_of_app, list_elem_of_singleton in Ho.
        destruct Ho as [Ho| ->]; [left|right; reflexivity].
        split; [exact Hne|]. eauto.
    + unfold a1. destruct (nl_idx a !! r0); simpl; [exact Hn|].
      rewrite length_app. simpl. lia.
    + intros r k. unfold a1. destruct (nl_idx a !! r0) as [k0|] eqn:Hk; simpl; [apply Hi|].
      destruct (decide (r = r0)) as [->|Hne].
      * rewrite lookup_insert_eq. split.
        -- intros [= <-]. exists (length (nl_ranks a)).
           rewrite lookup_app_r, Nat.sub_diag by lia. split; [reflexivity|exact Hn].
        -- intros (i & Hlk & ->).
           destruct (decide (i < length (nl_ranks a))%nat) as [Hlt|Hge].
           ++ rewrite lookup_app_l in Hlk by exact Hlt.
              exfalso. apply (Hnotin eq_refl). apply list_elem_of_lookup. eauto.
           ++ rewrite lookup_app_r in Hlk by lia.
              destruct (i - length (nl_ranks a))%nat as [|n] eqn:Hd'; [|destruct n; discriminate].
              f_equal. lia.
      * rewrite lookup_insert_ne by congruence. rewrite Hi. split.
        -- intros (i & Hlk & ->). exists i. split; [|reflexivity].
           rewrite lookup_app_l; [exact Hlk|]. eapply lookup_lt_Some; eauto.
        -- intros (i & Hlk & ->). exists i. split; [|reflexivity].
           destruct (decide (i < length (nl_ranks a))%nat) as [Hlt|Hge].
           ++ rewrite lookup_app_l in Hlk by exact Hlt. exact Hlk.
           ++ rewrite lookup_app_r in Hlk by lia.
              destruct (i - length (nl_ranks a))%nat as [|n]; simpl in Hlk;
                [congruence|destruct n; discriminate].
Qed.

Lemma neigh_loop_inv : neigh_inv (offsets [-1; 0; 1]) (neigh_loop E).
Proof.
  unfold neigh_loop. apply fold_left_prefix_ind.
  - apply neigh_inv_init.
  - intros seen x a. apply neigh_inv_step.
Qed.

End Neighbourhood.

(** The offsets of one sign among the 27 of the loop. *)
Lemma offsets_ge0 (o : Vec3i) :
  o ∈ offsets [-1; 0; 1] /\ all_ge0 o = true <-> o ∈ offsets [0; 1].
Proof.
  rewrite !elem_of_offsets. unfold all_ge0.
  rewrite !andb_true_iff, !Z.leb_le.
  repeat setoid_rewrite elem_of_cons. repeat setoid_rewrite elem_of_nil.
  lia.
Qed.

Lemma offsets_le0 (o : Vec3i) :
  o ∈ offsets [-1; 0; 1] /\ all_le0 o = true <-> o ∈ offsets [-1; 0].
Proof.
  rewrite !elem_of_offsets. unfold all_le0.
  rewrite !andb_true_iff, !Z.leb_le.
  repeat setoid_rewrite elem_of_cons. repeat setoid_rewrite elem_of_nil.
  lia.
Qed.

Lemma NoDup_snoc_fresh (l : list Z) (x : Z) : NoDup l -> x ∉ l -> NoDup (l ++ [x]).
Proof.
  intros Hl Hx. apply NoDup_app. split; [exact Hl|]. split; [|apply NoDup_singleton].
  intros y Hy Hy'. apply list_elem_of_singleton in Hy'. subst. contradiction.
Qed.

(** A 3 x 3 x 3 process grid; rank 13 sits at the coordinates (1, 1, 1). *)
Definition env_3x3x3 (rank : Z) : Env :=
  Regular.env false (mkVec3 9 9 9)%float (mkVec3 9 9 9) (mkVec3 3 3 3)
              (fun _ => 0%float) rank.

(** C5, as stated, fails: on rank 13 of a 3 x 3 x 3 process grid the graph has
    eight sources, not the 26 neighbours, the caller itself is one of them, and
    the destinations differ from the sources; the vector gathered over the
    graph ends with the caller's own contribution. *)
Lemma neighcomm_is_directed_with_self_edge :
  let s := (init_neighbors (env_3x3x3 13) fresh).2 in
  this_node (env_3x3x3 13) = 13 /\
  neighcomm s = Some (mkDistGraph [14; 16; 17; 22; 23; 25; 26; 13]
                                  [0; 1; 3; 4; 9; 10; 12; 13]) /\
  length (neighbor_ranks s) = 26%nat /\
  (neighbor_allgather (env_3x3x3 13) (fun q => q) (-1) s).1
    = Ok [14; 16; 17; 22; 23; 25; 26; -1] /\
  (undirected_neighbor_count s).1 = Ok 8.
Proof. vm_compute. repeat split; reflexivity. Qed.

(** C5, amended: the graph communicator [init_neighbors] creates is directed.
    The sources of a rank are the distinct ranks other than itself at the
    Cartesian offsets {0,1}^3 from it, followed by the rank itself (a
    self-edge); its destinations are those at the offsets {-1,0}^3, again
    followed by itself.  What [repartition] gathers over it has one entry per
    source, the caller's own last, and [nneigh] counts the caller. *)
Theorem init_neighbors_neighcomm (E : Env) (s : GridBasedGrid) :
  exists src dst,
    neighcomm (init_neighbors E s).2
      = Some (mkDistGraph (src ++ [this_node E]) (dst ++ [this_node E])) /\
    NoDup (src ++ [this_node E]) /\ NoDup (dst ++ [this_node E]) /\
    (forall r, r ∈ src <->
       r <> this_node E /\ exists off, off ∈ offsets [0; 1] /\ r = neigh_rank E off) /\
    (forall r, r ∈ dst <->
       r <> this_node E /\ exists off, off ∈ offsets [-1; 0] /\ r = neigh_rank E off) /\
    (forall (lambda : Z -> double) (lambda_p : double),
       neighbor_allgather E lambda lambda_p (init_neighbors E s).2
         = (Ok (map lambda src ++ [lambda_p]), (init_neighbors E s).2)) /\
    undirected_neighbor_count (init_neighbors E s).2
      = (Ok (Z.of_nat (length src) + 1), (init_neighbors E s).2).
Proof.
  destruct (neigh_loop_inv E) as [Hsn Hdn _ Hs Hd _ _ _].
  exists (nl_source (neigh_loop E)), (nl_dest (neigh_loop E)).
  assert (Hself_s : this_node E ∉ nl_source (neigh_loop E)).
  { intros H. apply Hs in H as [H _]. congruence. }
  assert (Hself_d : this_node E ∉ nl_dest (neigh_loop E)).
  { intros H. apply Hd in H as [H _]. congruence. }
  split; [reflexivity|].
  split; [apply NoDup_snoc_fresh; assumption|].
  split; [apply NoDup_snoc_fresh; assumption|].
  split; [|split; [|split]].
  - intros r. rewrite Hs. split; intros (Hne & off & H); (split; [exact Hne|]); exists off.
    + destruct H as (H1 & H2 & H3). split; [|exact H3]. apply offsets_ge0. auto.
    + destruct H as (H1 & H3). apply offsets_ge0 in H1 as [H1 H2]. auto.
  - intros r. rewrite Hd. split; intros (Hne & off & H); (split; [exact Hne|]); exists off.
    + destruct H as (H1 & H2 & H3). split; [|exact H3]. apply offsets_le0. auto.
    + destruct H as (H1 & H3). apply offsets_le0 in H1 as [H1 H2]. auto.
  - intros lambda lambda_p. unfold neighbor_allgather, bind, gets, ret. simpl.
    rewrite map_app. simpl. unfold contribution at 2. rewrite Z.eqb_refl.
    do 2 f_equal. f_equal. apply map_ext_in. intros r Hr.
    unfold contribution. destruct (r =? this_node E) eqn:Heq; [|reflexivity].
    apply Z.eqb_eq in Heq. subst r. apply list_elem_of_In in Hr. contradiction.
  - unfold undirected_neighbor_count, bind, gets, ret. simpl.
    rewrite length_app. simpl. do 2 f_equal. lia.
Qed.

(* ===================================================================== *)
(** ** The states an object goes through *)
(* ===================================================================== *)

(** A grid is constructed, and then queried and repartitioned, whatever the
    other ranks contribute and whether the calls return or throw. *)
Inductive reachable (E : Env) : GridBasedGrid -> Prop :=
  | reach_construct peers s :
      construct E peers = (Ok tt, s) -> reachable E s
  | reach_call c s :
      reachable E s -> reachable E (run_call E c s).2
  | reach_repartition a net s :
      reachable E s -> reachable E (repartition E a net s).2.

(** What holds of the members in every such state. *)
Record grid_inv (E : Env) (s : GridBasedGrid) : Prop := {
  gi_gridpoint : vec_at (gridpoints s) (this_node E) = Some (gridpoint s);
  gi_neighcomm :
    neighcomm s = Some (mkDistGraph (nl_source (neigh_loop E) ++ [this_node E])
                                    (nl_dest (neigh_loop E) ++ [this_node E]));
  gi_ranks : neighbor_ranks s = nl_ranks (neigh_loop E);
  gi_idx : forall i r, neighbor_ranks s !! i = Some r ->
                       neighbor_idx s !! r = Some (Z.of_nat i);
  gi_self : neighbor_idx s !! this_node E = None \/
            neighbor_idx s !! this_node E = Some 0;
  gi_cells : 0 <= nlocalcells s <= Z.of_nat (length (cells s))
}.

Section Invariant.

Context (E : Env).

(** The state after the five clearing statements at the head of [reinit]. *)
Definition cleared (s : GridBasedGrid) : GridBasedGrid :=
  with_exchange_vec [] (with_global_to_local ∅ (with_cells []
    (with_nghostcells 0 (with_nlocalcells 0 s)))).

Definition reinit_body : M unit :=
  (for_each (seqZ 0 (gb_ncells (gbox E))) (local_cell_step E) ;;;
   n <- gets nlocalcells ;;
   ENSURE E ensure_nlocalcells_positive (0 <? n) ;;;
   ranks <- gets neighbor_ranks ;;
   modify (with_exchange_vec (replicate (length ranks) default_desc)) ;;;
   ghost_loop E ;;;
   ng <- gets nghostcells ;;
   ENSURE E ensure_nghostcells_positive ((n_nodes E =? 1) || (0 <? ng)) ;;;
   ev <- gets exchange_vec ;;
   for_each (seq 0 (length ev)) (finalize_desc E))%meth.

Lemma reinit_unfold s : reinit E s = reinit_body (cleared s).
Proof. reflexivity. Qed.

(** The updates [reinit] makes after clearing and the queries make. *)
Record update_closed (I : GridBasedGrid -> Prop) : Prop := {
  uc_local : forall s i, I s ->
      I (with_nlocalcells (nlocalcells s + 1)
           (with_global_to_local (<[i := nlocalcells s]> (global_to_local s))
              (with_cells (cells s ++ [i]) s)));
  uc_ghost : forall s g, I s ->
      I (with_nghostcells (nghostcells s + 1)
           (with_global_to_local (<[g := nlocalcells s + nghostcells s]> (global_to_local s))
              (with_cells (cells s ++ [g]) s)));
  uc_idx : forall s k, I s -> I (with_neighbor_idx (map_subscript (neighbor_idx s) k).2 s);
  uc_g2l : forall s k, I s -> I (with_global_to_local (map_subscript (global_to_local s) k).2 s);
  uc_exchange : forall s x, I s -> I (with_exchange_vec x s);
  uc_raised : forall s x, I s -> I (with_raised x s);
  uc_mu : forall s x, I s -> I (with_mu x s)
}.

Lemma closed_neighbor_idx_subscript I k :
  update_closed I -> preserved I (neighbor_idx_subscript k).
Proof.
  intros HI s H. unfold neighbor_idx_subscript.
  pose proof (uc_idx I HI s k H) as H'.
  destruct (map_subscript (neighbor_idx s) k) as [v m']. exact H'.
Qed.

Lemma closed_global_to_local_subscript I k :
  update_closed I -> preserved I (global_to_local_subscript k).
Proof.
  intros HI s H. unfold global_to_local_subscript.
  pose proof (uc_g2l I HI s k H) as H'.
  destruct (map_subscript (global_to_local s) k) as [v m']. exact H'.
Qed.

Lemma closed_glo_to_loc I i : update_closed I -> preserved I (glo_to_loc E i).
Proof.
  intros HI. unfold glo_to_loc. destruct (GRID_DEBUG E).
  - repeat frame_step.
  - apply closed_global_to_local_subscript, HI.
Qed.

Lemma closed_transform I write seen todo :
  update_closed I -> (forall s l, I s -> I (write l s)) ->
  preserved I (transform E write seen todo).
Proof.
  intros HI Hw. revert seen. induction todo as [|x rest IH]; intros seen; simpl.
  - apply preserved_ret.
  - apply preserved_bind; [apply closed_glo_to_loc, HI|intros y].
    apply preserved_bind; [apply preserved_modify; auto|intros _]. apply IH.
Qed.

(** [frame_step] for an invariant closed under the updates. *)
Ltac closed_step HI :=
  lazymatch goal with
  | |- preserved _ (neighbor_idx_subscript _) => apply closed_neighbor_idx_subscript, HI
  | |- preserved _ (global_to_local_subscript _) => apply closed_global_to_local_subscript, HI
  | |- preserved _ (glo_to_loc _ _) => apply closed_glo_to_loc, HI
  | |- preserved _ (transform _ _ _ _) =>
      apply closed_transform; [exact HI | intros ? ? ?]
  | |- preserved _ _ => frame_step
  end.

Lemma closed_reinit_body I : update_closed I -> preserved I reinit_body.
Proof.
  intros HI.
  pose proof (uc_local I HI) as Hl. pose proof (uc_ghost I HI) as Hg.
  pose proof (uc_exchange I HI) as He. pose proof (uc_raised I HI) as Hr.
  unfold reinit_body, ghost_loop, finalize_desc, local_cell_step, ghost_step.
  repeat closed_step HI; auto.
  all: unfold set_recv, set_send; auto.
Qed.

Lemma closed_run_call I c : update_closed I -> preserved I (run_call E c).
Proof.
  intros HI. destruct c; simpl;
    unfold neighbor_rank, cell_neighbor_index, get_boundary_info,
      position_to_cell_index, position_to_neighidx, n_local_cells, command.
  all: pose proof (uc_mu I HI) as Hm; repeat closed_step HI; auto.
Qed.

Lemma closed_run_calls I cb : update_closed I -> preserved I (run_calls E cb).
Proof.
  intros HI. unfold run_calls. apply preserved_for_each. intros c.
  apply closed_run_call, HI.
Qed.

Lemma map_subscript_lookup (m : gmap Z Z) (k k' : Z) :
  (map_subscript m k).2 !! k' =
  match m !! k' with
  | Some v => Some v
  | None => if decide (k = k') then Some 0 else None
  end.
Proof.
  unfold map_subscript. destruct (m !! k) as [v|] eqn:Hk; simpl.
  - destruct (m !! k') eqn:Hk'; [reflexivity|].
    destruct (decide (k = k')); [congruence|reflexivity].
  - destruct (decide (k = k')) as [->|Hne].
    + rewrite lookup_insert_eq, Hk. reflexivity.
    + rewrite lookup_insert_ne by exact Hne. destruct (m !! k'); reflexivity.
Qed.

Lemma grid_inv_closed : update_closed (grid_inv E).
Proof.
  split.
  - intros s i [H1 H2 H3 H4 H5 H6]. split; simpl; auto.
    rewrite length_app. simpl. lia.
  - intros s g [H1 H2 H3 H4 H5 H6]. split; simpl; auto.
    rewrite length_app. simpl. lia.
  - intros s k [H1 H2 H3 H4 H5 H6]. split; simpl; auto.
    + intros i r Hi. rewrite map_subscript_lookup, (H4 i r Hi). reflexivity.
    + rewrite map_subscript_lookup.
      destruct H5 as [-> | ->]; [|auto]. destruct (decide _); auto.
  - intros s k [H1 H2 H3 H4 H5 H6]. split; simpl; auto.
  - intros s x [H1 H2 H3 H4 H5 H6]. split; simpl; auto.
  - intros s x [H1 H2 H3 H4 H5 H6]. split; simpl; auto.
  - intros s x [H1 H2 H3 H4 H5 H6]. split; simpl; auto.
Qed.

Lemma grid_inv_cleared s : grid_inv E s -> grid_inv E (cleared s).
Proof. intros [H1 H2 H3 H4 H5 H6]. split; simpl; auto. lia. Qed.

Lemma grid_inv_reinit : preserved (grid_inv E) (reinit E).
Proof.
  intros s H. rewrite reinit_unfold.
  apply closed_reinit_body; [apply grid_inv_closed|apply grid_inv_cleared, H].
Qed.

End Invariant.

Section Reachable.

Context (E : Env).

(** The rank of the caller is a rank of [comm_cart]. *)
Definition rank_ok : Prop := 0 <= this_node E < n_nodes E.

Lemma all_gather_length {A} (peers : Z -> A) own :
  length (all_gather E peers own) = Z.to_nat (n_nodes E).
Proof. unfold all_gather. rewrite length_map, length_seqZ. reflexivity. Qed.

Lemma all_gather_lookup {A} (peers : Z -> A) own q :
  0 <= q < n_nodes E ->
  vec_at (all_gather E peers own) q = Some (contribution E peers own q).
Proof.
  intros Hq. unfold vec_at, all_gather.
  destruct (q <? 0) eqn:Hneg; [apply Z.ltb_lt in Hneg; lia|].
  rewrite list_lookup_fmap, lookup_seqZ_lt by lia. simpl.
  rewrite Z2Nat.id by lia. reflexivity.
Qed.

Lemma all_gather_own {A} (peers : Z -> A) own :
  rank_ok -> vec_at (all_gather E peers own) (this_node E) = Some own.
Proof.
  intros H. rewrite all_gather_lookup by exact H.
  unfold contribution. rewrite Z.eqb_refl. reflexivity.
Qed.

(** A gathering to which the caller contributes what [peers] already holds for it. *)
Lemma all_gather_consistent {A} (peers : Z -> A) :
  all_gather E peers (peers (this_node E)) = map peers (seqZ 0 (n_nodes E)).
Proof.
  unfold all_gather. apply map_ext. intros q. unfold contribution.
  destruct (q =? this_node E) eqn:Hq; [|reflexivity].
  apply Z.eqb_eq in Hq. subst q. reflexivity.
Qed.

Lemma center_of_load_state ps s : (center_of_load E ps s).2 = s.
Proof.
  unfold center_of_load, n_local_cells, bind, gets, ret, lift_opt.
  destruct (Z.of_nat (length ps) =? 0); [|reflexivity].
  destruct (mapM _ _); reflexivity.
Qed.

Lemma bounding_box_run r s :
  bounding_box E r s =
  (match bounding_box_of E (gridpoints s) r with
   | Some bb => Ok bb
   | None => Throw bad_index
   end, s).
Proof.
  unfold bounding_box, bind, gets, lift_opt.
  destruct (bounding_box_of E (gridpoints s) r); reflexivity.
Qed.

(** The members [init_octagons] writes after the gathering. *)
Lemma grid_inv_with_my_dom x s : grid_inv E s -> grid_inv E (with_my_dom x s).
Proof. intros [H1 H2 H3 H4 H5 H6]. split; simpl; auto. Qed.

Lemma grid_inv_with_neighbor_doms x s :
  grid_inv E s -> grid_inv E (with_neighbor_doms x s).
Proof. intros [H1 H2 H3 H4 H5 H6]. split; simpl; auto. Qed.

Lemma grid_inv_with_is_regular_grid x s :
  grid_inv E s -> grid_inv E (with_is_regular_grid x s).
Proof. intros [H1 H2 H3 H4 H5 H6]. split; simpl; auto. Qed.

Lemma grid_inv_gather peers s :
  rank_ok -> grid_inv E s ->
  grid_inv E (with_gridpoints (all_gather E peers (gridpoint s)) s).
Proof.
  intros Hr [H1 H2 H3 H4 H5 H6]. split; simpl; auto.
  apply all_gather_own, Hr.
Qed.

(** [init_octagons] after the gathering. *)
Definition build_octagons : M unit :=
  (bb <- bounding_box E (this_node E) ;;
   modify (with_my_dom bb) ;;;
   modify (with_neighbor_doms []) ;;;
   ranks <- gets neighbor_ranks ;;
   for_each ranks (fun r =>
     bb <- bounding_box E r ;;
     modify (fun s => with_neighbor_doms (neighbor_doms s ++ [bb]) s)))%meth.

Lemma init_octagons_unfold peers s :
  init_octagons E peers s =
  build_octagons (with_gridpoints (all_gather E peers (gridpoint s)) s).
Proof. reflexivity. Qed.

Lemma grid_inv_build_octagons : preserved (grid_inv E) build_octagons.
Proof.
  unfold build_octagons.
  repeat frame_step; auto using grid_inv_with_my_dom, grid_inv_with_neighbor_doms.
Qed.

Lemma grid_inv_init_octagons peers :
  rank_ok -> preserved (grid_inv E) (init_octagons E peers).
Proof.
  intros Hr s H. rewrite init_octagons_unfold.
  apply grid_inv_build_octagons, grid_inv_gather; assumption.
Qed.

Lemma grid_inv_run_call c : preserved (grid_inv E) (run_call E c).
Proof. apply closed_run_call, grid_inv_closed. Qed.

Lemma construct_inv peers s :
  rank_ok -> construct E peers = (Ok tt, s) -> grid_inv E s.
Proof.
  intros Hr Hrun. unfold construct in Hrun.
  apply bind_ok in Hrun as ([] & s1 & H1 & H2).
  replace s with (reinit E s1).2 by (rewrite H2; reflexivity).
  apply grid_inv_reinit.
  clear H2 s. unfold init_partitioning in H1.
  apply bind_ok in H1 as ([] & s2 & H2 & H1).
  apply bind_ok in H1 as ([] & s3 & H3 & H1).
  apply bind_ok in H1 as ([] & s4 & H4 & H1).
  replace s1 with (init_octagons E peers s4).2 by (rewrite H1; reflexivity).
  clear H1 s1. rewrite init_octagons_unfold. apply grid_inv_build_octagons.
  assert (Hc3 : cells s3 = [] /\ nlocalcells s3 = 0).
  { assert (P : preserved (fun s => cells s = [] /\ nlocalcells s = 0)
                  (for_each axes (fun d =>
                     modify (fun s => with_gridpoint (vset (gridpoint s) d (vget (my_right E) d)) s) ;;;
                     if (vget (my_right E) d <? vget (box_l E) d)%float
                     then modify (fun s => with_gridpoint
                            (vset (gridpoint s) d (vget (gridpoint s) d - lit_1e_6)%float) s)
                     else ret tt)%meth)).
    { repeat frame_step; auto. }
    specialize (P s2). rewrite H3 in P. apply P.
    injection H2 as <-. split; reflexivity. }
  injection H4 as <-.
  destruct Hc3 as [Hc Hn].
  destruct (neigh_loop_inv E) as [_ _ _ _ _ Hr' _ Hi'].
  split; simpl; auto.
  - apply all_gather_own, Hr.
  - intros i r Hlk. apply Hi'. eauto.
  - left.
    destruct (nl_idx (neigh_loop E) !! this_node E) as [k|] eqn:Hk; [|reflexivity].
    apply Hi' in Hk as (i & Hlk & _).
    assert (Hin : this_node E ∈ nl_ranks (neigh_loop E))
      by (apply list_elem_of_lookup; eauto).
    apply Hr' in Hin as [Hne _]. congruence.
  - rewrite Hc, Hn. simpl. lia.
Qed.

End Reachable.

(* ===================================================================== *)
(** ** repartition, step by step *)
(* ===================================================================== *)

Section RepartitionSteps.

Context (E : Env).

(** The candidate corner [new_c] of a rank whose centre of load is [r_p]
    and whose graph communicator is [g]. *)
Definition candidate (a : RepartArgs) (net : Net) (s : GridBasedGrid)
    (g : DistGraph) (r_p : Vec3d) : Vec3d :=
  new_corner E (mu s)
    (forces (Z.of_nat (length (sources g))) (gridpoint s)
       (map (contribution E (net_lambda net) (accumulate (ra_weights a))) (sources g))
       (map (contribution E (net_r net) r_p) (sources g)))
    (gridpoint s).

(** The state at the validity check: the corner is moved, the corners are
    gathered and the size of [gridpoints] has been checked. *)
Definition moved (net : Net) (new_c : Vec3d) (s : GridBasedGrid) : GridBasedGrid :=
  (ENSURE E ensure_gridpoints_size
     (Z.of_nat (length (all_gather E (net_gridpoint net) new_c)) =? n_nodes E)
     (with_gridpoints (all_gather E (net_gridpoint net) new_c)
        (with_gridpoint new_c s))).2.

(** The conflicts all ranks report, given the corners [bb] of the caller. *)
Definition nconflicts (net : Net) (bb : list Vec3d) : Z :=
  allreduce_sum E (net_nconflicts net) (count_conflicts (conflict_radius E) bb).

(** The two ways out of [repartition]. *)
Definition reject (old_gridpoints : list Vec3d) : M bool :=
  (ENSURE E ensure_0 false ;;;
   modify (with_gridpoints old_gridpoints) ;;;
   g <- lift_opt (vec_at old_gridpoints (this_node E)) ;;
   modify (with_gridpoint g) ;;;
   ret false)%meth.

Definition accept (a : RepartArgs) (net : Net) : M bool :=
  (modify (with_is_regular_grid false) ;;;
   init_octagons E (net_gridpoint_octagons net) ;;;
   run_calls E (ra_callback a) ;;;
   reinit E ;;;
   ret true)%meth.

Lemma ENSURE_run site cond s :
  ENSURE E site cond s = (Ok tt, (ENSURE E site cond s).2).
Proof. unfold ENSURE. destruct (GRID_DEBUG E); [destruct cond|]; reflexivity. Qed.

Lemma repartition_unfold a net s g r_p :
  neighcomm s = Some g ->
  center_of_load E (ra_particles a) s = (Ok r_p, s) ->
  repartition E a net s =
  let s1 := moved net (candidate a net s g r_p) s in
  match bounding_box_of E (gridpoints s1) (this_node E) with
  | None => (Throw bad_index, s1)
  | Some bb =>
      if 0 <? nconflicts net bb then reject (gridpoints s) s1 else accept a net s1
  end.
Proof.
  intros Hn Hc. unfold repartition, undirected_neighbor_count, neighbor_allgather.
  unfold bind at 1. unfold bind at 1. unfold gets at 1. rewrite Hn.
  unfold ret at 1. unfold bind at 1. rewrite Hc.
  unfold bind at 1. unfold bind at 1. unfold gets at 1. rewrite Hn. unfold ret at 1.
  unfold bind at 1. unfold bind at 1. unfold gets at 1. rewrite Hn. unfold ret at 1.
  unfold bind at 1. unfold gets at 1. unfold bind at 1. unfold gets at 1.
  unfold bind at 1. unfold modify at 1.
  unfold bind at 1. unfold gets at 1.
  unfold bind at 1. unfold modify at 1.
  unfold bind at 1. unfold gets at 1.
  unfold bind at 1. rewrite ENSURE_run.
  unfold bind at 1. rewrite bounding_box_run.
  fold (candidate a net s g r_p).
  cbn [gridpoints with_gridpoints with_gridpoint gridpoint mu].
  fold (moved net (candidate a net s g r_p) s).
  cbv zeta.
  destruct (bounding_box_of E (gridpoints (moved net (candidate a net s g r_p) s))
              (this_node E)) as [bb|]; [|reflexivity].
  unfold nconflicts.
  destruct (0 <? allreduce_sum E (net_nconflicts net)
                   (count_conflicts (conflict_radius E) bb)); reflexivity.
Qed.

Lemma center_of_load_ok ps s :
  0 <= nlocalcells s <= Z.of_nat (length (cells s)) ->
  exists r_p, center_of_load E ps s = (Ok r_p, s).
Proof.
  intros Hc. unfold center_of_load, n_local_cells, bind, gets, ret, lift_opt.
  destruct (Z.of_nat (length ps) =? 0); [|eauto].
  assert (H : is_Some (mapM (fun i => gb_midpoint (gbox E) <$> vec_at (cells s) i)
                          (seqZ 0 (nlocalcells s)))).
  { apply mapM_is_Some, Forall_forall. intros i Hi.
    apply elem_of_seqZ in Hi. unfold compose, vec_at.
    destruct (i <? 0) eqn:Hneg; [apply Z.ltb_lt in Hneg; lia|].
    destruct (lookup_lt_is_Some_2 (cells s) (Z.to_nat i)) as [c Hc']; [lia|].
    rewrite Hc'. simpl. eauto. }
  destruct H as [mps ->]. eauto.
Qed.

Lemma reject_run old g0 s1 :
  vec_at old (this_node E) = Some g0 ->
  reject old s1 =
  (Ok false, with_gridpoint g0 (with_gridpoints old (ENSURE E ensure_0 false s1).2)).
Proof.
  intros H. unfold reject. unfold bind at 1. rewrite ENSURE_run.
  unfold bind, modify, ret. rewrite H. reflexivity.
Qed.

Lemma grid_inv_moved net new_c s :
  rank_ok E -> grid_inv E s -> grid_inv E (moved net new_c s).
Proof.
  intros Hr [H1 H2 H3 H4 H5 H6]. unfold moved.
  apply preserved_ENSURE.
  - intros s' [H1' H2' H3' H4' H5' H6']. split; simpl; auto.
  - split; simpl; auto. apply all_gather_own, Hr.
Qed.

Lemma grid_inv_accept a net :
  rank_ok E -> preserved (grid_inv E) (accept a net).
Proof.
  intros Hr. unfold accept. repeat preserved_step.
  - apply grid_inv_with_is_regular_grid. assumption.
  - apply grid_inv_init_octagons, Hr.
  - apply closed_run_calls, grid_inv_closed.
  - apply grid_inv_reinit.
Qed.

Lemma grid_inv_repartition a net :
  rank_ok E -> preserved (grid_inv E) (repartition E a net).
Proof.
  intros Hr s Hinv.
  destruct (center_of_load_ok (ra_particles a) s (gi_cells E s Hinv)) as [r_p Hc].
  rewrite (repartition_unfold a net s _ r_p (gi_neighcomm E s Hinv) Hc). cbv zeta.
  set (s1 := moved net _ s).
  assert (H1 : grid_inv E s1) by (apply grid_inv_moved; assumption).
  destruct (bounding_box_of E (gridpoints s1) (this_node E)) as [bb|]; [|exact H1].
  destruct (0 <? nconflicts net bb).
  - rewrite (reject_run _ _ _ (gi_gridpoint E s Hinv)). simpl.
    assert (H2 : grid_inv E (ENSURE E ensure_0 false s1).2).
    { apply preserved_ENSURE; [|exact H1].
      intros s' [G1 G2 G3 G4 G5 G6]. split; simpl; auto. }
    destruct H2 as [G1 G2 G3 G4 G5 G6]. destruct Hinv as [I1 I2 I3 I4 I5 I6].
    split; simpl; auto.
  - apply grid_inv_accept; assumption.
Qed.

Theorem reachable_inv s : rank_ok E -> reachable E s -> grid_inv E s.
Proof.
  intros Hr H. induction H as [peers s Hc | c s H IH | a net s H IH].
  - eapply construct_inv; eauto.
  - apply grid_inv_run_call, IH.
  - apply grid_inv_repartition; assumption.
Qed.

End RepartitionSteps.

(* ===================================================================== *)
(** ** Two processes along the first axis *)
(* ===================================================================== *)

(** A box of edge 4 with 4 x 2 x 2 cells on a 2 x 1 x 1 process grid, built
    with [GRID_DEBUG]. *)
Definition env_two_ranks (rank : Z) : Env :=
  Regular.env true (mkVec3 4 4 4)%float (mkVec3 4 2 2) (mkVec3 2 1 1)
              (fun _ => 0%float) rank.

(** The corner a rank contributes to the first gathering. *)
Definition initial_corner (E : Env) : Vec3d :=
  mkVec3 (init_gridpoint_axis E ax0) (init_gridpoint_axis E ax1)
         (init_gridpoint_axis E ax2).

Definition two_ranks_corners (q : Z) : Vec3d := initial_corner (env_two_ranks q).

Definition two_ranks_grid (rank : Z) : GridBasedGrid :=
  (construct (env_two_ranks rank) two_ranks_corners).2.

Lemma two_ranks_reachable_0 : reachable (env_two_ranks 0) (two_ranks_grid 0).
Proof.
  apply reach_construct with (peers := two_ranks_corners).
  vm_compute. reflexivity.
Defined.

Lemma two_ranks_reachable_1 : reachable (env_two_ranks 1) (two_ranks_grid 1).
Proof.
  apply reach_construct with (peers := two_ranks_corners).
  vm_compute. reflexivity.
Defined.

Lemma two_ranks_rank_ok_0 : rank_ok (env_two_ranks 0).
Proof. unfold rank_ok. simpl. lia. Defined.

Lemma two_ranks_rank_ok_1 : rank_ok (env_two_ranks 1).
Proof. unfold rank_ok. simpl. lia. Defined.

(* ===================================================================== *)
(** ** The pinned axes of repartition *)
(* ===================================================================== *)

Section Pinned.

Context (E : Env).

Lemma shift_axis_pinned m f gp d :
  vget (cart_coords E) d = vget (cart_dims E) d - 1 ->
  shift_axis E m f gp d = vget gp d.
Proof. intros H. unfold shift_axis. rewrite H, Z.eqb_refl. reflexivity. Qed.

Lemma new_corner_pinned m f gp d :
  vget (cart_coords E) d = vget (cart_dims E) d - 1 ->
  vget (new_corner E m f gp) d = vget gp d.
Proof.
  intros H. unfold new_corner.
  destruct d; simpl; rewrite shift_axis_pinned by exact H; reflexivity.
Qed.

Lemma gridpoint_closed v : update_closed (fun s => gridpoint s = v).
Proof. split; intros; assumption. Qed.

Lemma accept_gridpoint a net v :
  preserved (fun s => gridpoint s = v) (accept E a net).
Proof.
  unfold accept. repeat preserved_step; auto.
  - apply init_octagons_gridpoint.
  - apply closed_run_calls, gridpoint_closed.
  - intros s H. rewrite reinit_unfold.
    apply closed_reinit_body; [apply gridpoint_closed|exact H].
Qed.

Lemma moved_gridpoint net new_c s : gridpoint (moved E net new_c s) = new_c.
Proof.
  unfold moved, ENSURE.
  destruct (GRID_DEBUG E); [destruct (_ =? _)|]; reflexivity.
Qed.

End Pinned.

(** C3: on every axis [d] on which the calling rank is the last of the
    process grid ([coords[d] == dims[d] - 1]) the candidate corner of
    [repartition] equals the old corner, and the rank's grid point has the
    same coordinate after the call as before it, whether the call accepts the
    new partition, rejects it or throws. *)
Theorem repartition_pins_upper_boundary (E : Env) (a : RepartArgs) (net : Net)
    (s : GridBasedGrid) (d : axis) :
  rank_ok E -> reachable E s ->
  vget (cart_coords E) d = vget (cart_dims E) d - 1 ->
  (forall g r_p, vget (candidate E a net s g r_p) d = vget (gridpoint s) d) /\
  vget (gridpoint (repartition E a net s).2) d = vget (gridpoint s) d.
Proof.
  intros Hr Hreach Hpin.
  pose proof (reachable_inv E s Hr Hreach) as Hinv.
  split.
  - intros g r_p. apply new_corner_pinned, Hpin.
  - destruct (center_of_load_ok E (ra_particles a) s (gi_cells E s Hinv)) as [r_p Hc].
    rewrite (repartition_unfold E a net s _ r_p (gi_neighcomm E s Hinv) Hc). cbv zeta.
    set (new_c := candidate E a net s _ r_p).
    assert (Hnew : vget new_c d = vget (gridpoint s) d)
      by (apply new_corner_pinned, Hpin).
    pose proof (moved_gridpoint E net new_c s) as Hm.
    destruct (bounding_box_of E (gridpoints (moved E net new_c s)) (this_node E)) as [bb|].
    + destruct (0 <? nconflicts E net bb).
      * rewrite (reject_run E _ _ _ (gi_gridpoint E s Hinv)). reflexivity.
      * rewrite (accept_gridpoint E a net new_c _ Hm). exact Hnew.
    + simpl. rewrite Hm. exact Hnew.
Qed.

(** A call on rank 1 of two, the last rank along the first axis, with an
    empty load and peers that report nothing. *)
Definition idle_args : RepartArgs := mkRepartArgs [] [] [].
Definition idle_net : Net :=
  mkNet (fun _ => 0%float) (fun _ => vzero) two_ranks_corners (fun _ => 0)
        two_ranks_corners.

Lemma repartition_pins_upper_boundary_witness :
  (forall g r_p,
     vget (candidate (env_two_ranks 1) idle_args idle_net (two_ranks_grid 1) g r_p) ax0
     = vget (gridpoint (two_ranks_grid 1)) ax0) /\
  vget (gridpoint (repartition (env_two_ranks 1) idle_args idle_net (two_ranks_grid 1)).2) ax0
  = vget (gridpoint (two_ranks_grid 1)) ax0.
Proof.
  apply (repartition_pins_upper_boundary (env_two_ranks 1) idle_args idle_net
           (two_ranks_grid 1) ax0 two_ranks_rank_ok_1 two_ranks_reachable_1).
  reflexivity.
Defined.

(* ===================================================================== *)
(** ** position_to_neighidx on a position of the caller *)
(* ===================================================================== *)

Lemma init_neighbors_self_absent (E : Env) (s : GridBasedGrid) :
  neighbor_idx (init_neighbors E s).2 !! this_node E = None.
Proof.
  destruct (neigh_loop_inv E) as [_ _ _ _ _ Hr _ Hi]. simpl.
  destruct (nl_idx (neigh_loop E) !! this_node E) as [k|] eqn:Hk; [|reflexivity].
  apply Hi in Hk as (i & Hlk & _).
  assert (Hin : this_node E ∈ nl_ranks (neigh_loop E))
    by (apply list_elem_of_lookup; eauto).
  apply Hr in Hin as [Hne _]. congruence.
Qed.

Lemma position_to_neighidx_run (E : Env) (pos : Vec3d) (s : GridBasedGrid) (r : Z) :
  (position_to_rank E pos s).1 = Ok r ->
  position_to_neighidx E pos s =
  (Ok (map_subscript (neighbor_idx s) r).1,
   with_neighbor_idx (map_subscript (neighbor_idx s) r).2 s).
Proof.
  intros H. unfold position_to_neighidx, bind.
  unfold position_to_rank in *. simpl in H. rewrite H.
  unfold neighbor_idx_subscript. destruct (map_subscript _ _). reflexivity.
Qed.

(** C10: in every state of a grid, for a position [pos] that
    [position_to_rank] resolves to the calling rank, [position_to_neighidx]
    returns 0 and does not throw.  The calling rank is no key of
    [neighbor_idx] when [init_neighbors] has built it, and is at most mapped
    to 0 later; the subscript inserts it with the value 0, which is also the
    index of the first neighbour rank, so that a position of that neighbour
    gets the same answer. *)
Theorem position_to_neighidx_of_own_position (E : Env) (s : GridBasedGrid)
    (pos : Vec3d) :
  rank_ok E -> reachable E s ->
  (position_to_rank E pos s).1 = Ok (this_node E) ->
  (position_to_neighidx E pos s).1 = Ok 0 /\
  (forall s0, neighbor_idx (init_neighbors E s0).2 !! this_node E = None) /\
  (neighbor_idx s !! this_node E = None \/ neighbor_idx s !! this_node E = Some 0) /\
  neighbor_idx (position_to_neighidx E pos s).2 !! this_node E = Some 0 /\
  (forall r pos', neighbor_ranks s !! 0%nat = Some r ->
     (position_to_rank E pos' s).1 = Ok r ->
     (position_to_neighidx E pos' s).1 = Ok 0).
Proof.
  intros Hr Hreach Hpos.
  pose proof (reachable_inv E s Hr Hreach) as Hinv.
  pose proof (gi_self E s Hinv) as Hself.
  split; [|split; [|split; [|split]]].
  - rewrite (position_to_neighidx_run E pos s _ Hpos). cbn [fst].
    unfold map_subscript. destruct Hself as [-> | ->]; reflexivity.
  - intros s0. apply init_neighbors_self_absent.
  - exact Hself.
  - rewrite (position_to_neighidx_run E pos s _ Hpos). cbn [snd neighbor_idx with_neighbor_idx].
    rewrite map_subscript_lookup.
    destruct Hself as [-> | ->]; [|reflexivity].
    destruct (decide _); [reflexivity|congruence].
  - intros r pos' Hfirst Hpos'.
    rewrite (position_to_neighidx_run E pos' s _ Hpos'). cbn [fst].
    unfold map_subscript. rewrite (gi_idx E s Hinv 0%nat r Hfirst). reflexivity.
Qed.

(** Rank 0 of two asks for the centre of its first cell. *)
Lemma position_to_neighidx_of_own_position_witness :
  let E := env_two_ranks 0 in
  let s := two_ranks_grid 0 in
  let pos := (mkVec3 0.5 0.5 0.5)%float in
  (position_to_neighidx E pos s).1 = Ok 0 /\
  (forall s0, neighbor_idx (init_neighbors E s0).2 !! this_node E = None) /\
  (neighbor_idx s !! this_node E = None \/ neighbor_idx s !! this_node E = Some 0) /\
  neighbor_idx (position_to_neighidx E pos s).2 !! this_node E = Some 0 /\
  (forall r pos', neighbor_ranks s !! 0%nat = Some r ->
     (position_to_rank E pos' s).1 = Ok r ->
     (position_to_neighidx E pos' s).1 = Ok 0).
Proof.
  apply (position_to_neighidx_of_own_position (env_two_ranks 0) (two_ranks_grid 0)
           ((mkVec3 0.5 0.5 0.5)%float) two_ranks_rank_ok_0 two_ranks_reachable_0).
  vm_compute. reflexivity.
Defined.

(* ===================================================================== *)
(** ** command *)
(* ===================================================================== *)

(** The pattern as the specification writes it, every dot of the number
    escaped; kept apart from [mure_pattern], which is the one of the code. *)
Definition spec_mure_pattern : string := "\s*mu\s*=\s*(\d+\.|\.\d+|\d+\.\d+)".

Definition spec_mure : regex :=
  match parse_regex spec_mure_pattern with Some r => r | None => Eps end.

Lemma mure_parsed :
  parse_regex mure_pattern =
  Some (Seq (Seq (Seq (Seq (Seq (Seq (Seq Eps (Star Space)) (Chr "m")) (Chr "u"))
                      (Star Space)) (Chr "=")) (Star Space))
            (Group (Alt (Seq (Seq Eps (Plus Digit)) (Chr "."))
                   (Alt (Seq (Seq Eps (Chr ".")) (Plus Digit))
                        (Seq (Seq (Seq Eps (Plus Digit)) AnyChar) (Plus Digit)))))).
Proof. reflexivity. Qed.

Lemma spec_mure_parsed :
  parse_regex spec_mure_pattern =
  Some (Seq (Seq (Seq (Seq (Seq (Seq (Seq Eps (Star Space)) (Chr "m")) (Chr "u"))
                      (Star Space)) (Chr "=")) (Star Space))
            (Group (Alt (Seq (Seq Eps (Plus Digit)) (Chr "."))
                   (Alt (Seq (Seq Eps (Chr ".")) (Plus Digit))
                        (Seq (Seq (Seq Eps (Plus Digit)) (Chr ".")) (Plus Digit)))))).
Proof. reflexivity. Qed.

(** The scenario of the specification: [command("mu = 0.5")] hands "0.5" to
    [strtod]. *)
Example command_mu_0_5 (E : Env) (s : GridBasedGrid) :
  command E "mu = 0.5" s = (Ok tt, with_mu (strtod E "0.5") s).
Proof. reflexivity. Qed.

Example command_other (E : Env) (s : GridBasedGrid) :
  command E "mu = 5" s = (Ok tt, s) /\ command E "nu = 0.5" s = (Ok tt, s).
Proof. split; reflexivity. Qed.

(** C9 fails on the code: the third alternative of the pattern in the source
    is [\d+.\d+] with a bare dot, which stands for any character.  The
    strings "mu=1x5", "mu=1e5" and "mu = 12345" do not match the pattern of
    the specification, and [command] sets [mu] from each of them. *)
Theorem command_accepts_any_character_for_the_point (E : Env) (s : GridBasedGrid) :
  regex_match spec_mure "mu=1x5" = None /\
  command E "mu=1x5" s = (Ok tt, with_mu (strtod E "1x5") s) /\
  regex_match spec_mure "mu=1e5" = None /\
  command E "mu=1e5" s = (Ok tt, with_mu (strtod E "1e5") s) /\
  regex_match spec_mure "mu = 12345" = None /\
  command E "mu = 12345" s = (Ok tt, with_mu (strtod E "12345") s).
Proof. repeat split; reflexivity. Qed.

(* ===================================================================== *)
(** ** All ranks in one call of repartition *)
(* ===================================================================== *)

(** A rank of the job: its environment, its grid and the arguments it passes
    to [repartition]. *)
Record Process := mkProcess {
  pr_env : Env;
  pr_grid : GridBasedGrid;
  pr_args : RepartArgs
}.

(** The processes of [comm_cart] by rank. *)
Definition World := list Process.

Section Collective.

Context (w : World).

(** What rank [q] sends in the two neighbourhood gatherings. *)
Definition w_lambda (q : Z) : double :=
  match vec_at w q with
  | Some p => accumulate (ra_weights (pr_args p))
  | None => 0%float
  end.

Definition w_r (q : Z) : Vec3d :=
  match vec_at w q with
  | Some p =>
      match (center_of_load (pr_env p) (ra_particles (pr_args p)) (pr_grid p)).1 with
      | Ok r => r
      | Throw _ => vzero
      end
  | None => vzero
  end.

(** The corner rank [q] contributes to the gathering of the new corners. *)
Definition w_candidate (q : Z) : Vec3d :=
  match vec_at w q with
  | Some p =>
      match neighcomm (pr_grid p) with
      | Some g =>
          candidate (pr_env p) (pr_args p)
            (mkNet w_lambda w_r (fun _ => vzero) (fun _ => 0) (fun _ => vzero))
            (pr_grid p) g (w_r q)
      | None => gridpoint (pr_grid p)
      end
  | None => vzero
  end.

Definition w_gridpoints : list Vec3d :=
  map w_candidate (seqZ 0 (Z.of_nat (length w))).

(** The pairs of corners of the new bounding box of rank [q] that are closer
    than twice the smallest cell edge. *)
Definition w_conflicts (q : Z) : Z :=
  match vec_at w q with
  | Some p =>
      match bounding_box_of (pr_env p) w_gridpoints q with
      | Some bb => count_conflicts (conflict_radius (pr_env p)) bb
      | None => 0
      end
  | None => 0
  end.

Definition world_net : Net :=
  mkNet w_lambda w_r w_candidate w_conflicts w_candidate.

(** The count after [MPI_Allreduce] with [MPI_SUM]. *)
Definition world_conflicts : Z :=
  wrap_int (foldr Z.add 0 (map w_conflicts (seqZ 0 (Z.of_nat (length w))))).

(** The call, on every rank. *)
Definition world_repartition : list (Res bool * GridBasedGrid) :=
  map (fun p => repartition (pr_env p) (pr_args p) world_net (pr_grid p)) w.

End Collective.

(** The process grid of [E] has [n_nodes] places. *)
Definition topology_ok (E : Env) : Prop :=
  0 < c0 (cart_dims E) /\ 0 < c1 (cart_dims E) /\ 0 < c2 (cart_dims E) /\
  n_nodes E = c0 (cart_dims E) * c1 (cart_dims E) * c2 (cart_dims E).

(** Every process knows its rank and the size of the job, and its grid is in
    a state an object can be in. *)
Definition world_ok (w : World) : Prop :=
  forall q p, vec_at w q = Some p ->
    this_node (pr_env p) = q /\
    n_nodes (pr_env p) = Z.of_nat (length w) /\
    topology_ok (pr_env p) /\
    reachable (pr_env p) (pr_grid p).

Lemma vec_at_Some_range {A} (l : list A) (i : Z) (x : A) :
  vec_at l i = Some x -> 0 <= i < Z.of_nat (length l).
Proof.
  unfold vec_at. destruct (i <? 0) eqn:Hneg; [discriminate|].
  apply Z.ltb_ge in Hneg. intros H. apply lookup_lt_Some in H. lia.
Qed.

Lemma vec_at_is_Some {A} (l : list A) (i : Z) :
  0 <= i < Z.of_nat (length l) -> is_Some (vec_at l i).
Proof.
  intros H. unfold vec_at. destruct (i <? 0) eqn:Hneg; [apply Z.ltb_lt in Hneg; lia|].
  apply lookup_lt_is_Some_2. lia.
Qed.

Lemma unlinearize_range (r : Z) (grid : Vec3i) :
  0 < c0 grid -> 0 < c1 grid -> 0 < c2 grid ->
  0 <= r < c0 grid * c1 grid * c2 grid ->
  0 <= c0 (unlinearize r grid) < c0 grid /\
  0 <= c1 (unlinearize r grid) < c1 grid /\
  0 <= c2 (unlinearize r grid) < c2 grid.
Proof.
  intros H0 H1 H2 Hr. unfold unlinearize. simpl.
  assert (Hq : 0 <= Z.quot r (c2 grid)) by (apply Z.quot_pos; lia).
  assert (Hq' : Z.quot r (c2 grid) < c0 grid * c1 grid).
  { apply Z.quot_lt_upper_bound; [lia|lia|]. nia. }
  repeat split.
  - apply Z.quot_pos; lia.
  - apply Z.quot_lt_upper_bound; [lia|lia|]. nia.
  - apply Z.rem_bound_pos; lia.
  - apply Z.rem_bound_pos; lia.
  - apply Z.rem_bound_pos; lia.
  - apply Z.rem_bound_pos; lia.
Qed.

Lemma linearize_range (c grid : Vec3i) :
  0 <= c0 c < c0 grid -> 0 <= c1 c < c1 grid -> 0 <= c2 c < c2 grid ->
  0 <= linearize c grid < c0 grid * c1 grid * c2 grid.
Proof.
  intros H0 H1 H2. unfold linearize.
  assert (A : 0 <= c0 c * c1 grid + c1 c <= c0 grid * c1 grid - 1) by nia.
  split; [nia|].
  assert (B : (c0 c * c1 grid + c1 c) * c2 grid <= (c0 grid * c1 grid - 1) * c2 grid)
    by (apply Z.mul_le_mono_nonneg_r; lia).
  lia.
Qed.

Section BoundingBox.

Context (E : Env).

Lemma bb_wrap_range c off d :
  0 < vget (cart_dims E) d ->
  0 <= vget c d < vget (cart_dims E) d ->
  vget off d ∈ [0; 1] ->
  0 <= (bb_wrap E c off d).1 < vget (cart_dims E) d.
Proof.
  intros Hd Hc Ho. unfold bb_wrap.
  repeat rewrite elem_of_cons in Ho. rewrite elem_of_nil in Ho.
  destruct (vget c d - vget off d <? 0) eqn:Hneg; simpl.
  - lia.
  - apply Z.ltb_ge in Hneg. lia.
Qed.

Lemma bounding_box_of_ok (gps : list Vec3d) (r : Z) :
  topology_ok E -> 0 <= r < n_nodes E ->
  length gps = Z.to_nat (n_nodes E) ->
  is_Some (bounding_box_of E gps r).
Proof.
  intros (H0 & H1 & H2 & Hn) Hr Hlen. unfold bounding_box_of.
  apply mapM_is_Some, Forall_forall. intros off Hoff.
  apply elem_of_offsets in Hoff as (Ho0 & Ho1 & Ho2).
  unfold compose, bb_corner, MPI_Cart_coords, MPI_Cart_rank.
  destruct (unlinearize_range r (cart_dims E) H0 H1 H2) as (Hc0 & Hc1 & Hc2); [lia|].
  set (c := unlinearize r (cart_dims E)) in *.
  pose proof (bb_wrap_range c off ax0 H0 Hc0 Ho0) as W0.
  pose proof (bb_wrap_range c off ax1 H1 Hc1 Ho1) as W1.
  pose proof (bb_wrap_range c off ax2 H2 Hc2 Ho2) as W2.
  simpl in W0, W1, W2.
  match goal with
  | |- is_Some (vec_at gps ?rank ≫= _) =>
      destruct (vec_at_is_Some gps rank) as [gp Hgp]
  end.
  { pose proof (linearize_range
                  (mkVec3 (bb_wrap E c off ax0).1 (bb_wrap E c off ax1).1
                          (bb_wrap E c off ax2).1) (cart_dims E) W0 W1 W2).
    lia. }
  rewrite Hgp. simpl. eauto.
Qed.

End BoundingBox.

Section Rejection.

Lemma accept_not_false E a net s : (accept E a net s).1 <> Ok false.
Proof.
  intros H. destruct (accept E a net s) as [r s'] eqn:Hrun. simpl in H. subst r.
  unfold accept in Hrun.
  apply bind_ok in Hrun as (? & ? & _ & Hrun).
  apply bind_ok in Hrun as (? & ? & _ & Hrun).
  apply bind_ok in Hrun as (? & ? & _ & Hrun).
  apply bind_ok in Hrun as (? & ? & _ & Hrun).
  discriminate.
Qed.

Lemma moved_run E net new_c s :
  0 <= n_nodes E ->
  moved E net new_c s =
  with_gridpoints (all_gather E (net_gridpoint net) new_c) (with_gridpoint new_c s).
Proof.
  intros Hn. unfold moved, ENSURE.
  rewrite all_gather_length, Z2Nat.id, Z.eqb_refl by exact Hn.
  destruct (GRID_DEBUG E); reflexivity.
Qed.


(** What one rank of a world sees of a call. *)
Lemma world_repartition_rank (w : World) (q : Z) (p : Process) :
  world_ok w -> vec_at w q = Some p ->
  repartition (pr_env p) (pr_args p) (world_net w) (pr_grid p) =
  let s1 := with_gridpoints (w_gridpoints w) (with_gridpoint (w_candidate w q) (pr_grid p)) in
  if 0 <? world_conflicts w
  then reject (pr_env p) (gridpoints (pr_grid p)) s1
  else accept (pr_env p) (pr_args p) (world_net w) s1.
Proof.
  intros Hw Hp. destruct (Hw q p Hp) as (Hq & Hn & Ht & Hreach).
  pose proof (vec_at_Some_range _ _ _ Hp) as Hrange.
  assert (Hr : rank_ok (pr_env p)) by (unfold rank_ok; lia).
  pose proof (reachable_inv _ _ Hr Hreach) as Hinv.
  destruct (center_of_load_ok (pr_env p) (ra_particles (pr_args p)) _
              (gi_cells _ _ Hinv)) as [r_p Hc].
  rewrite (repartition_unfold _ _ _ _ _ r_p (gi_neighcomm _ _ Hinv) Hc). cbv zeta.
  assert (Hcand : candidate (pr_env p) (pr_args p) (world_net w) (pr_grid p)
                    (mkDistGraph (nl_source (neigh_loop (pr_env p)) ++ [this_node (pr_env p)])
                                 (nl_dest (neigh_loop (pr_env p)) ++ [this_node (pr_env p)]))
                    r_p = w_candidate w q).
  { unfold w_candidate, w_r. rewrite Hp, (gi_neighcomm _ _ Hinv), Hc. reflexivity. }
  rewrite Hcand. rewrite moved_run by lia.
  assert (Hgps : all_gather (pr_env p) (net_gridpoint (world_net w)) (w_candidate w q)
                 = w_gridpoints w).
  { cbn [net_gridpoint world_net]. rewrite <- Hq.
    rewrite all_gather_consistent, Hn. reflexivity. }
  rewrite Hgps. cbn [gridpoints with_gridpoints].
  destruct (bounding_box_of_ok (pr_env p) (w_gridpoints w) (this_node (pr_env p)) Ht)
    as [bb Hbb]; [lia| |].
  { unfold w_gridpoints. rewrite length_map, length_seqZ, Hn. reflexivity. }
  rewrite Hbb.
  assert (Htotal : nconflicts (pr_env p) (world_net w) bb = world_conflicts w).
  { unfold nconflicts, allreduce_sum, world_conflicts. cbn [net_nconflicts world_net].
    assert (Hown : count_conflicts (conflict_radius (pr_env p)) bb
                   = w_conflicts w (this_node (pr_env p))).
    { unfold w_conflicts. rewrite Hq, Hp. rewrite Hq in Hbb. rewrite Hbb. reflexivity. }
    rewrite Hown, all_gather_consistent, Hn. reflexivity. }
  rewrite Htotal. reflexivity.
Qed.

End Rejection.


(** Both ranks of [env_two_ranks] call with the load 1 and no particles. *)
Definition unit_load : RepartArgs := mkRepartArgs [1%float] [] [].




(* ===================================================================== *)
(** ** What reinit builds *)
(* ===================================================================== *)

(** Inversion of the run of a primitive that returned. *)
Lemma gets_ok {A} (f : GridBasedGrid -> A) s a s' :
  gets f s = (Ok a, s') -> a = f s /\ s' = s.
Proof. intros [= <- <-]. auto. Qed.

Lemma modify_ok f s (u : unit) s' : modify f s = (Ok u, s') -> s' = f s.
Proof. intros [= <-]. auto. Qed.

Lemma ret_ok {A} (x : A) s a s' : ret x s = (Ok a, s') -> a = x /\ s' = s.
Proof. intros [= <- <-]. auto. Qed.

Lemma lift_opt_ok {A} (o : option A) s a s' :
  lift_opt o s = (Ok a, s') -> o = Some a /\ s' = s.
Proof. destruct o; intros [= <- <-]; auto. Qed.

Lemma ENSURE_ok E site cond s (u : unit) s' :
  ENSURE E site cond s = (Ok u, s') ->
  s' = s \/ s' = with_raised (site :: raised s) s.
Proof.
  unfold ENSURE. destruct (GRID_DEBUG E); [destruct cond|]; intros [= <-]; auto.
Qed.

(** Takes a run [m s = (Ok a, s')] of a method apart, primitive by primitive. *)
Ltac run_inv H :=
  repeat
    match type of H with
    | bind _ _ _ = (Ok _, _) =>
        let a := fresh "a" in
        let s := fresh "s" in
        let R := fresh "R" in
        apply bind_ok in H as (a & s & R & H); run_inv R
    | gets _ _ = (Ok _, _) => apply gets_ok in H as [-> ->]
    | modify _ _ = (Ok _, _) => apply modify_ok in H as ->
    | ret _ _ = (Ok _, _) => apply ret_ok in H as [-> ->]
    | lift_opt _ _ = (Ok _, _) => apply lift_opt_ok in H as [H ->]
    | throw _ _ = (Ok _, _) => discriminate H
    end.

Section Decomposition.

Context (E : Env).

(** [cells] and [global_to_local] number each other. *)
Definition numbered (s : GridBasedGrid) : Prop :=
  forall k g, cells s !! k = Some g <-> global_to_local s !! g = Some (Z.of_nat k).

(** The cell [g] is one [my_dom] contains the midpoint of. *)
Definition is_local (dom : Octagon) (g : Z) : Prop :=
  contains E dom (gb_midpoint (gbox E) g) = true.

#[global] Instance is_local_dec dom g : Decision (is_local dom g).
Proof. unfold is_local. apply _. Defined.

Definition local_add (i : Z) (s : GridBasedGrid) : GridBasedGrid :=
  with_nlocalcells (nlocalcells s + 1)
    (with_global_to_local (<[i := nlocalcells s]> (global_to_local s))
       (with_cells (cells s ++ [i]) s)).

Lemma local_cell_step_run i s :
  local_cell_step E i s =
  (Ok tt, if contains E (my_dom s) (gb_midpoint (gbox E) i) then local_add i s else s).
Proof.
  unfold local_cell_step, bind, gets.
  destruct (contains E (my_dom s) (gb_midpoint (gbox E) i)); reflexivity.
Qed.

(** The members the first loop does not write. *)
Definition beside_cells (s : GridBasedGrid) :=
  (geometry s, mu s, neighbor_idx s, nghostcells s, exchange_vec s, raised s).

(** After the first loop has visited [seen]. *)
Record local_inv (s0 : GridBasedGrid) (seen : list Z) (s : GridBasedGrid) : Prop := {
  li_cells : cells s = filter (is_local (my_dom s0)) seen;
  li_count : nlocalcells s = Z.of_nat (length (cells s));
  li_numbered : numbered s;
  li_beside : beside_cells s = beside_cells s0
}.

Lemma numbered_snoc s i v :
  numbered s -> i ∉ cells s -> v = Z.of_nat (length (cells s)) ->
  forall k g, (cells s ++ [i]) !! k = Some g <->
              <[i := v]> (global_to_local s) !! g = Some (Z.of_nat k).
Proof.
  intros Hnum Hfresh -> k g.
  destruct (decide (g = i)) as [->|Hne].
  - rewrite lookup_insert_eq. split.
    + intros Hk. destruct (decide (k < length (cells s))%nat) as [Hlt|Hge].
      * rewrite lookup_app_l in Hk by exact Hlt.
        exfalso. apply Hfresh. apply list_elem_of_lookup. eauto.
      * assert (k = length (cells s)).
        { apply lookup_lt_Some in Hk. rewrite length_app in Hk. simpl in Hk. lia. }
        subst k. reflexivity.
    + intros [= Hk]. apply Nat2Z.inj in Hk. subst k.
      rewrite lookup_app_r, Nat.sub_diag by lia. reflexivity.
  - rewrite lookup_insert_ne by congruence. rewrite <- (Hnum k g). split.
    + intros Hk. destruct (decide (k < length (cells s))%nat) as [Hlt|Hge].
      * rewrite lookup_app_l in Hk by exact Hlt. exact Hk.
      * rewrite lookup_app_r in Hk by lia.
        destruct (k - length (cells s))%nat as [|n]; simpl in Hk;
          [congruence|destruct n; discriminate].
    + intros Hk. rewrite lookup_app_l; [exact Hk|]. eapply lookup_lt_Some; eauto.
Qed.

Lemma local_loop_hoare (l : list Z) (s0 : GridBasedGrid) :
  NoDup l ->
  cells s0 = [] -> global_to_local s0 = ∅ -> nlocalcells s0 = 0 ->
  exists s, for_each l (local_cell_step E) s0 = (Ok tt, s) /\ local_inv s0 l s.
Proof.
  intros Hnd Hc Hg Hn.
  assert (G : forall rest seen s, NoDup (seen ++ rest) -> local_inv s0 seen s ->
            exists s', for_each rest (local_cell_step E) s = (Ok tt, s') /\
                       local_inv s0 (seen ++ rest) s').
  { induction rest as [|i rest IH]; intros seen s Hnd' Hinv.
    - exists s. rewrite app_nil_r. split; [reflexivity|exact Hinv].
    - simpl. unfold bind. rewrite local_cell_step_run.
      assert (Heq : seen ++ i :: rest = (seen ++ [i]) ++ rest)
        by (rewrite <- app_assoc; reflexivity).
      rewrite Heq in *.
      apply IH; [exact Hnd'|].
      destruct Hinv as [Hcells Hcount Hnum Hbes].
      assert (Hdom : my_dom s = my_dom s0).
      { unfold beside_cells, geometry in Hbes. congruence. }
      assert (Hi : i ∉ seen).
      { apply NoDup_app in Hnd' as (Hnd1 & _ & _).
        apply NoDup_app in Hnd1 as (_ & Hdisj & _).
        intros Hin. apply (Hdisj i Hin). apply list_elem_of_singleton. reflexivity. }
      rewrite Hdom.
      assert (Hfil : filter (is_local (my_dom s0)) (seen ++ [i]) =
                     filter (is_local (my_dom s0)) seen ++
                     (if contains E (my_dom s0) (gb_midpoint (gbox E) i) then [i] else [])).
      { rewrite filter_app, filter_cons, filter_nil. unfold is_local at 2.
        destruct (decide (contains E (my_dom s0) (gb_midpoint (gbox E) i) = true)) as [Hyes|Hno].
        - rewrite Hyes. reflexivity.
        - destruct (contains E (my_dom s0) (gb_midpoint (gbox E) i)); [congruence|reflexivity]. }
      destruct (contains E (my_dom s0) (gb_midpoint (gbox E) i)) eqn:Hyes.
      + split; simpl.
        * rewrite Hfil, Hcells. reflexivity.
        * rewrite length_app. simpl. lia.
        * intros k g. simpl. apply numbered_snoc; [exact Hnum| |exact Hcount].
          rewrite Hcells. intros Hin. apply list_elem_of_filter in Hin as [_ Hin].
          contradiction.
        * exact Hbes.
      + split; auto. rewrite Hfil, app_nil_r. exact Hcells. }
  apply (G l [] s0 Hnd). split.
  - rewrite Hc. reflexivity.
  - rewrite Hc, Hn. reflexivity.
  - intros k g. rewrite Hc, Hg, lookup_nil, lookup_empty. split; discriminate.
  - reflexivity.
Qed.

(** The owner [reinit] finds for the cell [g]. *)
Definition owner_of (s : GridBasedGrid) (g : Z) : Res Z := (gloidx_to_rank E g s).1.

Lemma gloidx_to_rank_run g s : gloidx_to_rank E g s = (owner_of s g, s).
Proof. reflexivity. Qed.

Lemma owner_of_geometry s s' g : geometry s = geometry s' -> owner_of s g = owner_of s' g.
Proof.
  intros H. unfold owner_of, gloidx_to_rank, position_to_rank, resolve_midpoint. simpl.
  unfold geometry in H. injection H as H1 H2 H3 H4 H5 H6 H7.
  rewrite H2, H5, H6, H7. reflexivity.
Qed.

(** What holds of an entry of [exchange_vec] while it holds global indices. *)
Definition desc_ok (s : GridBasedGrid) (e : GhostExchangeDesc) : Prop :=
  NoDup (recv e) /\ NoDup (send e) /\
  (forall x, x ∈ recv e -> is_Some (global_to_local s !! x)) /\
  (forall x, x ∈ send e -> is_Some (global_to_local s !! x)).

(** During the second loop, started in the state [s0]. *)
Record ghost_inv (s0 s : GridBasedGrid) : Prop := {
  gh_numbered : numbered s;
  gh_length : Z.of_nat (length (cells s)) = nlocalcells s + nghostcells s;
  gh_nghost : 0 <= nghostcells s;
  gh_nlocal : nlocalcells s = nlocalcells s0;
  gh_local : take (length (cells s0)) (cells s) = cells s0;
  gh_geometry : geometry s = geometry s0;
  gh_owner : forall k g, cells s !! k = Some g -> (length (cells s0) <= k)%nat ->
                         owner_of s0 g <> Ok (this_node E);
  gh_exchange : Forall (desc_ok s) (exchange_vec s);
  gh_raised : raised s = raised s0
}.

Lemma desc_ok_mono s s' e :
  (forall x, is_Some (global_to_local s !! x) -> is_Some (global_to_local s' !! x)) ->
  desc_ok s e -> desc_ok s' e.
Proof. intros Hm (H1 & H2 & H3 & H4). repeat split; auto. Qed.

Lemma neighbor_idx_subscript_run k s :
  neighbor_idx_subscript k s =
  (Ok (map_subscript (neighbor_idx s) k).1,
   with_neighbor_idx (map_subscript (neighbor_idx s) k).2 s).
Proof. unfold neighbor_idx_subscript. destruct (map_subscript _ _). reflexivity. Qed.

Lemma global_to_local_subscript_run k s :
  global_to_local_subscript k s =
  (Ok (map_subscript (global_to_local s) k).1,
   with_global_to_local (map_subscript (global_to_local s) k).2 s).
Proof. unfold global_to_local_subscript. destruct (map_subscript _ _). reflexivity. Qed.

Lemma vec_at_elem {A} (l : list A) i x : vec_at l i = Some x -> x ∈ l.
Proof.
  unfold vec_at. destruct (i <? 0); [discriminate|].
  intros H. apply list_elem_of_lookup. eauto.
Qed.

Lemma numbered_cell_key s g : numbered s -> g ∈ cells s -> is_Some (global_to_local s !! g).
Proof.
  intros Hn Hin. apply list_elem_of_lookup in Hin as [k Hk].
  apply Hn in Hk. eauto.
Qed.

Lemma ghost_step_hoare s0 i g :
  length (cells s0) = Z.to_nat (nlocalcells s0) -> 0 <= nlocalcells s0 ->
  hoare (ghost_inv s0) (ghost_step E i g) (fun _ => ghost_inv s0).
Proof.
  intros Hlen0 Hn0 s [] s' Hinv Hrun. unfold ghost_step in Hrun.
  apply bind_ok in Hrun as (owner & s1 & R & Hrun).
  rewrite gloidx_to_rank_run in R. injection R as Hown <-.
  destruct (owner =? this_node E) eqn:Hself.
  { apply ret_ok in Hrun as [_ ->]. exact Hinv. }
  apply Z.eqb_neq in Hself.
  apply bind_ok in Hrun as (m & s3 & R1 & Hrun). apply gets_ok in R1 as [-> ->].
  apply bind_ok in Hrun as ([] & s2 & R & Hrun).
  (* the ghost cell is registered *)
  assert (Hinv2 : ghost_inv s0 s2 /\ is_Some (global_to_local s2 !! g)).
  { destruct Hinv as [Hnum Hlen Hng Hnl Hloc Hgeo Hown' Hex Hrai].
    destruct (global_to_local s !! g) as [v|] eqn:Hg.
    - apply ret_ok in R as [_ ->]. split; [split; assumption|]. rewrite Hg. eauto.
    - apply modify_ok in R as ->. split; [|simpl; rewrite lookup_insert_eq; eauto].
      assert (Hfresh : g ∉ cells s).
      { intros Hin. destruct (numbered_cell_key s g Hnum Hin) as [v Hv]. congruence. }
      split; simpl.
      + intros k g'. apply numbered_snoc; [exact Hnum|exact Hfresh|lia].
      + rewrite length_app. simpl. lia.
      + lia.
      + exact Hnl.
      + rewrite take_app_le; [exact Hloc|].
        rewrite <- Hloc at 1. rewrite length_take. lia.
      + exact Hgeo.
      + intros k g' Hk Hge.
        destruct (decide (k < length (cells s))%nat) as [Hlt|Hnlt].
        * rewrite lookup_app_l in Hk by exact Hlt. eauto.
        * rewrite lookup_app_r in Hk by lia.
          destruct (k - length (cells s))%nat as [|n]; simpl in Hk;
            [|destruct n; discriminate].
          injection Hk as <-. rewrite <- (owner_of_geometry s s0 g Hgeo), Hown.
          congruence.
      + eapply Forall_impl; [exact Hex|]. intros e. apply desc_ok_mono.
        intros x [v Hv]. simpl.
        destruct (decide (x = g)) as [->|Hne]; [congruence|].
        rewrite lookup_insert_ne by congruence. eauto.
      + exact Hrai. }
  destruct Hinv2 as [Hinv2 Hkey]. clear Hinv R.
  apply bind_ok in Hrun as (idx & s3 & R & Hrun).
  rewrite neighbor_idx_subscript_run in R. injection R as <- <-.
  apply bind_ok in Hrun as (ev & s4 & R & Hrun). apply gets_ok in R as [-> ->].
  apply bind_ok in Hrun as (e & s4 & He & Hrun). apply lift_opt_ok in He as [He ->].
  apply bind_ok in Hrun as (ci & s4 & Hci & Hrun).
  apply bind_ok in Hci as (cs & s5 & R & Hci). apply gets_ok in R as [-> ->].
  apply lift_opt_ok in Hci as [Hci ->].
  apply modify_ok in Hrun as ->.
  cbn [exchange_vec cells with_neighbor_idx] in He, Hci.
  destruct Hinv2 as [Hnum Hlen Hng Hnl Hloc Hgeo Hown' Hex Hrai].
  set (idx := (map_subscript (neighbor_idx s2) owner).1) in *.
  assert (He' : desc_ok s2 e).
  { unfold vec_at in He. destruct (idx <? 0); [discriminate|].
    eapply Forall_lookup_1; [exact Hex|exact He]. }
  destruct He' as (N1 & N2 & K1 & K2).
  assert (Hcikey : is_Some (global_to_local s2 !! ci)).
  { apply numbered_cell_key; [exact Hnum|]. eapply vec_at_elem; eauto. }
  split; cbn [cells global_to_local nlocalcells nghostcells exchange_vec raised
              with_exchange_vec with_neighbor_idx]; auto.
  apply Forall_insert; [exact Hex|].
  unfold desc_ok. cbn [global_to_local with_exchange_vec with_neighbor_idx recv send dest].
  destruct (dest e =? -1); cbn [recv send dest].
  - repeat split.
    + apply push_back_unique_NoDup; exact N1.
    + apply push_back_unique_NoDup; exact N2.
    + intros x Hx. apply push_back_unique_elem in Hx as [Hx| ->]; auto.
    + intros x Hx. apply push_back_unique_elem in Hx as [Hx| ->]; auto.
  - repeat split.
    + apply push_back_unique_NoDup; exact N1.
    + apply push_back_unique_NoDup; exact N2.
    + intros x Hx. apply push_back_unique_elem in Hx as [Hx| ->]; auto.
    + intros x Hx. apply push_back_unique_elem in Hx as [Hx| ->]; auto.
Qed.

Lemma ghost_loop_hoare s0 :
  length (cells s0) = Z.to_nat (nlocalcells s0) -> 0 <= nlocalcells s0 ->
  hoare (ghost_inv s0) (ghost_loop E) (fun _ => ghost_inv s0).
Proof.
  intros Hlen0 Hn0. unfold ghost_loop.
  eapply hoare_bind with (Q := fun _ => ghost_inv s0).
  { intros s n s' Hinv R. apply gets_ok in R as [_ ->]. exact Hinv. }
  intros n.
  apply (hoare_for_each (fun _ => ghost_inv s0)).
  intros seen i rest _.
  eapply hoare_bind with (Q := fun _ => ghost_inv s0).
  { intros s ci s' Hinv R. apply bind_ok in R as (cs & s1 & R1 & R).
    apply gets_ok in R1 as [-> ->]. apply lift_opt_ok in R as [_ ->]. exact Hinv. }
  intros ci.
  apply (hoare_for_each (fun _ => ghost_inv s0)).
  intros seen' g rest' _. apply ghost_step_hoare; assumption.
Qed.

(** The local index of the global index [g]. *)
Definition local_index (s : GridBasedGrid) (g : Z) : Z :=
  default 0 (global_to_local s !! g).

(** An entry after the third loop: both lists sorted by global index
    and then translated. *)
Definition translated (s : GridBasedGrid) (e : GhostExchangeDesc) : GhostExchangeDesc :=
  mkDesc (dest e) (map (local_index s) (std_sort (recv e)))
         (map (local_index s) (std_sort (send e))).

Lemma with_global_to_local_id s : with_global_to_local (global_to_local s) s = s.
Proof. destruct s. reflexivity. Qed.

Lemma glo_to_loc_key x v s :
  global_to_local s !! x = Some v -> glo_to_loc E x s = (Ok v, s).
Proof.
  intros Hk. unfold glo_to_loc. destruct (GRID_DEBUG E).
  - unfold bind, gets. rewrite Hk. reflexivity.
  - rewrite global_to_local_subscript_run. unfold map_subscript. rewrite Hk.
    simpl. rewrite with_global_to_local_id. reflexivity.
Qed.

Lemma transform_run (write : list Z -> GridBasedGrid -> GridBasedGrid) todo :
  (forall l s, global_to_local (write l s) = global_to_local s) ->
  (forall l1 l2 s, write l2 (write l1 s) = write l2 s) ->
  forall seen s,
  (forall x, x ∈ todo -> is_Some (global_to_local s !! x)) ->
  transform E write seen todo (write (seen ++ todo) s) =
  (Ok tt, write (seen ++ map (local_index s) todo) s).
Proof.
  intros W1 W2. induction todo as [|x rest IH]; intros seen s Hkeys; simpl.
  - reflexivity.
  - destruct (Hkeys x) as [v Hv]; [apply elem_of_cons; auto|].
    rewrite (bind_eq_ok _ _ _ v (write (seen ++ x :: rest) s)).
    2:{ apply glo_to_loc_key. rewrite W1. exact Hv. }
    unfold bind at 1. unfold modify at 1. rewrite W2.
    replace (seen ++ v :: rest) with ((seen ++ [v]) ++ rest)
      by (rewrite <- app_assoc; reflexivity).
    rewrite IH.
    + unfold local_index at 2. rewrite Hv. simpl.
      rewrite <- app_assoc. reflexivity.
    + intros y Hy. apply Hkeys. apply elem_of_cons. auto.
Qed.

Lemma set_recv_g2l k l s : global_to_local (set_recv k l s) = global_to_local s.
Proof. reflexivity. Qed.

Lemma set_send_g2l k l s : global_to_local (set_send k l s) = global_to_local s.
Proof. reflexivity. Qed.

Lemma set_recv_twice k l1 l2 s : set_recv k l2 (set_recv k l1 s) = set_recv k l2 s.
Proof.
  destruct s. unfold set_recv, with_exchange_vec. simpl. f_equal.
  rewrite list_alter_alter_eq. apply list_alter_ext; [|reflexivity].
  intros e _. reflexivity.
Qed.

Lemma set_send_twice k l1 l2 s : set_send k l2 (set_send k l1 s) = set_send k l2 s.
Proof.
  destruct s. unfold set_send, with_exchange_vec. simpl. f_equal.
  rewrite list_alter_alter_eq. apply list_alter_ext; [|reflexivity].
  intros e _. reflexivity.
Qed.

Lemma std_sort_elem (l : list Z) x : x ∈ std_sort l <-> x ∈ l.
Proof. unfold std_sort. rewrite merge_sort_Permutation. reflexivity. Qed.

(** The state [finalize_desc k] leaves when the lists of the entry hold cells. *)
Lemma finalize_desc_run k v s :
  exchange_vec s !! k = Some v -> desc_ok s v ->
  finalize_desc E k s =
  (Ok tt,
   set_send k (map (local_index s) (std_sort (send v)))
     (set_recv k (map (local_index s) (std_sort (recv v)))
        (ENSURE E ensure_dest_set (negb (dest v =? -1)) s).2)).
Proof.
  intros Hk (N1 & N2 & K1 & K2). unfold finalize_desc.
  unfold bind at 1. unfold gets at 1. unfold bind at 1. rewrite Hk. unfold lift_opt, ret at 1.
  unfold bind at 1. rewrite ENSURE_run.
  set (s1 := (ENSURE E ensure_dest_set (negb (dest v =? -1)) s).2).
  assert (Hg1 : global_to_local s1 = global_to_local s).
  { unfold s1, ENSURE. destruct (GRID_DEBUG E); [destruct (negb _)|]; reflexivity. }
  unfold bind at 1. unfold modify at 1.
  pose proof (transform_run (set_recv k) (std_sort (recv v))
                (set_recv_g2l k) (set_recv_twice k) [] s1) as T1.
  simpl in T1.
  assert (Hk1 : forall x, x ∈ std_sort (recv v) -> is_Some (global_to_local s1 !! x)).
  { intros x Hx. rewrite Hg1. apply K1, std_sort_elem, Hx. }
  rewrite (bind_eq_ok _ _ _ _ _ (T1 Hk1)).
  set (s2 := set_recv k (map (local_index s1) (std_sort (recv v))) s1).
  unfold bind at 1. unfold modify at 1.
  pose proof (transform_run (set_send k) (std_sort (send v))
                (set_send_g2l k) (set_send_twice k) [] s2) as T2.
  simpl in T2. rewrite T2.
  2:{ intros x Hx. unfold s2. cbn [global_to_local set_recv with_exchange_vec].
      rewrite Hg1. apply K2, std_sort_elem, Hx. }
  unfold s2, local_index. cbn [global_to_local set_recv with_exchange_vec].
  rewrite ?Hg1. reflexivity.
Qed.

(** The members the third loop does not write. *)
Definition beside_exchange (s : GridBasedGrid) : GridBasedGrid :=
  with_raised [] (with_exchange_vec [] s).

(** After the third loop has visited the entries [seen], started in [sg]. *)
Record final_inv (sg : GridBasedGrid) (seen : list nat) (s : GridBasedGrid) : Prop := {
  fi_exchange : forall i, exchange_vec s !! i =
      if decide (i < length seen)%nat
      then translated sg <$> exchange_vec sg !! i
      else exchange_vec sg !! i;
  fi_beside : beside_exchange s = beside_exchange sg;
  fi_raised : forall x, x ∈ raised sg -> x ∈ raised s
}.

Lemma beside_exchange_g2l s sg :
  beside_exchange s = beside_exchange sg -> global_to_local s = global_to_local sg.
Proof. intros H. apply (f_equal global_to_local) in H. exact H. Qed.

Lemma seq_split_index (n : nat) seen k rest :
  seq 0 n = seen ++ k :: rest -> k = length seen.
Proof.
  intros H. assert (Hk : seq 0 n !! length seen = Some k).
  { rewrite H, lookup_app_r, Nat.sub_diag by lia. reflexivity. }
  apply lookup_seq in Hk as [Hk _]. lia.
Qed.

Lemma finalize_step_hoare sg seen k rest :
  Forall (desc_ok sg) (exchange_vec sg) ->
  seq 0 (length (exchange_vec sg)) = seen ++ k :: rest ->
  hoare (final_inv sg seen) (finalize_desc E k) (fun _ => final_inv sg (seen ++ [k])).
Proof.
  intros Hok Hseq s [] s' [Hex Hbes Hrai] Hrun.
  pose proof (seq_split_index _ _ _ _ Hseq) as Hk. subst k.
  assert (Hlt : (length seen < length (exchange_vec sg))%nat).
  { assert (Hin : length seen ∈ seq 0 (length (exchange_vec sg))).
    { rewrite Hseq. apply elem_of_app. right. apply elem_of_cons. auto. }
    apply elem_of_seq in Hin. lia. }
  destruct (lookup_lt_is_Some_2 _ _ Hlt) as [v Hv].
  assert (Hsv : exchange_vec s !! length seen = Some v).
  { rewrite Hex. destruct (decide _); [lia|exact Hv]. }
  pose proof (beside_exchange_g2l _ _ Hbes) as Hg.
  assert (Hdv : desc_ok s v).
  { eapply desc_ok_mono; [|eapply Forall_lookup_1; [exact Hok|exact Hv]].
    intros x. rewrite Hg. auto. }
  rewrite (finalize_desc_run _ v s Hsv Hdv) in Hrun. injection Hrun as <-.
  assert (Hli : local_index s = local_index sg).
  { unfold local_index. rewrite Hg. reflexivity. }
  rewrite Hli.
  set (s1 := (ENSURE E ensure_dest_set (negb (dest v =? -1)) s).2).
  assert (H1 : exchange_vec s1 = exchange_vec s /\ beside_exchange s1 = beside_exchange s
               /\ forall x, x ∈ raised s -> x ∈ raised s1).
  { unfold s1, ENSURE. destruct (GRID_DEBUG E); [destruct (negb _)|]; simpl; auto.
    split; [reflexivity|]. split; [reflexivity|]. intros x Hx. apply elem_of_cons. auto. }
  destruct H1 as (He1 & Hb1 & Hr1).
  split.
  - intros i. unfold set_send, set_recv. cbn [exchange_vec with_exchange_vec].
    rewrite list_alter_alter_eq, He1, length_app. simpl.
    destruct (decide (i = length seen)) as [->|Hne].
    + rewrite list_lookup_alter_eq, Hsv. destruct (decide _); [|lia].
      rewrite Hv. reflexivity.
    + rewrite list_lookup_alter_ne by congruence. rewrite Hex.
      destruct (decide (i < length seen)%nat), (decide (i < length seen + 1)%nat);
        try reflexivity; lia.
  - change (beside_exchange s1 = beside_exchange sg). congruence.
  - intros x Hx. apply Hr1, Hrai, Hx.
Qed.

Lemma finalize_loop_hoare sg :
  Forall (desc_ok sg) (exchange_vec sg) ->
  hoare (fun s => s = sg)
    (for_each (seq 0 (length (exchange_vec sg))) (finalize_desc E))
    (fun _ s =>
       exchange_vec s = map (translated sg) (exchange_vec sg) /\
       beside_exchange s = beside_exchange sg /\
       forall x, x ∈ raised sg -> x ∈ raised s).
Proof.
  intros Hok.
  eapply hoare_weaken.
  - apply (hoare_for_each (final_inv sg)). intros seen k rest Hseq.
    apply (finalize_step_hoare sg seen k rest); assumption.
  - intros s ->. split; [|reflexivity|auto].
    intros i. case_decide; [simpl in *; lia|reflexivity].
  - intros _ s [Hex Hbes Hrai]. split; [|split; assumption].
    apply list_eq. intros i. rewrite Hex, list_lookup_fmap, length_seq.
    case_decide as Hlt; [reflexivity|].
    rewrite lookup_ge_None_2 by lia. reflexivity.
Qed.

(** What [reinit] has built when it returns. *)
Record decomposed (s : GridBasedGrid) : Prop := {
  dc_numbered : numbered s;
  dc_length : Z.of_nat (length (cells s)) = nlocalcells s + nghostcells s;
  dc_nlocal : 0 <= nlocalcells s;
  dc_nghost : 0 <= nghostcells s;
  dc_local : take (Z.to_nat (nlocalcells s)) (cells s) =
             filter (is_local (my_dom s)) (seqZ 0 (gb_ncells (gbox E)));
  dc_owner : forall k g, cells s !! k = Some g -> nlocalcells s <= Z.of_nat k ->
                         owner_of s g <> Ok (this_node E);
  dc_exchange : exists raw, Forall (desc_ok s) raw /\
                            exchange_vec s = map (translated s) raw;
  dc_checked : GRID_DEBUG E = true -> nlocalcells s = 0 ->
               ensure_nlocalcells_positive ∈ raised s
}.

Lemma ENSURE_frame site cond s :
  beside_exchange (ENSURE E site cond s).2 = beside_exchange s /\
  exchange_vec (ENSURE E site cond s).2 = exchange_vec s /\
  (forall x, x ∈ raised s -> x ∈ raised (ENSURE E site cond s).2) /\
  (GRID_DEBUG E = true -> cond = false -> site ∈ raised (ENSURE E site cond s).2).
Proof.
  unfold ENSURE. destruct (GRID_DEBUG E); [destruct cond|]; simpl;
    repeat split; auto; try discriminate.
  - intros x Hx. apply elem_of_cons. auto.
  - intros _ _. apply elem_of_cons. auto.
Qed.

Theorem reinit_decomposed s s' : reinit E s = (Ok tt, s') -> decomposed s'.
Proof.
  rewrite reinit_unfold. unfold reinit_body. set (c := cleared s). intros Hrun.
  (* the first loop *)
  destruct (local_loop_hoare (seqZ 0 (gb_ncells (gbox E))) c) as (s1 & R1 & L1);
    [apply NoDup_seqZ|reflexivity|reflexivity|reflexivity|].
  rewrite (bind_eq_ok _ _ _ _ _ R1) in Hrun.
  destruct L1 as [Lc Ln Lnum Lbes].
  unfold bind at 1 in Hrun. unfold gets at 1 in Hrun.
  unfold bind at 1 in Hrun. rewrite ENSURE_run in Hrun.
  set (s2 := (ENSURE E ensure_nlocalcells_positive (0 <? nlocalcells s1) s1).2) in *.
  destruct (ENSURE_frame ensure_nlocalcells_positive (0 <? nlocalcells s1) s1)
    as (B2 & X2 & M2 & C2). fold s2 in B2, X2, M2, C2.
  unfold bind at 1 in Hrun. unfold gets at 1 in Hrun.
  unfold bind at 1 in Hrun. unfold modify at 1 in Hrun.
  set (s3 := with_exchange_vec (replicate (length (neighbor_ranks s2)) default_desc) s2) in *.
  assert (B3 : beside_exchange s3 = beside_exchange s1) by exact B2.
  assert (Hcells3 : cells s3 = cells s1) by (apply (f_equal cells) in B3; exact B3).
  assert (Hg2l3 : global_to_local s3 = global_to_local s1)
    by (apply (f_equal global_to_local) in B3; exact B3).
  assert (Hnl3 : nlocalcells s3 = nlocalcells s1)
    by (apply (f_equal nlocalcells) in B3; exact B3).
  assert (Hng3 : nghostcells s3 = 0).
  { apply (f_equal nghostcells) in B3.
    change (nghostcells s3 = nghostcells s1) in B3. rewrite B3.
    apply (f_equal (fun t => t.1.1.2)) in Lbes. exact Lbes. }
  assert (Hdom3 : my_dom s3 = my_dom s).
  { apply (f_equal my_dom) in B3. change (my_dom s3 = my_dom s1) in B3. rewrite B3.
    apply (f_equal (fun t => t.1.1.1.1.1.1.2)) in Lbes. exact Lbes. }
  assert (Hlen3 : length (cells s3) = Z.to_nat (nlocalcells s3)).
  { rewrite Hcells3, Hnl3, Ln. lia. }
  assert (G3 : ghost_inv s3 s3).
  { split.
    - intros k g. rewrite Hcells3, Hg2l3. apply Lnum.
    - rewrite Hng3. lia.
    - rewrite Hng3. lia.
    - reflexivity.
    - apply firstn_all.
    - reflexivity.
    - intros k g Hk Hge. apply lookup_lt_Some in Hk. lia.
    - simpl. apply Forall_replicate. repeat split; simpl;
        try apply NoDup_nil_2; intros x Hx; inversion Hx.
    - reflexivity. }
  apply bind_ok in Hrun as ([] & s4 & R4 & Hrun).
  assert (G4 : ghost_inv s3 s4).
  { eapply (ghost_loop_hoare s3 Hlen3); [lia|exact G3|exact R4]. }
  destruct G4 as [Nnum Nlen Nng Nnl Nloc Ngeo Nown Nex Nrai].
  unfold bind at 1 in Hrun. unfold gets at 1 in Hrun.
  unfold bind at 1 in Hrun. rewrite ENSURE_run in Hrun.
  set (s5 := (ENSURE E ensure_nghostcells_positive
                ((n_nodes E =? 1) || (0 <? nghostcells s4)) s4).2) in *.
  destruct (ENSURE_frame ensure_nghostcells_positive
              ((n_nodes E =? 1) || (0 <? nghostcells s4)) s4) as (B5 & X5 & M5 & _).
  fold s5 in B5, X5, M5.
  unfold bind at 1 in Hrun. unfold gets at 1 in Hrun.
  assert (Hg5 : global_to_local s5 = global_to_local s4)
    by (apply (f_equal global_to_local) in B5; exact B5).
  assert (Ok5 : Forall (desc_ok s5) (exchange_vec s5)).
  { rewrite X5. eapply Forall_impl; [exact Nex|]. intros e. apply desc_ok_mono.
    intros x. rewrite Hg5. auto. }
  pose proof (finalize_loop_hoare s5 Ok5 s5 tt s' eq_refl Hrun) as (F1 & F2 & F3).
  assert (B6 : beside_exchange s' = beside_exchange s4) by congruence.
  assert (Hcells : cells s' = cells s4) by (apply (f_equal cells) in B6; exact B6).
  assert (Hg2l : global_to_local s' = global_to_local s4)
    by (apply (f_equal global_to_local) in B6; exact B6).
  assert (Hnl : nlocalcells s' = nlocalcells s4)
    by (apply (f_equal nlocalcells) in B6; exact B6).
  assert (Hng : nghostcells s' = nghostcells s4)
    by (apply (f_equal nghostcells) in B6; exact B6).
  assert (Hgeo : geometry s' = geometry s3).
  { rewrite <- Ngeo. apply (f_equal geometry) in B6. exact B6. }
  assert (Hdom : my_dom s' = my_dom s).
  { rewrite <- Hdom3. unfold geometry in Hgeo. congruence. }
  split.
  - intros k g. rewrite Hcells, Hg2l. apply Nnum.
  - rewrite Hcells, Hnl, Hng. exact Nlen.
  - rewrite Hnl, Nnl, Hnl3, Ln. lia.
  - rewrite Hng. exact Nng.
  - rewrite Hcells, Hnl, Nnl, <- Hlen3, Nloc, Hcells3, Lc, Hdom. reflexivity.
  - intros k g Hk Hge. rewrite (owner_of_geometry s' s3 g Hgeo).
    rewrite Hcells in Hk. apply (Nown k g Hk). lia.
  - exists (exchange_vec s5). split.
    + eapply Forall_impl; [exact Ok5|]. intros e. apply desc_ok_mono.
      intros x. rewrite Hg2l, Hg5. auto.
    + rewrite F1. apply map_ext. intros e. unfold translated, local_index.
      rewrite Hg2l, Hg5. reflexivity.
  - intros Hdbg H0. apply F3, M5. rewrite Nrai. change (raised s3) with (raised s2).
    apply C2; [exact Hdbg|]. apply Z.ltb_ge. lia.
Qed.

End Decomposition.

(* ===================================================================== *)
(** ** The numbering of the cells *)
(* ===================================================================== *)

Lemma repartition_true_reinit E a net s0 s :
  repartition E a net s0 = (Ok true, s) -> exists s1, reinit E s1 = (Ok tt, s).
Proof.
  unfold repartition. intros H.
  repeat (apply bind_ok in H as (? & ? & _ & H)).
  match type of H with
  | (if ?c then _ else _) _ = _ => destruct c
  end.
  - repeat (apply bind_ok in H as (? & ? & _ & H)). discriminate.
  - apply bind_ok in H as (? & ? & _ & H).
    apply bind_ok in H as (? & ? & _ & H).
    apply bind_ok in H as (? & ? & _ & H).
    apply bind_ok in H as ([] & s2 & Hre & H).
    apply ret_ok in H as [_ ->]. eauto.
Qed.

Lemma construct_reinit E peers s :
  construct E peers = (Ok tt, s) -> exists s1, reinit E s1 = (Ok tt, s).
Proof.
  unfold construct. intros H. apply bind_ok in H as ([] & s1 & _ & H). eauto.
Qed.






(* ===================================================================== *)
(** ** reinit reads the grid state only *)
(* ===================================================================== *)

(** Two [neighbor_idx] maps that [operator[]] cannot tell apart. *)
Definition idx_equiv (m1 m2 : gmap Z Z) : Prop :=
  forall k, default 0 (m1 !! k) = default 0 (m2 !! k).

(** Two objects that agree on all [reinit] reads or builds. *)
Record alike (s1 s2 : GridBasedGrid) : Prop := {
  al_geometry : geometry s1 = geometry s2;
  al_nlocal : nlocalcells s1 = nlocalcells s2;
  al_nghost : nghostcells s1 = nghostcells s2;
  al_cells : cells s1 = cells s2;
  al_g2l : global_to_local s1 = global_to_local s2;
  al_exchange : exchange_vec s1 = exchange_vec s2;
  al_idx : idx_equiv (neighbor_idx s1) (neighbor_idx s2)
}.

(** [m] gives alike objects the same result and leaves them alike. *)
Definition respects {A} (m : M A) : Prop :=
  forall s1 s2, alike s1 s2 -> (m s1).1 = (m s2).1 /\ alike (m s1).2 (m s2).2.

Section Determinism.

Context (E : Env).

Lemma respects_ret {A} (a : A) : respects (ret a).
Proof. intros s1 s2 H. split; [reflexivity|exact H]. Qed.

Lemma respects_throw {A} e : respects (@throw A e).
Proof. intros s1 s2 H. split; [reflexivity|exact H]. Qed.

Lemma respects_lift_opt {A} (o : option A) : respects (lift_opt o).
Proof. destruct o; [apply respects_ret|apply respects_throw]. Qed.

Lemma respects_gets {A} (f : GridBasedGrid -> A) :
  (forall s1 s2, alike s1 s2 -> f s1 = f s2) -> respects (gets f).
Proof. intros Hf s1 s2 H. split; [simpl; f_equal; auto|exact H]. Qed.

Lemma respects_modify f :
  (forall s1 s2, alike s1 s2 -> alike (f s1) (f s2)) -> respects (modify f).
Proof. intros Hf s1 s2 H. split; [reflexivity|apply Hf, H]. Qed.

Lemma respects_bind {A B} (m : M A) (k : A -> M B) :
  respects m -> (forall a, respects (k a)) -> respects (bind m k).
Proof.
  intros Hm Hk s1 s2 H. destruct (Hm s1 s2 H) as [Hr Hs]. unfold bind.
  destruct (m s1) as [[a1|e1] t1], (m s2) as [[a2|e2] t2]; simpl in *;
    try discriminate.
  - injection Hr as <-. apply Hk, Hs.
  - injection Hr as <-. split; [reflexivity|exact Hs].
Qed.

Lemma respects_for_each {A} (l : list A) (body : A -> M unit) :
  (forall x, respects (body x)) -> respects (for_each l body).
Proof.
  intros Hb. induction l as [|x l IH]; simpl.
  - apply respects_ret.
  - apply respects_bind; auto.
Qed.

Lemma respects_if {A} (b : bool) (m1 m2 : M A) :
  respects m1 -> respects m2 -> respects (if b then m1 else m2).
Proof. destruct b; auto. Qed.

Lemma alike_with_raised x1 x2 s1 s2 :
  alike s1 s2 -> alike (with_raised x1 s1) (with_raised x2 s2).
Proof. intros [G N1 N2 C M X I]. split; assumption. Qed.

Lemma respects_ENSURE site cond : respects (ENSURE E site cond).
Proof.
  unfold ENSURE. destruct (GRID_DEBUG E); [destruct cond|];
    try apply respects_ret.
  apply respects_modify. intros s1 s2 H. apply alike_with_raised, H.
Qed.

Lemma respects_gloidx_to_rank g : respects (gloidx_to_rank E g).
Proof.
  intros s1 s2 H. split; [|exact H].
  apply (owner_of_geometry E s1 s2 g), (al_geometry _ _ H).
Qed.

Lemma idx_equiv_subscript m1 m2 k :
  idx_equiv m1 m2 ->
  (map_subscript m1 k).1 = (map_subscript m2 k).1 /\
  idx_equiv (map_subscript m1 k).2 (map_subscript m2 k).2.
Proof.
  intros H. split.
  - specialize (H k). unfold map_subscript.
    destruct (m1 !! k), (m2 !! k); simpl in *; congruence.
  - intros k'. rewrite !map_subscript_lookup. specialize (H k').
    destruct (m1 !! k'), (m2 !! k'); simpl in *; try congruence;
      destruct (decide (k = k')); simpl; congruence.
Qed.

Lemma respects_neighbor_idx_subscript k : respects (neighbor_idx_subscript k).
Proof.
  intros s1 s2 [G N1 N2 C M X I]. rewrite !(neighbor_idx_subscript_run).
  destruct (idx_equiv_subscript _ _ k I) as [Hv Hm]. simpl.
  split; [congruence|]. split; simpl; assumption.
Qed.

Lemma respects_global_to_local_subscript k : respects (global_to_local_subscript k).
Proof.
  intros s1 s2 [G N1 N2 C M X I]. rewrite !(global_to_local_subscript_run).
  simpl. rewrite M. split; [reflexivity|]. split; simpl; auto.
Qed.

Lemma respects_glo_to_loc i : respects (glo_to_loc E i).
Proof.
  unfold glo_to_loc. destruct (GRID_DEBUG E).
  - apply respects_bind.
    + apply respects_gets. intros s1 s2 H. apply (al_g2l _ _ H).
    + intros g. destruct (g !! i); [apply respects_ret|apply respects_throw].
  - apply respects_global_to_local_subscript.
Qed.

Lemma respects_transform write seen todo :
  (forall l s1 s2, alike s1 s2 -> alike (write l s1) (write l s2)) ->
  respects (transform E write seen todo).
Proof.
  intros Hw. revert seen. induction todo as [|x rest IH]; intros seen; simpl.
  - apply respects_ret.
  - apply respects_bind; [apply respects_glo_to_loc|intros y].
    apply respects_bind; [apply respects_modify; intros; apply Hw; assumption|].
    intros _. apply IH.
Qed.

(** Closes the goals on updates and reads with the component equalities. *)
Ltac alike_solve :=
  let G := fresh "G" in
  intros ? ? [G ? ? ? ? ? ?];
  first
    [ split; unfold set_recv, set_send, geometry in *; simpl; solve [congruence | assumption]
    | unfold geometry in G; simpl; congruence ].

Ltac respects_step :=
  lazymatch goal with
  | |- respects (ret _) => apply respects_ret
  | |- respects (throw _) => apply respects_throw
  | |- respects (lift_opt _) => apply respects_lift_opt
  | |- respects (gets _) => apply respects_gets; alike_solve
  | |- respects (modify _) => apply respects_modify; alike_solve
  | |- respects (bind _ _) => apply respects_bind; [|intros ?]
  | |- respects (for_each _ _) => apply respects_for_each; intros ?
  | |- respects (ENSURE _ _ _) => apply respects_ENSURE
  | |- respects (gloidx_to_rank _ _) => apply respects_gloidx_to_rank
  | |- respects (neighbor_idx_subscript _) => apply respects_neighbor_idx_subscript
  | |- respects (global_to_local_subscript _) => apply respects_global_to_local_subscript
  | |- respects (glo_to_loc _ _) => apply respects_glo_to_loc
  | |- respects (transform _ _ _ _) => apply respects_transform; intros ?; alike_solve
  | |- respects (match ?x with _ => _ end) => destruct x
  end.

Lemma respects_reinit_body : respects (reinit_body E).
Proof.
  unfold reinit_body, ghost_loop, finalize_desc, local_cell_step, ghost_step.
  repeat respects_step.
Qed.

End Determinism.

Section ExchangeOrder.

Context (E : Env).

Lemma idx_equiv_closed m0 :
  update_closed (fun s => idx_equiv (neighbor_idx s) m0).
Proof.
  split; try (intros; assumption).
  intros s k H k'. simpl. rewrite map_subscript_lookup. rewrite <- (H k').
  destruct (neighbor_idx s !! k'); [reflexivity|].
  destruct (decide (k = k')); reflexivity.
Qed.

Lemma reinit_idx_equiv s : idx_equiv (neighbor_idx (reinit E s).2) (neighbor_idx s).
Proof.
  rewrite reinit_unfold.
  apply (closed_reinit_body E _ (idx_equiv_closed (neighbor_idx s))).
  intros k. reflexivity.
Qed.

Lemma reinit_respects s1 s2 :
  geometry s1 = geometry s2 -> idx_equiv (neighbor_idx s1) (neighbor_idx s2) ->
  (reinit E s1).1 = (reinit E s2).1 /\ alike (reinit E s1).2 (reinit E s2).2.
Proof.
  intros Hg Hi. rewrite !reinit_unfold. apply respects_reinit_body.
  split; try reflexivity; assumption.
Qed.

(** An entry of [exchange_vec] that still holds global indices, sorted. *)
Definition sorted_desc (s : GridBasedGrid) (e : GhostExchangeDesc) : Prop :=
  StronglySorted Z.le (recv e) /\ StronglySorted Z.le (send e) /\
  NoDup (recv e) /\ NoDup (send e) /\
  (forall x, x ∈ recv e -> is_Some (global_to_local s !! x)) /\
  (forall x, x ∈ send e -> is_Some (global_to_local s !! x)).

(** The translation of an entry to local indices. *)
Definition to_local (s : GridBasedGrid) (e : GhostExchangeDesc) : GhostExchangeDesc :=
  mkDesc (dest e) (map (local_index s) (recv e)) (map (local_index s) (send e)).

Lemma reinit_sorted s s' :
  reinit E s = (Ok tt, s') ->
  exists globals, Forall (sorted_desc s') globals /\
                  exchange_vec s' = map (to_local s') globals.
Proof.
  intros Hrun. destruct (dc_exchange E s' (reinit_decomposed E s s' Hrun)) as (raw & Hok & Hex).
  exists (map (fun e => mkDesc (dest e) (std_sort (recv e)) (std_sort (send e))) raw).
  split.
  - apply Forall_fmap. eapply Forall_impl; [exact Hok|].
    intros e (N1 & N2 & K1 & K2). unfold sorted_desc, std_sort. simpl.
    split; [apply StronglySorted_merge_sort; apply _|].
    split; [apply StronglySorted_merge_sort; apply _|].
    split; [rewrite merge_sort_Permutation; exact N1|].
    split; [rewrite merge_sort_Permutation; exact N2|].
    split; intros x Hx; rewrite merge_sort_Permutation in Hx; auto.
  - rewrite Hex, map_map. reflexivity.
Qed.

End ExchangeOrder.

(** C7: [reinit] called on two objects in the same grid state (the same
    corners, octagons, neighbour ranks and regularity flag, and neighbour
    index maps the subscript cannot tell apart) ends the same way and leaves
    identical exchange descriptors, whatever the objects held in [cells],
    [global_to_local] and [exchange_vec] before; so does a second call right
    after a first.  When it returns, every descriptor is the translation by
    [global_to_local] of a descriptor whose [recv] and [send] are lists of
    cells sorted ascending by global index, without repetition. *)
Theorem reinit_exchange_deterministic_and_sorted (E : Env) (s1 s2 : GridBasedGrid) :
  geometry s1 = geometry s2 ->
  idx_equiv (neighbor_idx s1) (neighbor_idx s2) ->
  (reinit E s1).1 = (reinit E s2).1 /\
  exchange_vec (reinit E s1).2 = exchange_vec (reinit E s2).2 /\
  (reinit E (reinit E s1).2).1 = (reinit E s1).1 /\
  exchange_vec (reinit E (reinit E s1).2).2 = exchange_vec (reinit E s1).2 /\
  ((reinit E s1).1 = Ok tt ->
   exists globals,
     Forall (sorted_desc (reinit E s1).2) globals /\
     exchange_vec (reinit E s1).2 = map (to_local (reinit E s1).2) globals).
Proof.
  intros Hg Hi.
  destruct (reinit_respects E s1 s2 Hg Hi) as [Hr Ha].
  destruct (reinit_respects E (reinit E s1).2 s1 (reinit_geometry E s1)
              (reinit_idx_equiv E s1)) as [Hr2 Ha2].
  split; [exact Hr|]. split; [exact (al_exchange _ _ Ha)|].
  split; [exact Hr2|]. split; [exact (al_exchange _ _ Ha2)|].
  intros Hok. apply (reinit_sorted E s1).
  destruct (reinit E s1) as [r t]. simpl in Hok. subst r. reflexivity.
Qed.

Lemma cleared_geometry s : geometry s = geometry (cleared s).
Proof. reflexivity. Qed.

Lemma cleared_idx_equiv s : idx_equiv (neighbor_idx s) (neighbor_idx (cleared s)).
Proof. intros k. reflexivity. Qed.

(** The grid of rank 0 of two, and the same grid with its decomposition
    wiped. *)
Lemma reinit_exchange_deterministic_and_sorted_witness :
  let E := env_two_ranks 0 in
  let s1 := two_ranks_grid 0 in
  let s2 := cleared (two_ranks_grid 0) in
  (reinit E s1).1 = (reinit E s2).1 /\
  exchange_vec (reinit E s1).2 = exchange_vec (reinit E s2).2 /\
  (reinit E (reinit E s1).2).1 = (reinit E s1).1 /\
  exchange_vec (reinit E (reinit E s1).2).2 = exchange_vec (reinit E s1).2 /\
  ((reinit E s1).1 = Ok tt ->
   exists globals,
     Forall (sorted_desc (reinit E s1).2) globals /\
     exchange_vec (reinit E s1).2 = map (to_local (reinit E s1).2) globals).
Proof.
  exact (reinit_exchange_deterministic_and_sorted (env_two_ranks 0)
           (two_ranks_grid 0) (cleared (two_ranks_grid 0))
           (cleared_geometry (two_ranks_grid 0))
           (cleared_idx_equiv (two_ranks_grid 0))).
Defined.

(* ===================================================================== *)
(** ** position_to_cell_index *)
(* ===================================================================== *)

(** A grid whose calls have returned so far: it is constructed, queried, and
    repartitioned by calls that return. *)
Inductive settled (E : Env) : GridBasedGrid -> Prop :=
  | settled_construct peers s :
      construct E peers = (Ok tt, s) -> settled E s
  | settled_call c s :
      settled E s -> settled E (run_call E c s).2
  | settled_repartition a net s b s' :
      settled E s -> repartition E a net s = (Ok b, s') -> settled E s'.

(** What the resolver and [position_to_cell_index] read. *)
Definition resolver_view (s : GridBasedGrid) :=
  (is_regular_grid s, my_dom s, neighbor_ranks s, neighbor_doms s,
   nlocalcells s, nghostcells s, cells s, global_to_local s).

(** The cells keep their numbers; a key of [global_to_local] that is no cell
    was inserted by a subscript, with the value 0; the cells after the local
    ones belong to other ranks. *)
Record indexed (E : Env) (s : GridBasedGrid) : Prop := {
  ix_cells : forall k g, cells s !! k = Some g ->
                         global_to_local s !! g = Some (Z.of_nat k);
  ix_values : forall g v, global_to_local s !! g = Some v ->
                          v = 0 \/ (0 <= v /\ cells s !! Z.to_nat v = Some g);
  ix_length : Z.of_nat (length (cells s)) = nlocalcells s + nghostcells s;
  ix_nlocal : 0 <= nlocalcells s;
  ix_owner : forall k g, cells s !! k = Some g -> nlocalcells s <= Z.of_nat k ->
                         owner_of E s g <> Ok (this_node E)
}.

Section CellIndex.

Context (E : Env).

Lemma owner_of_view s s' g :
  resolver_view s = resolver_view s' -> owner_of E s g = owner_of E s' g.
Proof.
  intros H. unfold owner_of, gloidx_to_rank, position_to_rank, resolve_midpoint. simpl.
  unfold resolver_view in H.
  assert (H1 : is_regular_grid s = is_regular_grid s') by congruence.
  assert (H2 : my_dom s = my_dom s') by congruence.
  assert (H3 : neighbor_ranks s = neighbor_ranks s') by congruence.
  assert (H4 : neighbor_doms s = neighbor_doms s') by congruence.
  rewrite H1, H2, H3, H4. reflexivity.
Qed.

Lemma indexed_view s s' :
  resolver_view s' = resolver_view s -> indexed E s -> indexed E s'.
Proof.
  intros H [I1 I2 I3 I4 I5].
  assert (Hc : cells s' = cells s) by (unfold resolver_view in H; congruence).
  assert (Hg : global_to_local s' = global_to_local s)
    by (unfold resolver_view in H; congruence).
  assert (Hn : nlocalcells s' = nlocalcells s) by (unfold resolver_view in H; congruence).
  assert (Hh : nghostcells s' = nghostcells s) by (unfold resolver_view in H; congruence).
  split; rewrite ?Hc, ?Hg, ?Hn, ?Hh; auto.
  intros k g Hk Hge. rewrite (owner_of_view s' s g H). eauto.
Qed.

(** No subscript and no step of [reinit] stores a negative index. *)
Definition nonneg_index (s : GridBasedGrid) : Prop :=
  (forall g v, global_to_local s !! g = Some v -> 0 <= v) /\
  0 <= nlocalcells s /\ 0 <= nghostcells s.

Lemma nonneg_index_closed : update_closed nonneg_index.
Proof.
  split.
  - intros s i (H & Hl & Hg). repeat split; simpl; try lia.
    intros g v. destruct (decide (i = g)) as [->|Hne].
    + rewrite lookup_insert_eq. intros [= <-]. exact Hl.
    + rewrite lookup_insert_ne by exact Hne. apply H.
  - intros s i (H & Hl & Hg). repeat split; simpl; try lia.
    intros g v. destruct (decide (i = g)) as [->|Hne].
    + rewrite lookup_insert_eq. intros [= <-]. lia.
    + rewrite lookup_insert_ne by exact Hne. apply H.
  - intros s k H. exact H.
  - intros s k (H & Hl & Hg). repeat split; simpl; try lia.
    intros g v. rewrite map_subscript_lookup.
    destruct (global_to_local s !! g) as [w|] eqn:Hw.
    + intros [= <-]. eapply H, Hw.
    + case_decide; [intros [= <-]; lia|discriminate].
  - intros s x H. exact H.
  - intros s x H. exact H.
  - intros s x H. exact H.
Qed.

Lemma reinit_nonneg_index s : nonneg_index (reinit E s).2.
Proof.
  rewrite reinit_unfold. apply closed_reinit_body; [apply nonneg_index_closed|].
  repeat split; simpl; try lia. intros g v. rewrite lookup_empty. discriminate.
Qed.

Lemma reinit_indexed s s' : reinit E s = (Ok tt, s') -> indexed E s'.
Proof.
  intros Hrun. pose proof (reinit_nonneg_index s) as (Hv & _). rewrite Hrun in Hv.
  destruct (reinit_decomposed E s s' Hrun) as [Hnum Hlen Hnl Hng Hloc Hown Hex Hchk].
  split; auto.
  - intros k g Hk. apply Hnum, Hk.
  - intros g v Hg. right. pose proof (Hv g v Hg) as Hpos. split; [exact Hpos|].
    apply Hnum. rewrite Z2Nat.id by exact Hpos. exact Hg.
Qed.

Lemma indexed_idx_subscript k : preserved (indexed E) (neighbor_idx_subscript k).
Proof.
  intros s H. unfold neighbor_idx_subscript.
  destruct (map_subscript (neighbor_idx s) k) as [v m']. simpl.
  eapply indexed_view; [|exact H]. reflexivity.
Qed.

Lemma indexed_g2l_subscript k : preserved (indexed E) (global_to_local_subscript k).
Proof.
  intros s [I1 I2 I3 I4 I5]. rewrite global_to_local_subscript_run. simpl.
  split; simpl; auto.
  - intros i g Hi. rewrite map_subscript_lookup, (I1 i g Hi). reflexivity.
  - intros g v. rewrite map_subscript_lookup.
    destruct (global_to_local s !! g) as [w|] eqn:Hw.
    + intros [= <-]. apply I2, Hw.
    + case_decide; [intros [= <-]; auto|discriminate].
Qed.

Lemma indexed_run_call c : preserved (indexed E) (run_call E c).
Proof.
  assert (Hmu : forall s x, indexed E s -> indexed E (with_mu x s)).
  { intros s x H. eapply indexed_view; [|exact H]. reflexivity. }
  destruct c; simpl;
    unfold neighbor_rank, cell_neighbor_index, get_boundary_info,
      position_to_cell_index, position_to_neighidx, n_local_cells, command.
  all: repeat
         lazymatch goal with
         | |- preserved _ (neighbor_idx_subscript _) => apply indexed_idx_subscript
         | |- preserved _ (global_to_local_subscript _) => apply indexed_g2l_subscript
         | |- preserved _ _ => frame_step
         end; auto.
Qed.

Lemma preserved_hoare {A} (I : GridBasedGrid -> Prop) (m : M A) :
  preserved I m -> hoare I m (fun _ => I).
Proof. intros H s a s' Hs Hrun. specialize (H s Hs). rewrite Hrun in H. exact H. Qed.

(** A rejected [repartition] leaves the decomposition as it was. *)
Lemma repartition_false_view a net s s' :
  repartition E a net s = (Ok false, s') -> resolver_view s' = resolver_view s.
Proof.
  set (I := fun t => resolver_view t = resolver_view s).
  assert (Hraise : forall site t, I t -> I (with_raised (site :: raised t) t))
    by (intros site t H; exact H).
  assert (H : hoare I (repartition E a net) (fun b t => b = false -> I t)).
  { unfold repartition, undirected_neighbor_count, neighbor_allgather. cbv zeta.
    eapply hoare_bind;
      [apply preserved_hoare; repeat frame_step; assumption|intros nneigh].
    eapply hoare_bind; [apply preserved_hoare|intros r_p].
    { intros t Ht. rewrite center_of_load_state. exact Ht. }
    eapply hoare_bind;
      [apply preserved_hoare; repeat frame_step; assumption|intros lambda].
    eapply hoare_bind;
      [apply preserved_hoare; repeat frame_step; assumption|intros r].
    eapply hoare_bind; [apply preserved_hoare; repeat frame_step|intros gp].
    eapply hoare_bind; [apply preserved_hoare; repeat frame_step|intros m].
    eapply hoare_bind;
      [apply preserved_hoare; frame_step; assumption|intros u1].
    eapply hoare_bind; [apply preserved_hoare; repeat frame_step|intros old].
    eapply hoare_bind;
      [apply preserved_hoare; frame_step; assumption|intros u2].
    eapply hoare_bind; [apply preserved_hoare; repeat frame_step|intros gps].
    eapply hoare_bind;
      [apply preserved_hoare, preserved_ENSURE, Hraise|intros u3].
    eapply hoare_bind; [apply preserved_hoare; repeat frame_step|intros bb].
    destruct (0 <? _).
    - eapply hoare_weaken; [apply preserved_hoare| |].
      + apply preserved_bind; [apply preserved_ENSURE, Hraise|intros u4].
        repeat frame_step; assumption.
      + intros t Ht. exact Ht.
      + intros b t Ht _. exact Ht.
    - intros t b t' _ Hrun Hb. subst b.
      exfalso. apply (accept_not_false E a net t). fold (accept E a net) in Hrun.
      rewrite Hrun. reflexivity. }
  intros Hrun. exact (H s false s' eq_refl Hrun eq_refl).
Qed.

Theorem settled_indexed s : settled E s -> indexed E s.
Proof.
  induction 1 as [peers s Hc|c s Hs IH|a net s b s' Hs IH Hrun].
  - destruct (construct_reinit E peers s Hc) as [s1 H1]. exact (reinit_indexed s1 s H1).
  - apply indexed_run_call, IH.
  - destruct b.
    + destruct (repartition_true_reinit E a net s s' Hrun) as [s1 H1].
      exact (reinit_indexed s1 s' H1).
    + eapply indexed_view; [|exact IH]. eapply repartition_false_view, Hrun.
Qed.

End CellIndex.

Section CellIndexRun.

Context (E : Env).

Lemma map_subscript_fst s g : (map_subscript (global_to_local s) g).1 = local_index s g.
Proof.
  unfold map_subscript, local_index. destruct (global_to_local s !! g); reflexivity.
Qed.




End CellIndexRun.



(* ===================================================================== *)
(** ** repartition under a uniform load *)
(* ===================================================================== *)

(** Classes of binary64 values. *)
Definition is_zero_double (x : double) : bool :=
  match Prim2SF x with S754_zero _ => true | _ => false end.
Definition is_finite_double (x : double) : bool :=
  match Prim2SF x with S754_zero _ | S754_finite _ _ _ => true | _ => false end.
Definition is_minus_zero (x : double) : bool :=
  match Prim2SF x with S754_zero true => true | _ => false end.

Lemma mul_zero_l z x :
  is_zero_double z = true -> is_finite_double x = true -> is_zero_double (z * x)%float = true.
Proof.
  unfold is_zero_double, is_finite_double. rewrite mul_spec. unfold SF64mul, SFmul.
  destruct (Prim2SF z), (Prim2SF x); try discriminate; reflexivity.
Qed.



Lemma add_zero x z :
  is_zero_double z = true -> is_minus_zero x = false -> (x + z)%float = x.
Proof.
  unfold is_zero_double, is_minus_zero. intros Hz Hx. apply Prim2SF_inj.
  rewrite add_spec. unfold SF64add, SFadd.
  destruct (Prim2SF z) as [sz| | |]; try discriminate.
  destruct (Prim2SF x) as [[]| | |]; try discriminate; destruct sz; reflexivity.
Qed.

Section Uniform.

Context (E : Env).









End Uniform.

(** The corner rank [q] has before the call. *)
Definition w_corner (w : World) (q : Z) : Vec3d :=
  match vec_at w q with
  | Some p => gridpoint (pr_grid p)
  | None => vzero
  end.



(** Every rank holds the corners of all ranks. *)
Definition coherent (w : World) : Prop :=
  Forall (fun p => gridpoints (pr_grid p) = map (w_corner w) (seqZ 0 (Z.of_nat (length w)))) w.

Section UniformWorld.

Context (w : World).



(** What [accept] keeps when the corners are the ones gathered. *)
Definition corners_kept (gp : Vec3d) (t : GridBasedGrid) : Prop :=
  gridpoint t = gp /\ gridpoints t = w_gridpoints w /\ is_regular_grid t = false.

Lemma corners_kept_closed gp : update_closed (corners_kept gp).
Proof. split; intros; assumption. Qed.

Lemma corners_kept_accept q p :
  this_node (pr_env p) = q -> n_nodes (pr_env p) = Z.of_nat (length w) ->
  forall s1, gridpoint s1 = w_candidate w q -> gridpoints s1 = w_gridpoints w ->
  corners_kept (w_candidate w q) (accept (pr_env p) (pr_args p) (world_net w) s1).2.
Proof.
  intros Hq Hn s1 H1 H2. unfold accept.
  unfold bind at 1. unfold modify at 1.
  set (s2 := with_is_regular_grid false s1).
  assert (Hs2 : corners_kept (w_candidate w q) s2) by (repeat split; assumption).
  revert Hs2. generalize s2. clear s2. intros s2 Hs2.
  apply (preserved_bind (corners_kept (w_candidate w q))); [|intros u| exact Hs2].
  - unfold init_octagons. apply preserved_bind; [|intros u].
    + intros t (G1 & G2 & G3). repeat split; simpl; auto.
      rewrite G1. cbn [net_gridpoint_octagons world_net]. rewrite <- Hq.
      rewrite all_gather_consistent, Hn. reflexivity.
    + repeat frame_step; assumption.
  - apply preserved_bind; [|intros u'].
    + apply closed_run_calls, corners_kept_closed.
    + apply preserved_bind; [|intros u''; apply preserved_ret].
      intros t Ht. rewrite reinit_unfold.
      apply closed_reinit_body; [apply corners_kept_closed|exact Ht].
Qed.

End UniformWorld.



(** The two ranks of [env_two_ranks] on a grid of 8 x 2 x 2 cells: the
    subdomains are four cells wide. *)
Definition env_four_wide (rank : Z) : Env :=
  Regular.env true (mkVec3 4 4 4)%float (mkVec3 8 2 2) (mkVec3 2 1 1)
              (fun _ => 0%float) rank.

Definition four_wide_corners (q : Z) : Vec3d := initial_corner (env_four_wide q).

Definition four_wide_grid (rank : Z) : GridBasedGrid :=
  (construct (env_four_wide rank) four_wide_corners).2.

Definition four_wide_world : World :=
  [ mkProcess (env_four_wide 0) (four_wide_grid 0) unit_load;
    mkProcess (env_four_wide 1) (four_wide_grid 1) unit_load ].

Lemma four_wide_world_ok : world_ok four_wide_world.
Proof.
  intros q p H. pose proof (vec_at_Some_range _ _ _ H) as Hq. simpl in Hq.
  assert (Hcases : q = 0 \/ q = 1) by lia.
  destruct Hcases as [-> | ->]; injection H as <-.
  - split; [reflexivity|]. split; [reflexivity|]. split.
    + unfold topology_ok. simpl. lia.
    + apply reach_construct with (peers := four_wide_corners). vm_compute. reflexivity.
  - split; [reflexivity|]. split; [reflexivity|]. split.
    + unfold topology_ok. simpl. lia.
    + apply reach_construct with (peers := four_wide_corners). vm_compute. reflexivity.
Defined.

Lemma four_wide_world_coherent : coherent four_wide_world.
Proof. repeat constructor; vm_compute; reflexivity. Defined.

(** There the uniform load 1 is accepted, and [reinit] builds the cells and
    the exchange the construction built. *)
Example four_wide_world_accepts :
  world_conflicts four_wide_world = 0 /\
  map fst (world_repartition four_wide_world) = [Ok true; Ok true] /\
  map (fun o => cells o.2) (world_repartition four_wide_world) =
    map (fun p => cells (pr_grid p)) four_wide_world /\
  map (fun o => exchange_vec o.2) (world_repartition four_wide_world) =
    map (fun p => exchange_vec (pr_grid p)) four_wide_world.
Proof. vm_compute. repeat split; reflexivity. Qed.


(* ===================================================================== *)
(** ** util::linearize and util::unlinearize are inverse to each other *)
(* ===================================================================== *)

(** X1: for a grid with positive extents on the last two axes and an index
    [cidx >= 0], [unlinearize] gives coordinates that are not negative and
    are below the extent on the last two axes, and [linearize] takes them
    back to [cidx]; no partial result of [linearize] leaves [0, cidx], so the
    round trip does not overflow an integer type that holds [cidx]. *)
Theorem linearize_unlinearize (cidx : Z) (grid : Vec3i) :
  0 < c1 grid -> 0 < c2 grid -> 0 <= cidx ->
  let c := unlinearize cidx grid in
  0 <= c0 c /\ 0 <= c1 c < c1 grid /\ 0 <= c2 c < c2 grid /\
  0 <= c0 c * c1 grid <= cidx /\
  0 <= c0 c * c1 grid + c1 c <= cidx /\
  0 <= (c0 c * c1 grid + c1 c) * c2 grid <= cidx /\
  linearize c grid = cidx.
Proof.
  intros H1 H2 Hc. unfold unlinearize, linearize. cbn [c0 c1 c2].
  set (q := Z.quot cidx (c2 grid)).
  assert (Hq : 0 <= q) by (apply Z.quot_pos; lia).
  pose proof (Z.quot_rem' cidx (c2 grid)) as E2. fold q in E2.
  pose proof (Z.quot_rem' q (c1 grid)) as E1.
  pose proof (Z.rem_bound_pos cidx (c2 grid) Hc H2) as B2.
  pose proof (Z.rem_bound_pos q (c1 grid) Hq H1) as B1.
  assert (Hqq : 0 <= Z.quot q (c1 grid)) by (apply Z.quot_pos; lia).
  assert (P1 : 0 <= Z.quot q (c1 grid) * c1 grid) by (apply Z.mul_nonneg_nonneg; lia).
  assert (P2 : 0 <= q * c2 grid) by (apply Z.mul_nonneg_nonneg; lia).
  assert (Hsum : Z.quot q (c1 grid) * c1 grid + Z.rem q (c1 grid) = q) by lia.
  rewrite Hsum.
  assert (Hqle : q <= cidx) by nia.
  repeat split; try lia.
Qed.

Lemma linearize_unlinearize_witness :
  let c := unlinearize 23 (mkVec3 2 3 4) in
  0 <= c0 c /\ 0 <= c1 c < 3 /\ 0 <= c2 c < 4 /\
  0 <= c0 c * 3 <= 23 /\
  0 <= c0 c * 3 + c1 c <= 23 /\
  0 <= (c0 c * 3 + c1 c) * 4 <= 23 /\
  linearize c (mkVec3 2 3 4) = 23.
Proof.
  apply (linearize_unlinearize 23 (mkVec3 2 3 4)); simpl; lia.
Defined.



(* ===================================================================== *)
(** ** push_back_unique *)
(* ===================================================================== *)

(** X3: [push_back_unique(v, el)] keeps the elements of [v] where they are
    and appends at most [el]; afterwards [el] is in [v]; a vector without
    duplicates stays without; a second call with the same element changes
    nothing; an element already in [v] leaves [v] as it is, and one that is
    not makes it one longer. *)
Theorem push_back_unique_spec (v : list Z) (el : Z) :
  v `prefix_of` push_back_unique v el /\
  el ∈ push_back_unique v el /\
  (forall x, x ∈ push_back_unique v el -> x ∈ v \/ x = el) /\
  (NoDup v -> NoDup (push_back_unique v el)) /\
  push_back_unique (push_back_unique v el) el = push_back_unique v el /\
  (el ∈ v -> push_back_unique v el = v) /\
  (el ∉ v -> length (push_back_unique v el) = S (length v)).
Proof.
  unfold push_back_unique. destruct (decide (el ∈ v)) as [Hin|Hnin].
  - repeat split; auto.
    + rewrite decide_True by exact Hin. reflexivity.
    + intros H. contradiction.
  - assert (Hel : el ∈ v ++ [el]) by (apply elem_of_app; right; apply list_elem_of_singleton; reflexivity).
    repeat split.
    + exists [el]. reflexivity.
    + exact Hel.
    + intros x Hx. apply elem_of_app in Hx as [Hx|Hx]; [auto|].
      apply list_elem_of_singleton in Hx. auto.
    + intros Hnd. apply NoDup_snoc_fresh; assumption.
    + rewrite decide_True by exact Hel. reflexivity.
    + intros H. contradiction.
    + intros _. rewrite length_app. simpl. lia.
Qed.

(* ===================================================================== *)
(** ** The neighbour tables *)
(* ===================================================================== *)

(** The coordinates [MPI_Cart_get] reports for the caller are those of its
    rank. *)
Definition cart_consistent (E : Env) : Prop :=
  (forall d, 0 <= vget (cart_coords E) d < vget (cart_dims E) d) /\
  MPI_Cart_rank (cart_dims E) (cart_coords E) = this_node E.

Section NeighbourTables.

Context (E : Env).

Lemma neigh_rank_centre :
  cart_consistent E -> neigh_rank E (mkVec3 0 0 0) = this_node E.
Proof.
  intros [Hc Hr]. unfold neigh_rank, neigh_wrap. cbn [vget c0 c1 c2].
  pose proof (Hc ax0) as H0. pose proof (Hc ax1) as H1. pose proof (Hc ax2) as H2.
  cbn [vget] in H0, H1, H2. rewrite !Z.add_0_r.
  repeat match goal with
         | |- context [?a <? 0] => destruct (Z.ltb_spec a 0); [lia|]
         | |- context [?a =? ?b] => destruct (Z.eqb_spec a b); [lia|]
         end.
  rewrite <- Hr. destruct (cart_coords E). reflexivity.
Qed.

(** A list without duplicates of ranks other than the caller's, each the rank
    at one of the offsets [offs], the centre among them, is shorter than
    [offs]. *)
Lemma stencil_bound (l : list Z) (offs : list Vec3i) :
  cart_consistent E -> NoDup l -> mkVec3 0 0 0 ∈ offs ->
  (forall r, r ∈ l -> r <> this_node E /\ exists off, off ∈ offs /\ r = neigh_rank E off) ->
  (S (length l) <= length offs)%nat.
Proof.
  intros Hc Hnd H0 Hl.
  assert (Hsub : (this_node E :: l) ⊆+ map (neigh_rank E) offs).
  { apply NoDup_submseteq.
    - apply NoDup_cons. split; [|exact Hnd]. intros H. apply Hl in H as [H _]. congruence.
    - intros x Hx. apply elem_of_cons in Hx as [->|Hx].
      + rewrite <- (neigh_rank_centre Hc). apply list_elem_of_fmap_2, H0.
      + apply Hl in Hx as (_ & off & Ho & ->). apply list_elem_of_fmap_2, Ho. }
  apply submseteq_length in Hsub. rewrite length_map in Hsub. exact Hsub.
Qed.

End NeighbourTables.

(** X4: in every state of a grid [n_neighbors()] is at most 26, and for every
    [i] below it [neighbor_rank(i)] is a rank other than the caller's, at one
    of the offsets {-1,0,1}^3 from it, that [neighbor_idx] takes back to [i]
    and that no other index has; the graph communicator has between 1 and 8
    sources, so the normaliser of [repartition] never divides by a zero
    count. *)
Theorem neighbor_tables (E : Env) (s : GridBasedGrid) :
  rank_ok E -> cart_consistent E -> reachable E s ->
  let n := Z.of_nat (length (neighbor_ranks s)) in
  n_neighbors s = (Ok n, s) /\ n <= 26 /\
  (forall i, 0 <= i < n ->
     exists r, neighbor_rank i s = (Ok r, s) /\ r <> this_node E /\
       (exists off, off ∈ offsets [-1; 0; 1] /\ r = neigh_rank E off) /\
       neighbor_idx s !! r = Some i /\
       (forall j, (neighbor_rank j s).1 = Ok r -> j = i)) /\
  (exists k, undirected_neighbor_count s = (Ok k, s) /\ 1 <= k <= 8).
Proof.
  intros Hrank Hcart Hreach n.
  destruct (reachable_inv E s Hrank Hreach) as [_ Hcomm Hranks Hidx _ _].
  destruct (neigh_loop_inv E) as [Hsn _ Hrn Hs _ Hr _ _].
  assert (Hoffs : length (offsets [-1; 0; 1]) = 27%nat) by reflexivity.
  assert (Hzero : mkVec3 0 0 0 ∈ offsets [-1; 0; 1]).
  { apply elem_of_offsets. cbn [c0 c1 c2]. repeat split; apply list_elem_of_In; simpl; auto. }
  split; [reflexivity|]. split.
  { pose proof (stencil_bound E (nl_ranks (neigh_loop E)) _ Hcart Hrn Hzero) as Hb.
    rewrite Hoffs in Hb. unfold n. rewrite Hranks.
    assert (S (length (nl_ranks (neigh_loop E))) <= 27)%nat; [|lia].
    apply Hb. intros r Hin. apply Hr, Hin. }
  split.
  - intros i Hi.
    destruct (lookup_lt_is_Some_2 (neighbor_ranks s) (Z.to_nat i)) as [r Hlk]; [lia|].
    exists r.
    assert (Hrun : forall j, neighbor_rank j s = (match vec_at (neighbor_ranks s) j with
                                                  | Some x => Ok x
                                                  | None => Throw bad_index
                                                  end, s)).
    { intros j. unfold neighbor_rank, bind, gets, lift_opt.
      destruct (vec_at (neighbor_ranks s) j); reflexivity. }
    assert (Hat : vec_at (neighbor_ranks s) i = Some r).
    { unfold vec_at. destruct (Z.ltb_spec i 0); [lia|exact Hlk]. }
    assert (Hin : r ∈ nl_ranks (neigh_loop E)).
    { rewrite <- Hranks. apply list_elem_of_lookup. eauto. }
    apply Hr in Hin as [Hne Hoff].
    split; [rewrite Hrun, Hat; reflexivity|].
    split; [exact Hne|]. split; [exact Hoff|].
    split; [rewrite (Hidx _ _ Hlk); f_equal; lia|].
    intros j Hj. rewrite Hrun in Hj. cbn [fst] in Hj.
    destruct (vec_at (neighbor_ranks s) j) as [x|] eqn:Hx; [|discriminate].
    injection Hj as ->. unfold vec_at in Hx.
    destruct (Z.ltb_spec j 0); [discriminate|].
    rewrite Hranks in Hx, Hlk.
    pose proof (NoDup_lookup _ _ _ _ Hrn Hx Hlk). lia.
  - exists (Z.of_nat (length (nl_source (neigh_loop E))) + 1). split.
    + unfold undirected_neighbor_count, bind, gets, ret. rewrite Hcomm.
      cbn [sources]. rewrite length_app. simpl. do 2 f_equal. lia.
    + assert (Hz : mkVec3 0 0 0 ∈ filter (fun o => all_ge0 o = true) (offsets [-1; 0; 1])).
      { apply list_elem_of_filter. split; [reflexivity|exact Hzero]. }
      pose proof (stencil_bound E (nl_source (neigh_loop E)) _ Hcart Hsn Hz) as Hb.
      assert (Hlen : length (filter (fun o => all_ge0 o = true) (offsets [-1; 0; 1])) = 8%nat)
        by reflexivity.
      rewrite Hlen in Hb.
      assert (S (length (nl_source (neigh_loop E))) <= 8)%nat; [|lia].
      apply Hb. intros r Hin. apply Hs in Hin as (Hne & off & Ho & Hge & ->).
      split; [exact Hne|]. exists off. split; [|reflexivity].
      apply list_elem_of_filter. split; assumption.
Qed.

Lemma two_ranks_cart_consistent : cart_consistent (env_two_ranks 0).
Proof.
  split; [|reflexivity]. intros d. destruct d; vm_compute; split; congruence.
Defined.

Lemma neighbor_tables_witness :
  let E := env_two_ranks 0 in
  let s := two_ranks_grid 0 in
  let n := Z.of_nat (length (neighbor_ranks s)) in
  n_neighbors s = (Ok n, s) /\ n <= 26 /\
  (forall i, 0 <= i < n ->
     exists r, neighbor_rank i s = (Ok r, s) /\ r <> this_node E /\
       (exists off, off ∈ offsets [-1; 0; 1] /\ r = neigh_rank E off) /\
       neighbor_idx s !! r = Some i /\
       (forall j, (neighbor_rank j s).1 = Ok r -> j = i)) /\
  (exists k, undirected_neighbor_count s = (Ok k, s) /\ 1 <= k <= 8).
Proof.
  apply (neighbor_tables (env_two_ranks 0) (two_ranks_grid 0)).
  - exact two_ranks_rank_ok_0.
  - exact two_ranks_cart_consistent.
  - exact two_ranks_reachable_0.
Defined.

(* ===================================================================== *)
(** ** bounding_box and init_octagons *)
(* ===================================================================== *)

Lemma linearize_unlinearize_eq (r : Z) (grid : Vec3i) :
  linearize (unlinearize r grid) grid = r.
Proof.
  unfold linearize, unlinearize. cbn [c0 c1 c2].
  pose proof (Z.quot_rem' r (c2 grid)) as E2.
  pose proof (Z.quot_rem' (Z.quot r (c2 grid)) (c1 grid)) as E1.
  lia.
Qed.

Section Octagons.

Context (E : Env).

(** The corner at the offset (0,0,0). *)
Lemma bb_corner_own gps r gp :
  0 <= c0 (unlinearize r (cart_dims E)) ->
  0 <= c1 (unlinearize r (cart_dims E)) ->
  0 <= c2 (unlinearize r (cart_dims E)) ->
  vec_at gps r = Some gp ->
  bb_corner E gps (MPI_Cart_coords (cart_dims E) r) (mkVec3 0 0 0) =
  Some (mkVec3 (c0 gp + 0 * c0 (box_l E)) (c1 gp + 0 * c1 (box_l E))
               (c2 gp + 0 * c2 (box_l E)))%float.
Proof.
  intros H0 H1 H2 Hgp. unfold bb_corner, bb_wrap, MPI_Cart_coords, MPI_Cart_rank.
  cbn [vget c0 c1 c2]. rewrite !Z.sub_0_r.
  destruct (Z.ltb_spec (c0 (unlinearize r (cart_dims E))) 0); [lia|].
  destruct (Z.ltb_spec (c1 (unlinearize r (cart_dims E))) 0); [lia|].
  destruct (Z.ltb_spec (c2 (unlinearize r (cart_dims E))) 0); [lia|].
  cbn [fst snd].
  replace (mkVec3 (c0 (unlinearize r (cart_dims E))) (c1 (unlinearize r (cart_dims E)))
                  (c2 (unlinearize r (cart_dims E))))
    with (unlinearize r (cart_dims E)) by (destruct (unlinearize r (cart_dims E)); reflexivity).
  rewrite linearize_unlinearize_eq, Hgp. reflexivity.
Qed.

Lemma add_zero_product x l :
  is_finite_double l = true -> is_minus_zero x = false -> (x + 0 * l)%float = x.
Proof.
  intros Hl Hx. apply add_zero; [|exact Hx]. apply mul_zero_l; [reflexivity|exact Hl].
Qed.

(** The loop of [init_octagons] over the neighbours. *)
Lemma octagon_loop_run (ranks : list Z) (s : GridBasedGrid) :
  Forall (fun r => is_Some (bounding_box_of E (gridpoints s) r)) ranks ->
  exists doms,
    for_each ranks (fun r =>
      bb <- bounding_box E r ;;
      modify (fun s => with_neighbor_doms (neighbor_doms s ++ [bb]) s))%meth s
    = (Ok tt, with_neighbor_doms (neighbor_doms s ++ doms) s) /\
    Forall2 (fun r dom => bounding_box_of E (gridpoints s) r = Some dom) ranks doms.
Proof.
  revert s. induction ranks as [|r ranks IH]; intros s Hall.
  - exists []. split; [|constructor]. simpl. rewrite app_nil_r.
    destruct s. reflexivity.
  - apply Forall_cons in Hall as [[bb Hbb] Hall].
    cbn [for_each]. unfold bind at 1. unfold bind at 1.
    rewrite bounding_box_run, Hbb. unfold modify at 1.
    set (s1 := with_neighbor_doms (neighbor_doms s ++ [bb]) s).
    destruct (IH s1 Hall) as (doms & Hrun & Hdoms).
    exists (bb :: doms). split.
    + rewrite Hrun. unfold s1. cbn [neighbor_doms with_neighbor_doms].
      rewrite <- app_assoc. reflexivity.
    + constructor; assumption.
Qed.

End Octagons.

(** X5: with a grid point from every rank in [gridpoints], [bounding_box(r)]
    of a rank [r] of the job reads inside the vector, leaves the object as it
    is and returns eight corners; the first of them is the grid point of [r]
    itself when the box lengths are finite and the point has no coordinate
    [-0.0]. *)
Theorem bounding_box_corners (E : Env) (s : GridBasedGrid) (r : Z) :
  topology_ok E -> 0 <= r < n_nodes E ->
  length (gridpoints s) = Z.to_nat (n_nodes E) ->
  exists bb gp,
    bounding_box E r s = (Ok bb, s) /\ length bb = 8%nat /\
    vec_at (gridpoints s) r = Some gp /\
    ((forall d, is_finite_double (vget (box_l E) d) = true /\
                is_minus_zero (vget gp d) = false) ->
     bb !! 0%nat = Some gp).
Proof.
  intros Ht Hr Hlen.
  destruct (bounding_box_of_ok E (gridpoints s) r Ht Hr Hlen) as [bb Hbb].
  destruct (vec_at_is_Some (gridpoints s) r) as [gp Hgp]; [lia|].
  exists bb, gp. rewrite bounding_box_run, Hbb.
  split; [reflexivity|].
  unfold bounding_box_of in Hbb.
  split; [apply length_mapM in Hbb; rewrite <- Hbb; reflexivity|].
  split; [exact Hgp|]. intros Hfl.
  apply mapM_Some_1 in Hbb.
  destruct Ht as (T0 & T1 & T2 & Tn).
  destruct (unlinearize_range r (cart_dims E) T0 T1 T2) as (U0 & U1 & U2); [lia|].
  change (offsets [0; 1]) with (mkVec3 0 0 0 :: tl (offsets [0; 1])) in Hbb.
  inversion Hbb as [|o y l k Hy Hrest]; subst. unfold compose in Hy.
  rewrite (bb_corner_own E (gridpoints s) r gp) in Hy by (try exact Hgp; lia).
  injection Hy as <-. cbn [lookup list_lookup]. f_equal.
  destruct (Hfl ax0) as [L0 G0]. destruct (Hfl ax1) as [L1 G1].
  destruct (Hfl ax2) as [L2 G2]. cbn [vget] in *.
  rewrite !add_zero_product by assumption. destruct gp. reflexivity.
Qed.

Lemma bounding_box_corners_witness :
  exists bb gp,
    bounding_box (env_two_ranks 0) 0 (two_ranks_grid 0) = (Ok bb, two_ranks_grid 0) /\
    length bb = 8%nat /\
    vec_at (gridpoints (two_ranks_grid 0)) 0 = Some gp /\
    ((forall d, is_finite_double (vget (box_l (env_two_ranks 0)) d) = true /\
                is_minus_zero (vget gp d) = false) ->
     bb !! 0%nat = Some gp).
Proof.
  apply (bounding_box_corners (env_two_ranks 0) (two_ranks_grid 0) 0).
  - unfold topology_ok. simpl. lia.
  - simpl. lia.
  - vm_compute. reflexivity.
Defined.

(** The run of [init_octagons]. *)
Lemma init_octagons_run (E : Env) (peers : Z -> Vec3d) (s : GridBasedGrid) :
  topology_ok E -> rank_ok E ->
  Forall (fun r => 0 <= r < n_nodes E) (neighbor_ranks s) ->
  exists dom doms,
    let gps := all_gather E peers (gridpoint s) in
    init_octagons E peers s
      = (Ok tt, with_neighbor_doms doms (with_my_dom dom (with_gridpoints gps s))) /\
    length gps = Z.to_nat (n_nodes E) /\
    vec_at gps (this_node E) = Some (gridpoint s) /\
    bounding_box_of E gps (this_node E) = Some dom /\
    Forall2 (fun r d => bounding_box_of E gps r = Some d) (neighbor_ranks s) doms.
Proof.
  intros Ht Hr Hranks.
  set (gps := all_gather E peers (gridpoint s)).
  assert (Hlen : length gps = Z.to_nat (n_nodes E)) by apply all_gather_length.
  destruct (bounding_box_of_ok E gps (this_node E) Ht Hr Hlen) as [dom Hdom].
  set (s1 := with_neighbor_doms [] (with_my_dom dom (with_gridpoints gps s))).
  destruct (octagon_loop_run E (neighbor_ranks s) s1) as (doms & Hrun & Hdoms).
  { eapply Forall_impl; [exact Hranks|]. intros r Hrr.
    apply bounding_box_of_ok; assumption. }
  exists dom, doms. cbv zeta. fold gps.
  split; [|split; [exact Hlen|split; [apply all_gather_own, Hr|split; [exact Hdom|exact Hdoms]]]].
  rewrite init_octagons_unfold. fold gps. unfold build_octagons.
  unfold bind at 1. rewrite bounding_box_run.
  cbn [gridpoints with_gridpoints]. rewrite Hdom.
  unfold bind at 1. unfold modify at 1.
  unfold bind at 1. unfold modify at 1.
  unfold bind at 1. unfold gets at 1.
  cbn [neighbor_ranks with_neighbor_doms with_my_dom with_gridpoints].
  fold s1. rewrite Hrun. reflexivity.
Qed.

(** X6: when [neighbor_ranks] holds ranks of the job, [init_octagons] returns
    and writes three members only: [gridpoints] becomes the gathering of the
    grid points of all ranks, the caller's own at its rank; [my_dom] becomes
    the bounding box of the caller; [neighbor_doms] is cleared and gets one
    bounding box per entry of [neighbor_ranks], in the order of that
    vector. *)
Theorem init_octagons_builds (E : Env) (peers : Z -> Vec3d) (s : GridBasedGrid) :
  topology_ok E -> rank_ok E ->
  Forall (fun r => 0 <= r < n_nodes E) (neighbor_ranks s) ->
  exists dom doms,
    let gps := all_gather E peers (gridpoint s) in
    init_octagons E peers s
      = (Ok tt, with_neighbor_doms doms (with_my_dom dom (with_gridpoints gps s))) /\
    length gps = Z.to_nat (n_nodes E) /\
    vec_at gps (this_node E) = Some (gridpoint s) /\
    bounding_box_of E gps (this_node E) = Some dom /\
    Forall2 (fun r d => bounding_box_of E gps r = Some d) (neighbor_ranks s) doms.
Proof. exact (init_octagons_run E peers s). Qed.

Lemma init_octagons_builds_witness :
  exists dom doms,
    let gps := all_gather (env_two_ranks 0) two_ranks_corners
                 (gridpoint (two_ranks_grid 0)) in
    init_octagons (env_two_ranks 0) two_ranks_corners (two_ranks_grid 0)
      = (Ok tt, with_neighbor_doms doms
                  (with_my_dom dom (with_gridpoints gps (two_ranks_grid 0)))) /\
    length gps = Z.to_nat (n_nodes (env_two_ranks 0)) /\
    vec_at gps (this_node (env_two_ranks 0)) = Some (gridpoint (two_ranks_grid 0)) /\
    bounding_box_of (env_two_ranks 0) gps (this_node (env_two_ranks 0)) = Some dom /\
    Forall2 (fun r d => bounding_box_of (env_two_ranks 0) gps r = Some d)
      (neighbor_ranks (two_ranks_grid 0)) doms.
Proof.
  apply (init_octagons_builds (env_two_ranks 0) two_ranks_corners (two_ranks_grid 0)).
  - unfold topology_ok. simpl. lia.
  - exact two_ranks_rank_ok_0.
  - vm_compute. repeat constructor; congruence.
Defined.

(* ===================================================================== *)
(** ** position_to_rank *)
(* ===================================================================== *)

Section Resolver.

Context (E : Env).

(** The scan over the octagons of the neighbours, started at the entry [i]. *)
Lemma scan_neighbor_doms_spec (ranks : list Z) (doms : list Octagon) (i : nat) (mp : Vec3d) :
  (i + length ranks <= length doms)%nat ->
  match scan_neighbor_doms E ranks doms i mp with
  | Ok r =>
      exists k dom, ranks !! k = Some r /\ doms !! (i + k)%nat = Some dom /\
        contains E dom mp = true /\
        forall j dom', (j < k)%nat -> doms !! (i + j)%nat = Some dom' ->
                       contains E dom' mp = false
  | Throw e =>
      e = runtime_error_position_unknown /\
      forall j dom', (j < length ranks)%nat -> doms !! (i + j)%nat = Some dom' ->
                     contains E dom' mp = false
  end.
Proof.
  revert i. induction ranks as [|r ranks IH]; intros i Hlen; simpl.
  - split; [reflexivity|]. intros j dom' Hj. lia.
  - simpl in Hlen.
    destruct (lookup_lt_is_Some_2 doms i) as [dom Hdom]; [lia|]. rewrite Hdom.
    destruct (contains E dom mp) eqn:Hc.
    + exists 0%nat, dom. rewrite Nat.add_0_r. repeat split; auto. intros j dom' Hj. lia.
    + specialize (IH (S i)). 
      destruct (scan_neighbor_doms E ranks doms (S i) mp) as [r'|e].
      * destruct IH as (k & dom' & Hk & Hd & Hcd & Hbefore); [lia|].
        exists (S k), dom'. replace (i + S k)%nat with (S i + k)%nat by lia.
        repeat split; auto. intros j d Hj Hd'.
        destruct j as [|j].
        -- rewrite Nat.add_0_r in Hd'. congruence.
        -- apply (Hbefore j); [lia|]. replace (S i + j)%nat with (i + S j)%nat by lia.
           exact Hd'.
      * destruct IH as [-> Hall]; [lia|]. split; [reflexivity|].
        intros j d Hj Hd'. destruct j as [|j].
        -- rewrite Nat.add_0_r in Hd'. congruence.
        -- apply (Hall j); [lia|]. replace (S i + j)%nat with (i + S j)%nat by lia.
           exact Hd'.
Qed.

End Resolver.

(** X7: once the grid is no longer regular and there is an octagon for every
    neighbour, [position_to_rank(pos)] decides by the midpoint [mp] of the
    cell of [pos] and does not change the object.  It returns the caller's
    rank if [my_dom] contains [mp]; otherwise the rank of the first
    neighbour, in the order of [neighbor_ranks], whose octagon contains [mp];
    it throws the runtime error of an unknown position exactly when no
    octagon of these contains [mp], and it throws nothing else.  So it never
    returns a rank that is neither the caller's nor a neighbour's. *)
Theorem position_to_rank_irregular (E : Env) (s : GridBasedGrid) (pos : Vec3d) :
  is_regular_grid s = false ->
  (length (neighbor_ranks s) <= length (neighbor_doms s))%nat ->
  let mp := gb_midpoint (gbox E) (gb_cell_at_pos (gbox E) pos) in
  let out := position_to_rank E pos s in
  out.2 = s /\
  (contains E (my_dom s) mp = true -> out.1 = Ok (this_node E)) /\
  (forall r, out.1 = Ok r ->
     (r = this_node E /\ contains E (my_dom s) mp = true) \/
     (contains E (my_dom s) mp = false /\
      exists k dom, neighbor_ranks s !! k = Some r /\ neighbor_doms s !! k = Some dom /\
        contains E dom mp = true /\
        forall j dom', (j < k)%nat -> neighbor_doms s !! j = Some dom' ->
                       contains E dom' mp = false)) /\
  (forall e, out.1 = Throw e ->
     e = runtime_error_position_unknown /\
     contains E (my_dom s) mp = false /\
     forall j dom', (j < length (neighbor_ranks s))%nat ->
                    neighbor_doms s !! j = Some dom' -> contains E dom' mp = false).
Proof.
  intros Hreg Hlen mp out. unfold out, position_to_rank. cbn [fst snd]. fold mp.
  unfold resolve_midpoint. rewrite Hreg.
  split; [reflexivity|].
  destruct (contains E (my_dom s) mp) eqn:Hown.
  - split; [reflexivity|]. split.
    + intros r [= <-]. left. auto.
    + intros e He. discriminate.
  - split; [discriminate|].
    pose proof (scan_neighbor_doms_spec E (neighbor_ranks s) (neighbor_doms s) 0 mp) as Hscan.
    destruct (scan_neighbor_doms E (neighbor_ranks s) (neighbor_doms s) 0 mp) as [r'|e'].
    + destruct Hscan as (k & dom & Hk & Hd & Hc & Hbefore); [simpl; lia|].
      split; [|intros e He; discriminate].
      intros r [= <-]. right. split; [reflexivity|]. exists k, dom. auto.
    + destruct Hscan as [-> Hall]; [simpl; lia|].
      split; [intros r Hr; discriminate|].
      intros e [= <-]. auto.
Qed.

(** Rank 0 of [four_wide_world] after the accepted call. *)
Definition four_wide_repartitioned : GridBasedGrid :=
  (repartition (env_four_wide 0) unit_load (world_net four_wide_world) (four_wide_grid 0)).2.

Lemma position_to_rank_irregular_witness :
  let E := env_four_wide 0 in
  let s := four_wide_repartitioned in
  let pos := (mkVec3 3.5 0.5 0.5)%float in
  let mp := gb_midpoint (gbox E) (gb_cell_at_pos (gbox E) pos) in
  let out := position_to_rank E pos s in
  out.2 = s /\
  (contains E (my_dom s) mp = true -> out.1 = Ok (this_node E)) /\
  (forall r, out.1 = Ok r ->
     (r = this_node E /\ contains E (my_dom s) mp = true) \/
     (contains E (my_dom s) mp = false /\
      exists k dom, neighbor_ranks s !! k = Some r /\ neighbor_doms s !! k = Some dom /\
        contains E dom mp = true /\
        forall j dom', (j < k)%nat -> neighbor_doms s !! j = Some dom' ->
                       contains E dom' mp = false)) /\
  (forall e, out.1 = Throw e ->
     e = runtime_error_position_unknown /\
     contains E (my_dom s) mp = false /\
     forall j dom', (j < length (neighbor_ranks s))%nat ->
                    neighbor_doms s !! j = Some dom' -> contains E dom' mp = false).
Proof.
  apply (position_to_rank_irregular (env_four_wide 0) four_wide_repartitioned
           (mkVec3 3.5 0.5 0.5)%float).
  - vm_compute. reflexivity.
  - vm_compute. lia.
Defined.

(* ===================================================================== *)
(** ** Invariants of the neighbour tables in every state *)
(* ===================================================================== *)

(** [I] does not read the members that hold the geometry, and holds again
    after the members of the decomposition are cleared. *)
Record corner_blind (I : GridBasedGrid -> Prop) : Prop := {
  cb_gridpoint : forall s x, I s -> I (with_gridpoint x s);
  cb_gridpoints : forall s x, I s -> I (with_gridpoints x s);
  cb_regular : forall s x, I s -> I (with_is_regular_grid x s);
  cb_my_dom : forall s x, I s -> I (with_my_dom x s);
  cb_neighbor_doms : forall s x, I s -> I (with_neighbor_doms x s);
  cb_cleared : forall s, I s -> I (cleared s)
}.

Section EveryState.

Context (E : Env) (I : GridBasedGrid -> Prop).

Lemma blind_init_octagons peers : corner_blind I -> preserved I (init_octagons E peers).
Proof.
  intros [B1 B2 B3 B4 B5 B6].
  unfold init_octagons. repeat frame_step; auto.
Qed.

Lemma blind_reinit : update_closed I -> corner_blind I -> preserved I (reinit E).
Proof.
  intros Hc Hb s H. rewrite reinit_unfold.
  apply closed_reinit_body; [exact Hc|]. apply (cb_cleared I Hb), H.
Qed.

Lemma blind_repartition a net :
  update_closed I -> corner_blind I -> preserved I (repartition E a net).
Proof.
  intros Hc Hb.
  pose proof (cb_gridpoint I Hb) as B1. pose proof (cb_gridpoints I Hb) as B2.
  pose proof (cb_regular I Hb) as B3. pose proof (uc_raised I Hc) as B4.
  unfold repartition, undirected_neighbor_count, neighbor_allgather. cbv zeta.
  apply preserved_bind; [repeat frame_step|intros nneigh].
  apply preserved_bind; [|intros r_p].
  { intros t Ht. rewrite center_of_load_state. exact Ht. }
  apply preserved_bind; [repeat frame_step|intros lambda].
  apply preserved_bind; [repeat frame_step|intros r].
  apply preserved_bind; [frame_step|intros gp].
  apply preserved_bind; [frame_step|intros m].
  apply preserved_bind; [frame_step; auto|intros u1].
  apply preserved_bind; [frame_step|intros old].
  apply preserved_bind; [frame_step; auto|intros u2].
  apply preserved_bind; [frame_step|intros gps].
  apply preserved_bind; [frame_step; auto|intros u3].
  apply preserved_bind; [frame_step|intros bb].
  apply preserved_if.
  - repeat frame_step; auto.
  - apply preserved_bind; [frame_step; auto|intros u4].
    apply preserved_bind; [apply blind_init_octagons, Hb|intros u5].
    apply preserved_bind; [apply closed_run_calls, Hc|intros u6].
    apply preserved_bind; [apply blind_reinit; assumption|intros u7].
    apply preserved_ret.
Qed.

(** An invariant of this kind that [init_neighbors] establishes holds in
    every state of a grid. *)
Lemma reachable_blind :
  update_closed I -> corner_blind I -> (forall s, I (init_neighbors E s).2) ->
  forall s, reachable E s -> I s.
Proof.
  intros Hc Hb Hinit s Hreach.
  induction Hreach as [peers s Hrun|c s Hs IH|a net s Hs IH].
  - unfold construct in Hrun. apply bind_ok in Hrun as ([] & s1 & H1 & H2).
    replace s with (reinit E s1).2 by (rewrite H2; reflexivity).
    apply blind_reinit; [assumption|assumption|].
    unfold init_partitioning in H1.
    apply bind_ok in H1 as ([] & s2 & _ & H1).
    apply bind_ok in H1 as ([] & s3 & _ & H1).
    apply bind_ok in H1 as ([] & s4 & H4 & H1).
    replace s1 with (init_octagons E peers s4).2 by (rewrite H1; reflexivity).
    apply blind_init_octagons; [exact Hb|].
    replace s4 with (init_neighbors E s3).2 by (rewrite H4; reflexivity).
    apply Hinit.
  - apply closed_run_call; assumption.
  - apply blind_repartition; assumption.
Qed.

End EveryState.

(** A key of [neighbor_idx] is a neighbour with its place in
    [neighbor_ranks], or it was inserted by a subscript and has the value 0. *)
Definition idx_tidy (s : GridBasedGrid) : Prop :=
  forall r v, neighbor_idx s !! r = Some v ->
    v = 0 \/ exists i, neighbor_ranks s !! i = Some r /\ v = Z.of_nat i.

Lemma idx_tidy_closed : update_closed idx_tidy.
Proof.
  split.
  - intros s i H. exact H.
  - intros s g H. exact H.
  - intros s k H r v. cbn [neighbor_idx neighbor_ranks with_neighbor_idx].
    rewrite map_subscript_lookup.
    destruct (neighbor_idx s !! r) as [w|] eqn:Hw.
    + intros [= <-]. apply H, Hw.
    + case_decide; [intros [= <-]; auto|discriminate].
  - intros s k H. exact H.
  - intros s x H. exact H.
  - intros s x H. exact H.
  - intros s x H. exact H.
Qed.

Lemma idx_tidy_blind : corner_blind idx_tidy.
Proof. split; intros; assumption. Qed.

Lemma idx_tidy_reachable (E : Env) (s : GridBasedGrid) : reachable E s -> idx_tidy s.
Proof.
  apply (reachable_blind E idx_tidy idx_tidy_closed idx_tidy_blind).
  intros s0 r v Hv. right.
  assert (Hidx : neighbor_idx (init_neighbors E s0).2 = nl_idx (neigh_loop E)) by reflexivity.
  assert (Hrk : neighbor_ranks (init_neighbors E s0).2 = nl_ranks (neigh_loop E)) by reflexivity.
  rewrite Hidx in Hv. rewrite Hrk.
  destruct (neigh_loop_inv E) as [_ _ _ _ _ _ _ Hi]. apply Hi, Hv.
Qed.

(** X8: in every state of a grid, for a position that [position_to_rank]
    resolves to the rank [r]: if [r] is the neighbour number [i],
    [position_to_neighidx] returns [i], and [neighbor_rank(i)] is [r] again;
    if [r] is no neighbour (the caller itself, or, while the grid is regular,
    any other rank of the job) the subscript [neighbor_idx[r]] finds no entry
    or one it inserted before, and the call returns 0 without any error. *)
Theorem position_to_neighidx_of_rank (E : Env) (s : GridBasedGrid) (pos : Vec3d) (r : Z) :
  rank_ok E -> reachable E s ->
  (position_to_rank E pos s).1 = Ok r ->
  let out := position_to_neighidx E pos s in
  (forall i, neighbor_ranks s !! i = Some r ->
     out.1 = Ok (Z.of_nat i) /\ (neighbor_rank (Z.of_nat i) out.2).1 = Ok r) /\
  (r ∉ neighbor_ranks s -> out.1 = Ok 0).
Proof.
  intros Hrank Hreach Hr out. unfold out.
  rewrite (position_to_neighidx_run E pos s r Hr). cbn [fst snd].
  destruct (reachable_inv E s Hrank Hreach) as [_ _ _ Hidx _ _].
  pose proof (idx_tidy_reachable E s Hreach) as Htidy.
  split.
  - intros i Hi. unfold map_subscript. rewrite (Hidx i r Hi). cbn [fst snd].
    split; [reflexivity|].
    unfold neighbor_rank, bind, gets, lift_opt, vec_at. cbn [neighbor_ranks with_neighbor_idx].
    destruct (Z.ltb_spec (Z.of_nat i) 0); [lia|]. rewrite Nat2Z.id, Hi. reflexivity.
  - intros Hnot. unfold map_subscript.
    destruct (neighbor_idx s !! r) as [v|] eqn:Hv; [|reflexivity].
    cbn [fst]. destruct (Htidy r v Hv) as [->|(i & Hi & _)]; [reflexivity|].
    exfalso. apply Hnot. apply list_elem_of_lookup. eauto.
Qed.

Lemma position_to_neighidx_of_rank_witness :
  let E := env_two_ranks 0 in
  let s := two_ranks_grid 0 in
  let out := position_to_neighidx E (mkVec3 3.5 0.5 0.5)%float s in
  (forall i, neighbor_ranks s !! i = Some 1 ->
     out.1 = Ok (Z.of_nat i) /\ (neighbor_rank (Z.of_nat i) out.2).1 = Ok 1) /\
  (1 ∉ neighbor_ranks s -> out.1 = Ok 0).
Proof.
  apply (position_to_neighidx_of_rank (env_two_ranks 0) (two_ranks_grid 0)
           (mkVec3 3.5 0.5 0.5)%float 1).
  - exact two_ranks_rank_ok_0.
  - exact two_ranks_reachable_0.
  - vm_compute. reflexivity.
Defined.

(* ===================================================================== *)
(** ** center_of_load *)
(* ===================================================================== *)

(** The sum of the positions [l], from [c] on, and its division by a count. *)
Definition vsum (l : list Vec3d) (c : Vec3d) : Vec3d := fold_left vadd l c.

Definition vdiv (c : Vec3d) (n : Z) : Vec3d :=
  (mkVec3 (c0 c / Z2F n) (c1 c / Z2F n) (c2 c / Z2F n))%float.

(** X9: [center_of_load] never changes the object.  With particles it is
    their sum divided by their number, whatever the cells are.  Without
    particles it is the sum of the midpoints of the local cells divided by
    their number; if the rank has no local cell either, the division is 0/0
    and all three coordinates are NaN, and nothing is thrown.  If
    [nlocalcells] exceeds the size of [cells] the loop reads [cells] out of
    range. *)
Theorem center_of_load_cases (E : Env) (ps : list Vec3d) (s : GridBasedGrid) :
  (center_of_load E ps s).2 = s /\
  (ps <> [] ->
   (center_of_load E ps s).1 = Ok (vdiv (vsum ps vzero) (Z.of_nat (length ps)))) /\
  (ps = [] -> nlocalcells s <= 0 ->
   (center_of_load E ps s).1 = Ok (mkVec3 nan nan nan)) /\
  (ps = [] -> 0 <= nlocalcells s <= Z.of_nat (length (cells s)) ->
   (center_of_load E ps s).1 =
     Ok (vdiv (vsum (map (gb_midpoint (gbox E)) (take (Z.to_nat (nlocalcells s)) (cells s)))
                    vzero)
              (nlocalcells s))) /\
  (ps = [] -> Z.of_nat (length (cells s)) < nlocalcells s ->
   (center_of_load E ps s).1 = Throw bad_index).
Proof.
  split; [apply center_of_load_state|].
  assert (Hmid : forall n : nat, (n <= length (cells s))%nat ->
            mapM (fun i => gb_midpoint (gbox E) <$> vec_at (cells s) i) (seqZ 0 (Z.of_nat n))
            = Some (map (gb_midpoint (gbox E)) (take n (cells s)))).
  { intros n Hn. apply mapM_Some_2.
    induction n as [|n IH].
    - simpl. constructor.
    - rewrite seqZ_S.
      destruct (lookup_lt_is_Some_2 (cells s) n) as [c Hc]; [lia|].
      rewrite (take_S_r _ _ _ Hc), map_app. apply Forall2_app; [apply IH; lia|].
      assert (Hat : vec_at (cells s) (0 + Z.of_nat n) = Some c).
      { unfold vec_at. destruct (Z.ltb_spec (0 + Z.of_nat n) 0); [lia|].
        replace (Z.to_nat (0 + Z.of_nat n)) with n by lia. exact Hc. }
      constructor; [|constructor]. rewrite Hat. reflexivity. }
  unfold center_of_load, n_local_cells. repeat split.
  - intros Hne. destruct ps as [|p ps]; [congruence|].
    assert (Hz : (Z.of_nat (length (p :: ps)) =? 0) = false) by (apply Z.eqb_neq; simpl; lia).
    rewrite Hz. reflexivity.
  - intros -> Hn. simpl. unfold bind, gets, lift_opt, ret.
    rewrite seqZ_nil by lia. reflexivity.
  - intros -> Hn. simpl. unfold bind, gets, lift_opt, ret.
    specialize (Hmid (Z.to_nat (nlocalcells s))). rewrite Z2Nat.id in Hmid by lia.
    rewrite Hmid by lia. cbn [fst snd]. rewrite length_map, length_take.
    unfold vdiv, vsum.
    replace (Z.of_nat 0 + Z.of_nat (Z.to_nat (nlocalcells s) `min` length (cells s)))
      with (nlocalcells s) by lia.
    reflexivity.
  - intros -> Hn. simpl. unfold bind, gets, lift_opt, ret.
    assert (Hnone : mapM (fun i => gb_midpoint (gbox E) <$> vec_at (cells s) i)
                      (seqZ 0 (nlocalcells s)) = None).
    { apply mapM_None_2, Exists_exists. exists (Z.of_nat (length (cells s))). split.
      - apply elem_of_seqZ. lia.
      - unfold vec_at. destruct (Z.ltb_spec (Z.of_nat (length (cells s))) 0); [reflexivity|].
        rewrite Nat2Z.id, lookup_ge_None_2 by lia. reflexivity. }
    rewrite Hnone. reflexivity.
Qed.

(* ===================================================================== *)
(** ** The count of conflicts *)
(* ===================================================================== *)







(* ===================================================================== *)
(** ** What the queries leave alone *)
(* ===================================================================== *)

(** [m'] is [m] with, possibly, keys added by subscripts: with the value 0. *)
Definition grown (m m' : gmap Z Z) : Prop :=
  (forall k v, m !! k = Some v -> m' !! k = Some v) /\
  (forall k v, m' !! k = Some v -> m !! k = Some v \/ (m !! k = None /\ v = 0)).

Lemma grown_refl m : grown m m.
Proof. split; auto. Qed.

Lemma grown_subscript m m' k : grown m m' -> grown m (map_subscript m' k).2.
Proof.
  intros [H1 H2]. split.
  - intros j v Hj. rewrite map_subscript_lookup, (H1 j v Hj). reflexivity.
  - intros j v. rewrite map_subscript_lookup.
    destruct (m' !! j) as [w|] eqn:Hw.
    + intros [= <-]. apply H2, Hw.
    + case_decide; [|discriminate]. intros [= <-]. subst j.
      destruct (m !! k) as [u|] eqn:Hu; [|auto].
      rewrite (H1 k u Hu) in Hw. discriminate.
Qed.

(** What a query keeps of the state [s0] it started in. *)
Record query_frame (s0 s : GridBasedGrid) : Prop := {
  qf_cells : cells s = cells s0;
  qf_nlocal : nlocalcells s = nlocalcells s0;
  qf_nghost : nghostcells s = nghostcells s0;
  qf_exchange : exchange_vec s = exchange_vec s0;
  qf_geometry : geometry s = geometry s0;
  qf_raised : raised s = raised s0;
  qf_g2l : grown (global_to_local s0) (global_to_local s);
  qf_idx : grown (neighbor_idx s0) (neighbor_idx s)
}.

Section Queries.

Context (E : Env).

Lemma query_frame_g2l s0 k : preserved (query_frame s0) (global_to_local_subscript k).
Proof.
  intros s [H1 H2 H3 H4 H5 H6 H7 H8]. rewrite global_to_local_subscript_run.
  split; cbn [snd cells nlocalcells nghostcells exchange_vec raised global_to_local
              neighbor_idx with_global_to_local]; auto.
  apply grown_subscript, H7.
Qed.

Lemma query_frame_idx s0 k : preserved (query_frame s0) (neighbor_idx_subscript k).
Proof.
  intros s [H1 H2 H3 H4 H5 H6 H7 H8]. rewrite neighbor_idx_subscript_run.
  split; cbn [snd cells nlocalcells nghostcells exchange_vec raised global_to_local
              neighbor_idx with_neighbor_idx]; auto.
  apply grown_subscript, H8.
Qed.

Lemma query_frame_run_call s0 c : preserved (query_frame s0) (run_call E c).
Proof.
  assert (Hmu : forall s x, query_frame s0 s -> query_frame s0 (with_mu x s)).
  { intros s x [H1 H2 H3 H4 H5 H6 H7 H8]. split; assumption. }
  destruct c; simpl;
    unfold neighbor_rank, cell_neighbor_index, get_boundary_info,
      position_to_cell_index, position_to_neighidx, n_local_cells, command.
  all: repeat
         lazymatch goal with
         | |- preserved _ (neighbor_idx_subscript _) => apply query_frame_idx
         | |- preserved _ (global_to_local_subscript _) => apply query_frame_g2l
         | |- preserved _ _ => frame_step
         end; auto.
Qed.

Lemma query_keeps_mu c m :
  (forall str, c <> call_command str) ->
  preserved (fun s => mu s = m) (run_call E c).
Proof.
  intros Hc. destruct c; simpl;
    unfold neighbor_rank, cell_neighbor_index, get_boundary_info,
      position_to_cell_index, position_to_neighidx, n_local_cells.
  all: try (repeat frame_step; auto; fail).
  exfalso. eapply Hc. reflexivity.
Qed.

End Queries.

(** X11: a query ([neighbor_rank], [cell_neighbor_index], [get_boundary_info],
    [position_to_cell_index], [position_to_rank], [position_to_neighidx],
    [command]), whether it returns or throws, leaves [cells], the two
    counts, [exchange_vec], the grid points and the octagons as they are.
    The only members it writes are [mu], in [command] alone, and the two
    maps, to which the subscripts [global_to_local[k]] and [neighbor_idx[k]]
    add the keys they do not find, with the value 0; no entry of the maps is
    changed or removed. *)
Theorem queries_leave_the_decomposition (E : Env) (c : api_call) (s : GridBasedGrid) :
  let s' := (run_call E c s).2 in
  cells s' = cells s /\ nlocalcells s' = nlocalcells s /\
  nghostcells s' = nghostcells s /\ exchange_vec s' = exchange_vec s /\
  geometry s' = geometry s /\ raised s' = raised s /\
  grown (global_to_local s) (global_to_local s') /\
  grown (neighbor_idx s) (neighbor_idx s') /\
  ((forall str, c <> call_command str) -> mu s' = mu s).
Proof.
  intros s'.
  assert (H0 : query_frame s s).
  { split; try reflexivity; apply grown_refl. }
  destruct (query_frame_run_call E s c s H0) as [H1 H2 H3 H4 H5 H6 H7 H8].
  repeat split; try assumption; try apply H7; try apply H8.
  intros Hc. apply (query_keeps_mu E c (mu s) Hc s). reflexivity.
Qed.

(* ===================================================================== *)
(** ** The ways through repartition *)
(* ===================================================================== *)

(** The members other than the corners and the record of failed checks. *)
Definition beside_corners (s : GridBasedGrid) :=
  (mu s, neighcomm s, is_regular_grid s, neighbor_ranks s, neighbor_idx s, my_dom s,
   neighbor_doms s, nlocalcells s, nghostcells s, cells s, global_to_local s,
   exchange_vec s).

(** A call of [repartition] fails before the check, rejects or accepts; at
    the check only the corners and the record of failed checks differ from
    the state of the call. *)
Inductive repartition_way (E : Env) (a : RepartArgs) (net : Net) (s : GridBasedGrid)
    : Res bool * GridBasedGrid -> Prop :=
  | way_early e : repartition_way E a net s (Throw e, s)
  | way_no_corner s1 :
      beside_corners s1 = beside_corners s ->
      repartition_way E a net s (Throw bad_index, s1)
  | way_reject s1 :
      beside_corners s1 = beside_corners s ->
      repartition_way E a net s (reject E (gridpoints s) s1)
  | way_accept s1 :
      beside_corners s1 = beside_corners s ->
      repartition_way E a net s (accept E a net s1).

Section Ways.

Context (E : Env).

Lemma repartition_ways a net s : repartition_way E a net s (repartition E a net s).
Proof.
  destruct (neighcomm s) as [g|] eqn:Hn.
  - destruct (center_of_load E (ra_particles a) s) as [[r_p|e] s1] eqn:Hc.
    + assert (Hs : s1 = s).
      { pose proof (center_of_load_state E (ra_particles a) s) as H.
        rewrite Hc in H. exact H. }
      subst s1. rewrite (repartition_unfold E a net s g r_p Hn Hc). cbv zeta.
      set (s1 := moved E net (candidate E a net s g r_p) s).
      assert (Hb : beside_corners s1 = beside_corners s).
      { unfold s1, moved, ENSURE.
        destruct (GRID_DEBUG E); [destruct (_ =? _)|]; reflexivity. }
      destruct (bounding_box_of E (gridpoints s1) (this_node E)) as [bb|].
      * destruct (0 <? nconflicts E net bb).
        -- apply way_reject, Hb.
        -- apply way_accept, Hb.
      * apply way_no_corner, Hb.
    + assert (Hs : s1 = s).
      { pose proof (center_of_load_state E (ra_particles a) s) as H.
        rewrite Hc in H. exact H. }
      subst s1.
      assert (Hrun : repartition E a net s = (Throw e, s)).
      { unfold repartition, undirected_neighbor_count.
        unfold bind at 1. unfold bind at 1. unfold gets at 1. rewrite Hn.
        unfold ret at 1. unfold bind at 1. rewrite Hc. reflexivity. }
      rewrite Hrun. apply way_early.
  - assert (Hrun : repartition E a net s = (Throw mpi_error, s)).
    { unfold repartition, undirected_neighbor_count.
      unfold bind at 1. unfold bind at 1. unfold gets at 1. rewrite Hn. reflexivity. }
    rewrite Hrun. apply way_early.
Qed.

Lemma reject_beside old s1 :
  beside_corners (reject E old s1).2 = beside_corners s1 /\
  (reject E old s1).1 <> Ok true.
Proof.
  unfold reject. unfold bind at 1. rewrite ENSURE_run.
  unfold bind, modify, lift_opt, ret, ENSURE.
  destruct (vec_at old (this_node E)); destruct (GRID_DEBUG E); simpl;
    split; try reflexivity; discriminate.
Qed.

Lemma accept_irregular a net s1 : is_regular_grid (accept E a net s1).2 = false.
Proof.
  unfold accept. unfold bind at 1. unfold modify at 1.
  set (I := fun t => is_regular_grid t = false).
  assert (Hc : update_closed I) by (split; intros; assumption).
  apply (preserved_bind I); [|intros u|reflexivity].
  - unfold init_octagons. repeat frame_step; assumption.
  - apply preserved_bind; [apply closed_run_calls, Hc|intros u'].
    apply preserved_bind; [|intros u''; apply preserved_ret].
    intros t Ht. rewrite reinit_unfold. apply closed_reinit_body; [exact Hc|exact Ht].
Qed.

Lemma construct_regular peers : is_regular_grid (construct E peers).2 = true.
Proof.
  unfold construct.
  set (I := fun t => is_regular_grid t = true).
  assert (Hc : update_closed I) by (split; intros; assumption).
  assert (H : preserved I (reinit E)).
  { intros t Ht. rewrite reinit_unfold. apply closed_reinit_body; [exact Hc|exact Ht]. }
  unfold bind at 1.
  assert (Hp : I (init_partitioning E peers fresh).2).
  { unfold init_partitioning. unfold bind at 1. unfold modify at 1.
    apply (preserved_bind I); [|intros u|reflexivity].
    - repeat frame_step; assumption.
    - apply preserved_bind; [|intros u'].
      + unfold init_neighbors. repeat frame_step. assumption.
      + unfold init_octagons. repeat frame_step; assumption. }
  destruct (init_partitioning E peers fresh) as [[[]|e] s1]; [|exact Hp].
  apply H, Hp.
Qed.

End Ways.

(** X12: the grid is regular from the construction on, whether the
    constructor returns or throws, and a call of [repartition] that returns
    [true] leaves it irregular; a call that returns [false] leaves the flag
    as it was; and once the grid is irregular no call of [repartition],
    whatever its outcome, makes it regular again. *)
Theorem regular_until_accepted (E : Env) :
  (forall peers, is_regular_grid (construct E peers).2 = true) /\
  (forall a net s,
     let out := repartition E a net s in
     (out.1 = Ok true -> is_regular_grid out.2 = false) /\
     (out.1 = Ok false -> is_regular_grid out.2 = is_regular_grid s) /\
     (is_regular_grid s = false -> is_regular_grid out.2 = false)).
Proof.
  split; [apply construct_regular|].
  intros a net s out. unfold out.
  assert (Hreg : forall s1, beside_corners s1 = beside_corners s ->
                            is_regular_grid s1 = is_regular_grid s).
  { intros s1 H. unfold beside_corners in H. congruence. }
  destruct (repartition_ways E a net s) as [e|s1 Hb|s1 Hb|s1 Hb]; cbn [fst snd].
  - repeat split; try discriminate. auto.
  - repeat split; try discriminate. intros H. rewrite (Hreg s1 Hb). exact H.
  - destruct (reject_beside E (gridpoints s) s1) as [Hrb Hnt].
    assert (Hr : is_regular_grid (reject E (gridpoints s) s1).2 = is_regular_grid s).
    { rewrite <- (Hreg s1 Hb). unfold beside_corners in Hrb. congruence. }
    repeat split.
    + intros H. contradiction.
    + intros _. exact Hr.
    + intros H. rewrite Hr. exact H.
  - pose proof (accept_irregular E a net s1) as Hacc.
    repeat split; auto.
    intros H. exfalso. exact (accept_not_false E a net s1 H).
Qed.

(* ===================================================================== *)
(** ** What repartition leaves alone *)
(* ===================================================================== *)

(** The neighbourhood of the state [s0]. *)
Definition same_neighbourhood (s0 s : GridBasedGrid) : Prop :=
  neighcomm s = neighcomm s0 /\ neighbor_ranks s = neighbor_ranks s0 /\
  grown (neighbor_idx s0) (neighbor_idx s).

Lemma same_neighbourhood_closed s0 : update_closed (same_neighbourhood s0).
Proof.
  split.
  - intros s i H. exact H.
  - intros s g H. exact H.
  - intros s k (H1 & H2 & H3). split; [exact H1|]. split; [exact H2|].
    apply grown_subscript, H3.
  - intros s k H. exact H.
  - intros s x H. exact H.
  - intros s x H. exact H.
  - intros s x H. exact H.
Qed.

Lemma same_neighbourhood_blind s0 : corner_blind (same_neighbourhood s0).
Proof. split; try (intros s x H; exact H). intros s H. exact H. Qed.

Section KeepsMu.

Context (E : Env).

Lemma run_calls_keep_mu cb m :
  Forall (fun c => forall str, c <> call_command str) cb ->
  preserved (fun s => mu s = m) (run_calls E cb).
Proof.
  unfold run_calls. induction 1 as [|c cb Hc Hcb IH]; simpl.
  - apply preserved_ret.
  - apply preserved_bind; [apply query_keeps_mu, Hc|intros u; exact IH].
Qed.

Lemma repartition_keeps_mu a net m :
  Forall (fun c => forall str, c <> call_command str) (ra_callback a) ->
  preserved (fun s => mu s = m) (repartition E a net).
Proof.
  intros Hcb.
  unfold repartition, undirected_neighbor_count, neighbor_allgather. cbv zeta.
  apply preserved_bind; [repeat frame_step|intros nneigh].
  apply preserved_bind; [|intros r_p].
  { intros t Ht. rewrite center_of_load_state. exact Ht. }
  apply preserved_bind; [repeat frame_step|intros lambda].
  apply preserved_bind; [repeat frame_step|intros r].
  apply preserved_bind; [frame_step|intros gp].
  apply preserved_bind; [frame_step|intros m0].
  apply preserved_bind; [frame_step; assumption|intros u1].
  apply preserved_bind; [frame_step|intros old].
  apply preserved_bind; [frame_step; assumption|intros u2].
  apply preserved_bind; [frame_step|intros gps].
  apply preserved_bind; [frame_step; assumption|intros u3].
  apply preserved_bind; [frame_step|intros bb].
  apply preserved_if.
  - repeat frame_step; assumption.
  - apply preserved_bind; [frame_step; assumption|intros u4].
    apply preserved_bind; [unfold init_octagons; repeat frame_step; assumption|intros u5].
    apply preserved_bind; [apply run_calls_keep_mu, Hcb|intros u6].
    apply preserved_bind; [|intros u7; apply preserved_ret].
    apply reinit_blind. repeat split; intros s x H; exact H.
Qed.

End KeepsMu.

(** X13: whatever its outcome, [repartition] leaves the neighbourhood as the
    construction built it: the graph communicator and [neighbor_ranks] are
    unchanged and [neighbor_idx] at most gains keys with the value 0, from the
    subscripts of [reinit] and of the callback.  [mu] is unchanged too unless
    the callback itself calls [command]. *)
Theorem repartition_keeps_the_neighbourhood (E : Env) (a : RepartArgs) (net : Net)
    (s : GridBasedGrid) :
  let s' := (repartition E a net s).2 in
  neighcomm s' = neighcomm s /\
  neighbor_ranks s' = neighbor_ranks s /\
  grown (neighbor_idx s) (neighbor_idx s') /\
  (Forall (fun c => forall str, c <> call_command str) (ra_callback a) ->
   mu s' = mu s).
Proof.
  intros s'.
  assert (H0 : same_neighbourhood s s).
  { split; [reflexivity|]. split; [reflexivity|apply grown_refl]. }
  destruct (blind_repartition E (same_neighbourhood s) a net
              (same_neighbourhood_closed s) (same_neighbourhood_blind s) s H0)
    as (H1 & H2 & H3).
  split; [exact H1|]. split; [exact H2|]. split; [exact H3|].
  intros Hcb. apply (repartition_keeps_mu E a net (mu s) Hcb s). reflexivity.
Qed.

(* ===================================================================== *)
(** ** The ghost layer and the exchange lists *)
(* ===================================================================== *)

(** A ghost cell is appended. *)
Definition ghost_add (x : Z) (s : GridBasedGrid) : GridBasedGrid :=
  with_nghostcells (nghostcells s + 1)
    (with_global_to_local (<[x := nlocalcells s + nghostcells s]> (global_to_local s))
       (with_cells (cells s ++ [x]) s)).

(** ... unless [global_to_local] has it. *)
Definition registered (x : Z) (s : GridBasedGrid) : GridBasedGrid :=
  match global_to_local s !! x with
  | Some _ => s
  | None => ghost_add x s
  end.

(** The entry of [exchange_vec] after the cell [x] of [owner] was met as a
    neighbour of the local cell [ci]. *)
Definition step_desc (owner x ci : Z) (e : GhostExchangeDesc) : GhostExchangeDesc :=
  mkDesc (if dest e =? -1 then owner else dest e)
         (push_back_unique (recv e) x) (push_back_unique (send e) ci).

Section GhostStep.

Context (E : Env).

(** The body of the second loop of [reinit], case by case. *)
Lemma ghost_step_eq i x s :
  ghost_step E i x s =
  match owner_of E s x with
  | Throw e => (Throw e, s)
  | Ok r =>
      if r =? this_node E then (Ok tt, s)
      else
        let s2 := registered x s in
        let s3 := with_neighbor_idx (map_subscript (neighbor_idx s) r).2 s2 in
        let idx := (map_subscript (neighbor_idx s) r).1 in
        match vec_at (exchange_vec s) idx with
        | None => (Throw bad_index, s3)
        | Some e =>
            match vec_at (cells s2) i with
            | None => (Throw bad_index, s3)
            | Some ci =>
                (Ok tt,
                 with_exchange_vec
                   (<[Z.to_nat idx := step_desc r x ci e]> (exchange_vec s)) s3)
            end
        end
  end.
Proof.
  unfold ghost_step. unfold bind at 1. rewrite gloidx_to_rank_run.
  destruct (owner_of E s x) as [r|e]; [|reflexivity].
  destruct (r =? this_node E); [reflexivity|]. cbv zeta.
  unfold bind at 1. unfold gets at 1. unfold bind at 1.
  assert (Hreg : (match global_to_local s !! x with
                  | Some _ => ret tt
                  | None =>
                      modify (fun s =>
                        with_nghostcells (nghostcells s + 1)
                          (with_global_to_local
                             (<[x := nlocalcells s + nghostcells s]> (global_to_local s))
                             (with_cells (cells s ++ [x]) s)))
                  end) s = (Ok tt, registered x s)).
  { unfold registered. destruct (global_to_local s !! x); reflexivity. }
  rewrite Hreg.
  assert (Hev : exchange_vec (registered x s) = exchange_vec s).
  { unfold registered. destruct (global_to_local s !! x); reflexivity. }
  assert (Hni : neighbor_idx (registered x s) = neighbor_idx s).
  { unfold registered. destruct (global_to_local s !! x); reflexivity. }
  unfold bind at 1. rewrite neighbor_idx_subscript_run, Hni.
  unfold bind, gets, lift_opt, ret, modify.
  cbn [exchange_vec cells with_neighbor_idx]. rewrite Hev.
  destruct (vec_at (exchange_vec s) (map_subscript (neighbor_idx s) r).1) as [e|];
    [|reflexivity].
  cbn [cells with_neighbor_idx].
  destruct (vec_at (cells (registered x s)) i) as [ci|]; [|reflexivity].
  unfold step_desc. do 3 f_equal.
  destruct (dest e =? -1); reflexivity.
Qed.

End GhostStep.

Section ExchangeInvariant.

Context (E : Env).

(** The entry of [neighbor_idx] a subscript returns. *)
Definition nidx (s : GridBasedGrid) (r : Z) : Z := default 0 (neighbor_idx s !! r).

(** The cell [x] belongs to the rank [r], another rank than the caller's. *)
Definition foreign (s : GridBasedGrid) (x r : Z) : Prop :=
  owner_of E s x = Ok r /\ r <> this_node E.

(** The second loop of [reinit], started in [s0], after it has met the
    pairs [P] of a local cell and a neighbour of it. *)
Record exch_inv (s0 : GridBasedGrid) (P : Z -> Z -> Prop) (s : GridBasedGrid) : Prop := {
  ex_idx : idx_equiv (neighbor_idx s) (neighbor_idx s0);
  ex_length : length (exchange_vec s) = length (exchange_vec s0);
  ex_recv : forall k e x, exchange_vec s !! k = Some e ->
      (x ∈ recv e <-> exists g r, P g x /\ foreign s0 x r /\ nidx s0 r = Z.of_nat k);
  ex_send : forall k e y, exchange_vec s !! k = Some e ->
      (y ∈ send e <-> exists x r, P y x /\ foreign s0 x r /\ nidx s0 r = Z.of_nat k);
  ex_dest : forall k e, exchange_vec s !! k = Some e ->
      (dest e = -1 /\ recv e = []) \/
      (exists x, x ∈ recv e /\ owner_of E s0 x = Ok (dest e));
  ex_slot : forall g x r, P g x -> foreign s0 x r ->
      0 <= nidx s0 r /\ is_Some (exchange_vec s !! Z.to_nat (nidx s0 r));
  ex_resolved : forall g x, P g x -> exists r, owner_of E s0 x = Ok r;
  ex_key : forall g x r, P g x -> foreign s0 x r -> is_Some (global_to_local s !! x);
  ex_ghost : forall k x, cells s !! k = Some x -> (length (cells s0) <= k)%nat ->
      exists g r, P g x /\ foreign s0 x r
}.

Lemma exch_inv_ext s0 (P P' : Z -> Z -> Prop) s :
  (forall g x, P g x <-> P' g x) -> exch_inv s0 P s -> exch_inv s0 P' s.
Proof.
  intros Hext [H1 H2 H3 H4 H5 H6 H7 H8 H9]. split; auto.
  - intros k e x He. rewrite (H3 k e x He).
    split; intros (g & r & Hp & H); exists g, r; (split; [apply Hext, Hp|exact H]).
  - intros k e y He. rewrite (H4 k e y He).
    split; intros (x & r & Hp & H); exists x, r; (split; [apply Hext, Hp|exact H]).
  - intros g x r Hp. apply (H6 g x r), Hext, Hp.
  - intros g x Hp. apply (H7 g x), Hext, Hp.
  - intros g x r Hp. apply (H8 g x r), Hext, Hp.
  - intros k x Hk Hge. destruct (H9 k x Hk Hge) as (g & r & Hp & Hf).
    exists g, r. split; [apply Hext, Hp|exact Hf].
Qed.

(** One more pair. *)
Definition with_pair (P : Z -> Z -> Prop) (ci x : Z) : Z -> Z -> Prop :=
  fun g y => P g y \/ (g = ci /\ y = x).

Lemma registered_cells x s :
  cells (registered x s) = cells s \/
  (global_to_local s !! x = None /\ cells (registered x s) = cells s ++ [x]).
Proof.
  unfold registered. destruct (global_to_local s !! x); [left|right]; auto.
Qed.

Lemma registered_key x s : is_Some (global_to_local (registered x s) !! x).
Proof.
  unfold registered. destruct (global_to_local s !! x) as [v|] eqn:Hv.
  - rewrite Hv. eauto.
  - simpl. rewrite lookup_insert_eq. eauto.
Qed.

Lemma registered_keys x y s :
  is_Some (global_to_local s !! y) -> is_Some (global_to_local (registered x s) !! y).
Proof.
  unfold registered. destruct (global_to_local s !! x) as [v|] eqn:Hv; [auto|].
  intros Hy. simpl. destruct (decide (x = y)) as [->|Hne].
  - rewrite lookup_insert_eq. eauto.
  - rewrite lookup_insert_ne by exact Hne. exact Hy.
Qed.

Lemma ghost_step_exch s0 P i ci x :
  vec_at (cells s0) i = Some ci ->
  hoare (fun s => ghost_inv E s0 s /\ exch_inv s0 P s) (ghost_step E i x)
        (fun _ s => exch_inv s0 (with_pair P ci x) s).
Proof.
  intros Hci s [] s' [Hg Hx] Hrun. rewrite ghost_step_eq in Hrun.
  destruct Hg as [Gnum Glen Gng Gnl Gloc Ggeo Gown Gex Grai].
  destruct Hx as [X1 X2 X3 X4 X5 X6 X7 X8 X9].
  rewrite (owner_of_geometry E s s0 x Ggeo) in Hrun.
  destruct (owner_of E s0 x) as [r|e] eqn:Hown; [|discriminate].
  destruct (r =? this_node E) eqn:Hself.
  { (* the neighbour is a cell of the caller *)
    apply Z.eqb_eq in Hself. injection Hrun as <-.
    assert (Hnf : forall r', ~ foreign s0 x r').
    { intros r' [Ho Hne]. congruence. }
    split; auto.
    - intros k e y He. rewrite (X3 k e y He). unfold with_pair.
      split; intros (g & r' & Hp & Hf & Hk); exists g, r'.
      + auto.
      + destruct Hp as [Hp|[-> ->]]; [auto|]. exfalso. exact (Hnf r' Hf).
    - intros k e y He. rewrite (X4 k e y He). unfold with_pair.
      split; intros (z & r' & Hp & Hf & Hk); exists z, r'.
      + auto.
      + destruct Hp as [Hp|[-> ->]]; [auto|]. exfalso. exact (Hnf r' Hf).
    - intros g y r' [Hp|[-> ->]] Hf; [eauto|]. exfalso. exact (Hnf r' Hf).
    - intros g y [Hp|[-> ->]]; [eauto|]. eauto.
    - intros g y r' [Hp|[-> ->]] Hf; [eauto|]. exfalso. exact (Hnf r' Hf).
    - intros k y Hk Hge. destruct (X9 k y Hk Hge) as (g & r' & Hp & Hf).
      exists g, r'. split; [left; exact Hp|exact Hf]. }
  apply Z.eqb_neq in Hself. cbv zeta in Hrun.
  assert (Hfx : foreign s0 x r) by (split; assumption).
  destruct (idx_equiv_subscript _ _ r X1) as [Hidx Hequiv].
  assert (Hnidx : (map_subscript (neighbor_idx s) r).1 = nidx s0 r).
  { rewrite Hidx. unfold nidx, map_subscript. destruct (neighbor_idx s0 !! r); reflexivity. }
  rewrite Hnidx in Hrun.
  destruct (vec_at (exchange_vec s) (nidx s0 r)) as [e|] eqn:He; [|discriminate].
  destruct (vec_at (cells (registered x s)) i) as [ci'|] eqn:Hci'; [|discriminate].
  injection Hrun as <-.
  assert (Hnn : 0 <= nidx s0 r).
  { unfold vec_at in He. destruct (Z.ltb_spec (nidx s0 r) 0); [discriminate|lia]. }
  assert (Hek : exchange_vec s !! Z.to_nat (nidx s0 r) = Some e).
  { unfold vec_at in He. destruct (nidx s0 r <? 0); [discriminate|exact He]. }
  assert (Hcieq : ci' = ci).
  { assert (Hi : (Z.to_nat i < length (cells s0))%nat /\ 0 <= i).
    { unfold vec_at in Hci. destruct (Z.ltb_spec i 0); [discriminate|].
      apply lookup_lt_Some in Hci. lia. }
    assert (Hpre : cells s !! Z.to_nat i = cells s0 !! Z.to_nat i).
    { rewrite <- Gloc. rewrite lookup_take_lt by lia. reflexivity. }
    unfold vec_at in Hci, Hci'. destruct (i <? 0); [discriminate|].
    destruct (registered_cells x s) as [Hc|[_ Hc]]; rewrite Hc in Hci'.
    - congruence.
    - rewrite lookup_app_l in Hci' by (rewrite <- Gloc in Hi; rewrite length_take in Hi; lia).
      congruence. }
  subst ci'.
  assert (Hlt : (Z.to_nat (nidx s0 r) < length (exchange_vec s))%nat)
    by (apply lookup_lt_Some in Hek; exact Hek).
  split; cbn [neighbor_idx exchange_vec cells global_to_local with_exchange_vec
              with_neighbor_idx].
  - intros k. rewrite (Hequiv k).
    rewrite map_subscript_lookup. destruct (neighbor_idx s0 !! k); [reflexivity|].
    case_decide; reflexivity.
  - rewrite length_insert. exact X2.
  - intros k e' y Hk.
    destruct (decide (k = Z.to_nat (nidx s0 r))) as [->|Hne].
    + rewrite list_lookup_insert_eq in Hk by exact Hlt. injection Hk as <-.
      cbn [recv step_desc]. rewrite push_back_unique_elem, (X3 _ e y Hek).
      unfold with_pair. split.
      * intros [(g & r' & Hp & Hf & Hk)| ->].
        -- exists g, r'. auto.
        -- exists ci, r. repeat split; auto. lia.
      * intros (g & r' & [Hp|[-> ->]] & Hf & Hk).
        -- left. exists g, r'. auto.
        -- right. reflexivity.
    + rewrite list_lookup_insert_ne in Hk by congruence.
      rewrite (X3 k e' y Hk). unfold with_pair. split.
      * intros (g & r' & Hp & Hf & Hk'). exists g, r'. auto.
      * intros (g & r' & [Hp|[-> ->]] & Hf & Hk'); [exists g, r'; auto|].
        exfalso. destruct Hf as [Ho _]. rewrite Hown in Ho. injection Ho as <-.
        apply Hne. lia.
  - intros k e' y Hk.
    destruct (decide (k = Z.to_nat (nidx s0 r))) as [->|Hne].
    + rewrite list_lookup_insert_eq in Hk by exact Hlt. injection Hk as <-.
      cbn [send step_desc]. rewrite push_back_unique_elem, (X4 _ e y Hek).
      unfold with_pair. split.
      * intros [(z & r' & Hp & Hf & Hk)| ->].
        -- exists z, r'. auto.
        -- exists x, r. repeat split; auto. lia.
      * intros (z & r' & [Hp|[-> ->]] & Hf & Hk).
        -- left. exists z, r'. auto.
        -- right. reflexivity.
    + rewrite list_lookup_insert_ne in Hk by congruence.
      rewrite (X4 k e' y Hk). unfold with_pair. split.
      * intros (z & r' & Hp & Hf & Hk'). exists z, r'. auto.
      * intros (z & r' & [Hp|[-> ->]] & Hf & Hk'); [exists z, r'; auto|].
        exfalso. destruct Hf as [Ho _]. rewrite Hown in Ho. injection Ho as <-.
        apply Hne. lia.
  - intros k e' Hk.
    destruct (decide (k = Z.to_nat (nidx s0 r))) as [->|Hne].
    + rewrite list_lookup_insert_eq in Hk by exact Hlt. injection Hk as <-.
      right. cbn [dest recv step_desc].
      destruct (Z.eqb_spec (dest e) (-1)) as [Hd|Hd].
      * exists x. split; [apply push_back_unique_elem; auto|exact Hown].
      * destruct (X5 _ e Hek) as [[Hd' _]|(y & Hy & Hoy)]; [contradiction|].
        exists y. split; [apply push_back_unique_elem; auto|exact Hoy].
    + rewrite list_lookup_insert_ne in Hk by congruence. exact (X5 k e' Hk).
  - intros g y r' Hp Hf.
    assert (Hslot : 0 <= nidx s0 r' /\ is_Some (exchange_vec s !! Z.to_nat (nidx s0 r'))).
    { destruct Hp as [Hp|[-> ->]]; [eauto|].
      destruct Hf as [Ho _]. rewrite Hown in Ho. injection Ho as <-. eauto. }
    destruct Hslot as [Hs1 Hs2]. split; [exact Hs1|].
    apply lookup_lt_is_Some. rewrite length_insert. apply lookup_lt_is_Some, Hs2.
  - intros g y [Hp|[-> ->]]; eauto.
  - intros g y r' [Hp|[-> ->]] Hf.
    + apply registered_keys. eauto.
    + apply registered_key.
  - intros k y Hk Hge.
    destruct (registered_cells x s) as [Hc|[Hnew Hc]]; rewrite Hc in Hk.
    + destruct (X9 k y Hk Hge) as (g & r' & Hp & Hf).
      exists g, r'. split; [left; exact Hp|exact Hf].
    + destruct (decide (k < length (cells s))%nat) as [Hlt'|Hge'].
      * rewrite lookup_app_l in Hk by exact Hlt'.
        destruct (X9 k y Hk Hge) as (g & r' & Hp & Hf).
        exists g, r'. split; [left; exact Hp|exact Hf].
      * rewrite lookup_app_r in Hk by lia.
        destruct (k - length (cells s))%nat as [|n]; [|destruct n; discriminate].
        injection Hk as <-. exists ci, r. split; [right; auto|exact Hfx].
Qed.

End ExchangeInvariant.

Section ExchangeLoop.

Context (E : Env).

(** The pairs the outer loop has met after the local cells number [seen]. *)
Definition met (s0 : GridBasedGrid) (seen : list Z) (g x : Z) : Prop :=
  exists i, i ∈ seen /\ vec_at (cells s0) i = Some g /\
            x ∈ gb_full_shell_neigh_without_center (gbox E) g.

Lemma ghost_loop_exch s0 :
  length (cells s0) = Z.to_nat (nlocalcells s0) -> 0 <= nlocalcells s0 ->
  hoare (fun s => ghost_inv E s0 s /\ exch_inv E s0 (fun _ _ => False) s)
        (ghost_loop E)
        (fun _ s => ghost_inv E s0 s /\
                    exch_inv E s0
                      (fun g x => g ∈ cells s0 /\
                                  x ∈ gb_full_shell_neigh_without_center (gbox E) g) s).
Proof.
  intros Hlen0 Hn0. unfold ghost_loop.
  set (I := fun seen s => ghost_inv E s0 s /\ exch_inv E s0 (met s0 seen) s).
  eapply hoare_bind with (Q := fun n s => n = nlocalcells s0 /\ I [] s).
  { intros s n s' [Hg Hx] R. apply gets_ok in R as [-> ->].
    split; [apply (gh_nlocal E s0 s Hg)|]. split; [exact Hg|].
    eapply exch_inv_ext; [|exact Hx].
    intros g x. split; [intros []|]. intros (i & Hi & _). inversion Hi. }
  intros n s a s' [-> HI] Hrun. revert s a s' HI Hrun.
  change (hoare (I []) (for_each (seqZ 0 (nlocalcells s0)) (fun i =>
            ci <- (cs <- gets cells ;; lift_opt (vec_at cs i)) ;;
            for_each (gb_full_shell_neigh_without_center (gbox E) ci) (ghost_step E i))%meth)
          (fun _ s => ghost_inv E s0 s /\
                      exch_inv E s0
                        (fun g x => g ∈ cells s0 /\
                                    x ∈ gb_full_shell_neigh_without_center (gbox E) g) s)).
  eapply hoare_weaken; [apply (hoare_for_each I)| |].
  - intros seen i rest Hseq.
    assert (Hi : 0 <= i < nlocalcells s0).
    { assert (Hin : i ∈ seqZ 0 (nlocalcells s0)).
      { rewrite Hseq. apply elem_of_app. right. apply elem_of_cons. auto. }
      apply elem_of_seqZ in Hin. lia. }
    eapply hoare_bind with (Q := fun ci s => vec_at (cells s0) i = Some ci /\ I seen s).
    { intros s ci s' [Hg Hx] R. apply bind_ok in R as (cs & s1 & R1 & R).
      apply gets_ok in R1 as [-> ->]. apply lift_opt_ok in R as [R ->].
      split; [|split; assumption].
      unfold vec_at in *. destruct (i <? 0); [discriminate|].
      rewrite <- (gh_local E s0 s Hg), lookup_take_lt by lia. exact R. }
    intros ci.
    set (I' := fun (seen' : list Z) s =>
           vec_at (cells s0) i = Some ci /\ ghost_inv E s0 s /\
           exch_inv E s0 (fun g x => met s0 seen g x \/ (g = ci /\ x ∈ seen')) s).
    eapply hoare_weaken; [apply (hoare_for_each I')| |].
    + intros seen' x rest' _ s [] s' (Hci & Hg & Hx) Hrun.
      split; [exact Hci|]. split.
      * exact (ghost_step_hoare E s0 i x Hlen0 Hn0 s tt s' Hg Hrun).
      * pose proof (ghost_step_exch E s0 _ i ci x Hci s tt s' (conj Hg Hx) Hrun) as H.
        eapply exch_inv_ext; [|exact H]. intros g y. unfold with_pair.
        rewrite elem_of_app, list_elem_of_singleton. tauto.
    + intros s (Hci & Hg & Hx). split; [exact Hci|]. split; [exact Hg|].
      eapply exch_inv_ext; [|exact Hx]. intros g y.
      split; [auto|]. intros [H|[_ H]]; [exact H|inversion H].
    + intros _ s (Hci & Hg & Hx). split; [exact Hg|].
      eapply exch_inv_ext; [|exact Hx]. intros g y. unfold met. split.
      * intros [(j & Hj & Hgj & Hy)|[-> Hy]].
        -- exists j. rewrite elem_of_app. auto.
        -- exists i. rewrite elem_of_app, list_elem_of_singleton. auto.
      * intros (j & Hj & Hgj & Hy).
        rewrite elem_of_app, list_elem_of_singleton in Hj. destruct Hj as [Hj| ->].
        -- left. exists j. auto.
        -- right. split; [congruence|]. assert (g = ci) by congruence. subst g. exact Hy.
  - intros s H. exact H.
  - intros _ s [Hg Hx]. split; [exact Hg|].
    eapply exch_inv_ext; [|exact Hx]. intros g y. unfold met. split.
    + intros (j & Hj & Hgj & Hy). split; [eapply vec_at_elem, Hgj|exact Hy].
    + intros [Hin Hy]. apply list_elem_of_lookup in Hin as [k Hk].
      exists (Z.of_nat k). split.
      * apply elem_of_seqZ. apply lookup_lt_Some in Hk. lia.
      * split; [|exact Hy]. unfold vec_at.
        destruct (Z.ltb_spec (Z.of_nat k) 0); [lia|]. rewrite Nat2Z.id. exact Hk.
Qed.

End ExchangeLoop.

Section ReinitStages.

Context (E : Env).

(** [reinit] that returns, taken apart at its second loop: [s3] is the state
    before the loop and [s4] the state after it. *)
Lemma reinit_stages s s' :
  reinit E s = (Ok tt, s') ->
  exists s3 s4,
    ghost_inv E s3 s3 /\
    length (cells s3) = Z.to_nat (nlocalcells s3) /\ 0 <= nlocalcells s3 /\
    exchange_vec s3 = replicate (length (neighbor_ranks s)) default_desc /\
    geometry s3 = geometry s /\ neighbor_idx s3 = neighbor_idx s /\
    ghost_loop E s3 = (Ok tt, s4) /\
    exchange_vec s' = map (translated s4) (exchange_vec s4) /\
    beside_exchange s' = beside_exchange s4.
Proof.
  rewrite reinit_unfold. unfold reinit_body. set (c := cleared s). intros Hrun.
  destruct (local_loop_hoare E (seqZ 0 (gb_ncells (gbox E))) c) as (s1 & R1 & L1);
    [apply NoDup_seqZ|reflexivity|reflexivity|reflexivity|].
  rewrite (bind_eq_ok _ _ _ _ _ R1) in Hrun.
  destruct L1 as [Lc Ln Lnum Lbes].
  unfold bind at 1 in Hrun. unfold gets at 1 in Hrun.
  unfold bind at 1 in Hrun. rewrite ENSURE_run in Hrun.
  set (s2 := (ENSURE E ensure_nlocalcells_positive (0 <? nlocalcells s1) s1).2) in *.
  destruct (ENSURE_frame E ensure_nlocalcells_positive (0 <? nlocalcells s1) s1)
    as (B2 & X2 & M2 & C2). fold s2 in B2, X2, M2, C2.
  unfold bind at 1 in Hrun. unfold gets at 1 in Hrun.
  unfold bind at 1 in Hrun. unfold modify at 1 in Hrun.
  set (s3 := with_exchange_vec (replicate (length (neighbor_ranks s2)) default_desc) s2) in *.
  assert (B3 : beside_exchange s3 = beside_exchange s1) by exact B2.
  assert (Hcells3 : cells s3 = cells s1) by (apply (f_equal cells) in B3; exact B3).
  assert (Hg2l3 : global_to_local s3 = global_to_local s1)
    by (apply (f_equal global_to_local) in B3; exact B3).
  assert (Hnl3 : nlocalcells s3 = nlocalcells s1)
    by (apply (f_equal nlocalcells) in B3; exact B3).
  assert (Hgeo1 : geometry s1 = geometry s).
  { apply (f_equal (fun t => t.1.1.1.1.1)) in Lbes. exact Lbes. }
  assert (Hidx1 : neighbor_idx s1 = neighbor_idx s).
  { apply (f_equal (fun t => t.1.1.1.2)) in Lbes. exact Lbes. }
  assert (Hng1 : nghostcells s1 = 0).
  { apply (f_equal (fun t => t.1.1.2)) in Lbes. exact Lbes. }
  assert (Hgeo3 : geometry s3 = geometry s).
  { rewrite <- Hgeo1. apply (f_equal geometry) in B3. exact B3. }
  assert (Hidx3 : neighbor_idx s3 = neighbor_idx s).
  { rewrite <- Hidx1. apply (f_equal neighbor_idx) in B3. exact B3. }
  assert (Hng3 : nghostcells s3 = 0).
  { rewrite <- Hng1. apply (f_equal nghostcells) in B3. exact B3. }
  assert (Hlen3 : length (cells s3) = Z.to_nat (nlocalcells s3)).
  { rewrite Hcells3, Hnl3, Ln. lia. }
  assert (Hrk3 : neighbor_ranks s2 = neighbor_ranks s).
  { apply (f_equal neighbor_ranks) in B2.
    change (neighbor_ranks s2 = neighbor_ranks s1) in B2. rewrite B2.
    unfold geometry in Hgeo1. congruence. }
  assert (G3 : ghost_inv E s3 s3).
  { split.
    - intros k g. rewrite Hcells3, Hg2l3. apply Lnum.
    - rewrite Hng3. lia.
    - rewrite Hng3. lia.
    - reflexivity.
    - apply firstn_all.
    - reflexivity.
    - intros k g Hk Hge. apply lookup_lt_Some in Hk. lia.
    - simpl. apply Forall_replicate. repeat split; simpl;
        try apply NoDup_nil_2; intros x Hx; inversion Hx.
    - reflexivity. }
  apply bind_ok in Hrun as ([] & s4 & R4 & Hrun).
  assert (G4 : ghost_inv E s3 s4).
  { eapply (ghost_loop_hoare E s3 Hlen3); [lia|exact G3|exact R4]. }
  destruct G4 as [Nnum Nlen Nng Nnl Nloc Ngeo Nown Nex Nrai].
  unfold bind at 1 in Hrun. unfold gets at 1 in Hrun.
  unfold bind at 1 in Hrun. rewrite ENSURE_run in Hrun.
  set (s5 := (ENSURE E ensure_nghostcells_positive
                ((n_nodes E =? 1) || (0 <? nghostcells s4)) s4).2) in *.
  destruct (ENSURE_frame E ensure_nghostcells_positive
              ((n_nodes E =? 1) || (0 <? nghostcells s4)) s4) as (B5 & X5 & M5 & _).
  fold s5 in B5, X5, M5.
  unfold bind at 1 in Hrun. unfold gets at 1 in Hrun.
  assert (Hg5 : global_to_local s5 = global_to_local s4)
    by (apply (f_equal global_to_local) in B5; exact B5).
  assert (Ok5 : Forall (desc_ok s5) (exchange_vec s5)).
  { rewrite X5. eapply Forall_impl; [exact Nex|]. intros e. apply desc_ok_mono.
    intros x. rewrite Hg5. auto. }
  pose proof (finalize_loop_hoare E s5 Ok5 s5 tt s' eq_refl Hrun) as (F1 & F2 & F3).
  exists s3, s4.
  split; [exact G3|]. split; [exact Hlen3|]. split; [lia|].
  split; [simpl; rewrite Hrk3; reflexivity|].
  split; [exact Hgeo3|]. split; [exact Hidx3|]. split; [exact R4|].
  split; [|congruence].
  rewrite F1, X5. apply map_ext. intros e. unfold translated, local_index.
  rewrite Hg5. reflexivity.
Qed.

End ReinitStages.

(** [g] is one of the first [nlocalcells] entries of [cells]. *)
Definition local_cell (s : GridBasedGrid) (g : Z) : Prop :=
  exists i, cells s !! i = Some g /\ Z.of_nat i < nlocalcells s.

Section AfterReinit.

Context (E : Env).

(** What [reinit] has met when it returns; [raw] are the entries of
    [exchange_vec] before the third loop sorts and translates them. *)
Lemma reinit_facts s s' :
  reinit E s = (Ok tt, s') ->
  exists raw,
    exchange_vec s' = map (translated s') raw /\
    length raw = length (neighbor_ranks s') /\
    Forall (desc_ok s') raw /\
    (forall k e x, raw !! k = Some e ->
       (x ∈ recv e <-> exists g r, (local_cell s' g /\ x ∈ gb_full_shell_neigh_without_center (gbox E) g) /\
                                   foreign E s' x r /\ nidx s' r = Z.of_nat k)) /\
    (forall k e y, raw !! k = Some e ->
       (y ∈ send e <-> exists x r, (local_cell s' y /\ x ∈ gb_full_shell_neigh_without_center (gbox E) y) /\
                                   foreign E s' x r /\ nidx s' r = Z.of_nat k)) /\
    (forall k e, raw !! k = Some e ->
       (dest e = -1 /\ recv e = []) \/
       (exists x, x ∈ recv e /\ owner_of E s' x = Ok (dest e))) /\
    (forall g x, local_cell s' g -> x ∈ gb_full_shell_neigh_without_center (gbox E) g -> exists r, owner_of E s' x = Ok r) /\
    (forall g x r, local_cell s' g -> x ∈ gb_full_shell_neigh_without_center (gbox E) g -> foreign E s' x r ->
       0 <= nidx s' r < Z.of_nat (length (neighbor_ranks s')) /\
       is_Some (global_to_local s' !! x)) /\
    (forall k x, cells s' !! k = Some x -> nlocalcells s' <= Z.of_nat k ->
       exists g r, (local_cell s' g /\ x ∈ gb_full_shell_neigh_without_center (gbox E) g) /\ foreign E s' x r).
Proof.
  intros Hrun.
  destruct (reinit_stages E s s' Hrun)
    as (s3 & s4 & G3 & Hlen3 & Hn3 & Hev3 & Hgeo3 & Hidx3 & R4 & Hex & Hbes).
  assert (X3 : exch_inv E s3 (fun _ _ => False) s3).
  { split; try reflexivity.
    - intros k. reflexivity.
    - intros k e x Hk. rewrite Hev3 in Hk. apply lookup_replicate in Hk as [-> _].
      simpl. split; [intros H; inversion H|]. intros (g & r & [] & _).
    - intros k e x Hk. rewrite Hev3 in Hk. apply lookup_replicate in Hk as [-> _].
      simpl. split; [intros H; inversion H|]. intros (g & r & [] & _).
    - intros k e Hk. rewrite Hev3 in Hk. apply lookup_replicate in Hk as [-> _].
      left. auto.
    - intros g x r [].
    - intros g x [].
    - intros g x r [].
    - intros k x Hk Hge. apply lookup_lt_Some in Hk. lia. }
  destruct (ghost_loop_exch E s3 Hlen3 Hn3 s3 tt s4 (conj G3 X3) R4) as [G4 X4].
  destruct G4 as [Nnum Nlen Nng Nnl Nloc Ngeo Nown Nex Nrai].
  destruct X4 as [Y1 Y2 Y3 Y4 Y5 Y6 Y7 Y8 Y9].
  assert (Hcells : cells s' = cells s4) by (apply (f_equal cells) in Hbes; exact Hbes).
  assert (Hg2l : global_to_local s' = global_to_local s4)
    by (apply (f_equal global_to_local) in Hbes; exact Hbes).
  assert (Hnl : nlocalcells s' = nlocalcells s3).
  { rewrite <- Nnl. apply (f_equal nlocalcells) in Hbes. exact Hbes. }
  assert (Hgeo : geometry s' = geometry s3).
  { rewrite <- Ngeo. apply (f_equal geometry) in Hbes. exact Hbes. }
  assert (Hni : neighbor_idx s' = neighbor_idx s4)
    by (apply (f_equal neighbor_idx) in Hbes; exact Hbes).
  assert (Hrk : neighbor_ranks s' = neighbor_ranks s).
  { unfold geometry in Hgeo, Hgeo3. congruence. }
  assert (Hown : forall x, owner_of E s3 x = owner_of E s' x).
  { intros x. apply owner_of_geometry. symmetry. exact Hgeo. }
  assert (Hf : forall x r, foreign E s3 x r <-> foreign E s' x r).
  { intros x r. unfold foreign. rewrite Hown. reflexivity. }
  assert (Hn : forall r, nidx s3 r = nidx s' r).
  { intros r. unfold nidx. rewrite Hni. symmetry. apply Y1. }
  assert (Hloc : forall g, g ∈ cells s3 <-> local_cell s' g).
  { intros g. unfold local_cell. rewrite Hcells, Hnl, <- Nloc. split.
    - intros Hin. apply list_elem_of_lookup in Hin as [k Hk].
      apply lookup_take_Some in Hk as [Hk Hlt]. exists k. split; [exact Hk|lia].
    - intros (i & Hi & Hlt). apply list_elem_of_lookup. exists i.
      rewrite lookup_take_lt by lia. exact Hi. }
  assert (HP : forall g x, (g ∈ cells s3 /\ x ∈ gb_full_shell_neigh_without_center (gbox E) g) <-> (local_cell s' g /\ x ∈ gb_full_shell_neigh_without_center (gbox E) g)).
  { intros g x. rewrite Hloc. reflexivity. }
  exists (exchange_vec s4).
  split.
  { rewrite Hex. apply map_ext. intros e. unfold translated, local_index.
    rewrite Hg2l. reflexivity. }
  split; [rewrite Y2, Hev3, length_replicate, Hrk; reflexivity|].
  split.
  { eapply Forall_impl; [exact Nex|]. intros e. apply desc_ok_mono.
    intros x. rewrite Hg2l. auto. }
  split.
  { intros k e x Hk. rewrite (Y3 k e x Hk).
    split; intros (g & r & Hp & Hfr & Hkk); exists g, r.
    - rewrite <- HP, <- Hf, <- Hn. auto.
    - rewrite HP, Hf, Hn. auto. }
  split.
  { intros k e y Hk. rewrite (Y4 k e y Hk).
    split; intros (x & r & Hp & Hfr & Hkk); exists x, r.
    - rewrite <- HP, <- Hf, <- Hn. auto.
    - rewrite HP, Hf, Hn. auto. }
  split.
  { intros k e Hk. destruct (Y5 k e Hk) as [H|(x & Hx & Ho)]; [left; exact H|].
    right. exists x. rewrite <- Hown. auto. }
  split.
  { intros g x Hg Hx. rewrite <- Hown. apply (Y7 g x). apply HP. auto. }
  split.
  { intros g x r Hg Hx Hfr.
    assert (Hp : g ∈ cells s3 /\ x ∈ gb_full_shell_neigh_without_center (gbox E) g) by (apply HP; auto).
    apply Hf in Hfr.
    destruct (Y6 g x r Hp Hfr) as [Hnn Hslot].
    apply lookup_lt_is_Some in Hslot.
    rewrite Y2, Hev3, length_replicate, <- Hrk in Hslot.
    rewrite <- Hn, Hg2l. split; [lia|]. exact (Y8 g x r Hp Hfr). }
  intros k x Hk Hge. rewrite Hcells in Hk.
  destruct (Y9 k x Hk) as (g & r & Hp & Hfr); [lia|].
  exists g, r. rewrite <- HP, <- Hf. auto.
Qed.

End AfterReinit.

Section Layer.

Context (E : Env).

Lemma reinit_keys s s' :
  reinit E s = (Ok tt, s') ->
  forall x v, global_to_local s' !! x = Some v ->
              0 <= v /\ cells s' !! Z.to_nat v = Some x.
Proof.
  intros Hrun x v Hv.
  pose proof (reinit_nonneg_index E s) as (Hnn & _). rewrite Hrun in Hnn.
  pose proof (Hnn x v Hv) as Hpos. split; [exact Hpos|].
  apply (dc_numbered E s' (reinit_decomposed E s s' Hrun)).
  rewrite Z2Nat.id by exact Hpos. exact Hv.
Qed.

End Layer.

(** X14: when [reinit] returns, the ghost layer is complete and holds nothing
    else.  Every cell in the full shell of a local cell has been resolved to
    a rank, and if that rank is not the caller's the cell is in [cells], at
    the index [global_to_local] gives for it.  Conversely every entry of
    [cells] after the local ones is in the full shell of some local cell and
    belongs to another rank. *)
Theorem ghost_layer_after_reinit (E : Env) (s s' : GridBasedGrid) :
  reinit E s = (Ok tt, s') ->
  (forall g x, local_cell s' g ->
     x ∈ gb_full_shell_neigh_without_center (gbox E) g ->
     exists r, owner_of E s' x = Ok r /\
       (r <> this_node E ->
        exists j, cells s' !! j = Some x /\
                  global_to_local s' !! x = Some (Z.of_nat j))) /\
  (forall j x, cells s' !! j = Some x -> nlocalcells s' <= Z.of_nat j ->
     exists g r, local_cell s' g /\
       x ∈ gb_full_shell_neigh_without_center (gbox E) g /\
       owner_of E s' x = Ok r /\ r <> this_node E).
Proof.
  intros Hrun.
  destruct (reinit_facts E s s' Hrun)
    as (raw & _ & _ & _ & _ & _ & _ & Hres & Hkey & Hghost).
  split.
  - intros g x Hg Hx. destruct (Hres g x Hg Hx) as [r Hr]. exists r.
    split; [exact Hr|]. intros Hne.
    destruct (Hkey g x r Hg Hx (conj Hr Hne)) as [_ [v Hv]].
    destruct (reinit_keys E s s' Hrun x v Hv) as [Hpos Hc].
    exists (Z.to_nat v). split; [exact Hc|]. rewrite Z2Nat.id by exact Hpos. exact Hv.
  - intros j x Hj Hge. destruct (Hghost j x Hj Hge) as (g & r & [Hg Hx] & [Hr Hne]).
    exists g, r. auto.
Qed.

Lemma ghost_layer_after_reinit_witness :
  let E := env_two_ranks 0 in
  let s' := (reinit (env_two_ranks 0) (two_ranks_grid 0)).2 in
  (forall g x, local_cell s' g ->
     x ∈ gb_full_shell_neigh_without_center (gbox E) g ->
     exists r, owner_of E s' x = Ok r /\
       (r <> this_node E ->
        exists j, cells s' !! j = Some x /\
                  global_to_local s' !! x = Some (Z.of_nat j))) /\
  (forall j x, cells s' !! j = Some x -> nlocalcells s' <= Z.of_nat j ->
     exists g r, local_cell s' g /\
       x ∈ gb_full_shell_neigh_without_center (gbox E) g /\
       owner_of E s' x = Ok r /\ r <> this_node E).
Proof.
  apply (ghost_layer_after_reinit (env_two_ranks 0) (two_ranks_grid 0)
           (reinit (env_two_ranks 0) (two_ranks_grid 0)).2).
  vm_compute. reflexivity.
Defined.

(** X15: when [reinit] returns, [exchange_vec] has one entry per neighbour.
    In the entry number [k] the indices to send are exactly the local
    indices of the local cells that have, in their full shell, a cell of
    another rank [r] with [neighbor_idx[r] == k]; the indices to receive are
    exactly the indices of those cells of other ranks.  So every index to
    send is below [nlocalcells] and every index to receive is an index of
    [cells].  An entry that met no such cell keeps [dest == -1] and both
    lists empty; otherwise both lists are non-empty and [dest] is a rank,
    other than the caller's, whose [neighbor_idx] is [k]. *)
Theorem exchange_descriptors (E : Env) (s s' : GridBasedGrid) :
  reinit E s = (Ok tt, s') ->
  length (exchange_vec s') = length (neighbor_ranks s') /\
  forall k e, exchange_vec s' !! k = Some e ->
    (forall j, j ∈ recv e <->
       exists x g r, global_to_local s' !! x = Some j /\ local_cell s' g /\
         x ∈ gb_full_shell_neigh_without_center (gbox E) g /\
         owner_of E s' x = Ok r /\ r <> this_node E /\ nidx s' r = Z.of_nat k) /\
    (forall j, j ∈ send e <->
       exists y x r, global_to_local s' !! y = Some j /\ local_cell s' y /\
         x ∈ gb_full_shell_neigh_without_center (gbox E) y /\
         owner_of E s' x = Ok r /\ r <> this_node E /\ nidx s' r = Z.of_nat k) /\
    (forall j, j ∈ send e -> 0 <= j < nlocalcells s') /\
    (forall j, j ∈ recv e -> 0 <= j < nlocalcells s' + nghostcells s') /\
    ((dest e = -1 /\ recv e = [] /\ send e = []) \/
     (nidx s' (dest e) = Z.of_nat k /\ dest e <> this_node E /\
      recv e <> [] /\ send e <> [])).
Proof.
  intros Hrun.
  destruct (reinit_facts E s s' Hrun)
    as (raw & Hex & Hlen & Hok & Hrecv & Hsend & Hdest & Hres & Hkey & Hghost).
  pose proof (reinit_keys E s s' Hrun) as Hkeys.
  destruct (reinit_decomposed E s s' Hrun) as [Hnum Hclen Hnl Hng _ _ _ _].
  split; [rewrite Hex, length_map; exact Hlen|].
  intros k e Hk. rewrite Hex, list_lookup_fmap in Hk.
  destruct (raw !! k) as [e0|] eqn:Hraw; [|discriminate]. injection Hk as <-.
  pose proof (Forall_lookup_1 _ _ _ _ Hok Hraw) as (N1 & N2 & K1 & K2).
  assert (Hli : forall x v, global_to_local s' !! x = Some v -> local_index s' x = v).
  { intros x v Hv. unfold local_index. rewrite Hv. reflexivity. }
  assert (Hr : forall j, j ∈ recv (translated s' e0) <->
                         exists x, x ∈ recv e0 /\ global_to_local s' !! x = Some j).
  { intros j. cbn [recv translated]. rewrite list_elem_of_fmap. split.
    - intros (x & -> & Hx). apply (proj1 (std_sort_elem _ _)) in Hx. exists x. split; [exact Hx|].
      destruct (K1 x Hx) as [v Hv]. rewrite (Hli x v Hv). exact Hv.
    - intros (x & Hx & Hv). exists x. split; [symmetry; apply Hli, Hv|].
      apply (proj2 (std_sort_elem _ _)), Hx. }
  assert (Hs : forall j, j ∈ send (translated s' e0) <->
                         exists y, y ∈ send e0 /\ global_to_local s' !! y = Some j).
  { intros j. cbn [send translated]. rewrite list_elem_of_fmap. split.
    - intros (x & -> & Hx). apply (proj1 (std_sort_elem _ _)) in Hx. exists x. split; [exact Hx|].
      destruct (K2 x Hx) as [v Hv]. rewrite (Hli x v Hv). exact Hv.
    - intros (x & Hx & Hv). exists x. split; [symmetry; apply Hli, Hv|].
      apply (proj2 (std_sort_elem _ _)), Hx. }
  assert (Hrecv_iff : forall j, j ∈ recv (translated s' e0) <->
       exists x g r, global_to_local s' !! x = Some j /\ local_cell s' g /\
         x ∈ gb_full_shell_neigh_without_center (gbox E) g /\
         owner_of E s' x = Ok r /\ r <> this_node E /\ nidx s' r = Z.of_nat k).
  { intros j. rewrite Hr. split.
    - intros (x & Hx & Hv). apply (Hrecv k e0 x Hraw) in Hx
        as (g & r & [Hg Hxs] & [Ho Hne] & Hn).
      exists x, g, r. auto 10.
    - intros (x & g & r & Hv & Hg & Hxs & Ho & Hne & Hn). exists x. split; [|exact Hv].
      apply (Hrecv k e0 x Hraw). exists g, r. repeat split; assumption. }
  assert (Hsend_iff : forall j, j ∈ send (translated s' e0) <->
       exists y x r, global_to_local s' !! y = Some j /\ local_cell s' y /\
         x ∈ gb_full_shell_neigh_without_center (gbox E) y /\
         owner_of E s' x = Ok r /\ r <> this_node E /\ nidx s' r = Z.of_nat k).
  { intros j. rewrite Hs. split.
    - intros (y & Hy & Hv). apply (Hsend k e0 y Hraw) in Hy
        as (x & r & [Hg Hxs] & [Ho Hne] & Hn).
      exists y, x, r. auto 10.
    - intros (y & x & r & Hv & Hg & Hxs & Ho & Hne & Hn). exists y. split; [|exact Hv].
      apply (Hsend k e0 y Hraw). exists x, r. repeat split; assumption. }
  split; [exact Hrecv_iff|]. split; [exact Hsend_iff|].
  split.
  { intros j Hj. apply Hsend_iff in Hj as (y & x & r & Hv & (i & Hi & Hlt) & _).
    apply Hnum in Hi. rewrite Hi in Hv. injection Hv as <-. lia. }
  split.
  { intros j Hj. apply Hrecv_iff in Hj as (x & g & r & Hv & _).
    destruct (Hkeys x j Hv) as [Hpos Hc]. apply lookup_lt_Some in Hc. lia. }
  destruct (Hdest k e0 Hraw) as [[Hd Hnil]|(x & Hx & Ho)].
  - left. cbn [dest translated]. split; [exact Hd|].
    assert (Hsnil : send e0 = []).
    { destruct (send e0) as [|y l] eqn:Hse; [reflexivity|exfalso].
      assert (Hy : y ∈ send e0) by (rewrite Hse; apply elem_of_cons; auto).
      apply (Hsend k e0 y Hraw) in Hy as (x & r & [Hg Hxs] & Hfr & Hn).
      assert (Hx : x ∈ recv e0).
      { apply (Hrecv k e0 x Hraw). exists y, r. auto. }
      rewrite Hnil in Hx. inversion Hx. }
    cbn [recv send translated]. rewrite Hnil, Hsnil. split; reflexivity.
  - right. cbn [dest translated].
    pose proof Hx as Hx'.
    apply (Hrecv k e0 x Hraw) in Hx' as (g & r & [Hg Hxs] & [Ho' Hne] & Hn).
    assert (r = dest e0) by congruence. subst r.
    split; [exact Hn|]. split; [exact Hne|].
    destruct (K1 x Hx) as [v Hv].
    assert (Hg' : g ∈ send e0).
    { apply (Hsend k e0 g Hraw). exists x, (dest e0). repeat split; assumption. }
    destruct (K2 g Hg') as [u Hu].
    split.
    + intros Hnil. assert (Hin : v ∈ recv (translated s' e0)) by (apply Hr; eauto).
      rewrite Hnil in Hin. inversion Hin.
    + intros Hnil. assert (Hin : u ∈ send (translated s' e0)) by (apply Hs; eauto).
      rewrite Hnil in Hin. inversion Hin.
Qed.

Lemma exchange_descriptors_witness :
  let E := env_two_ranks 0 in
  let s' := (reinit (env_two_ranks 0) (two_ranks_grid 0)).2 in
  length (exchange_vec s') = length (neighbor_ranks s') /\
  forall k e, exchange_vec s' !! k = Some e ->
    (forall j, j ∈ recv e <->
       exists x g r, global_to_local s' !! x = Some j /\ local_cell s' g /\
         x ∈ gb_full_shell_neigh_without_center (gbox E) g /\
         owner_of E s' x = Ok r /\ r <> this_node E /\ nidx s' r = Z.of_nat k) /\
    (forall j, j ∈ send e <->
       exists y x r, global_to_local s' !! y = Some j /\ local_cell s' y /\
         x ∈ gb_full_shell_neigh_without_center (gbox E) y /\
         owner_of E s' x = Ok r /\ r <> this_node E /\ nidx s' r = Z.of_nat k) /\
    (forall j, j ∈ send e -> 0 <= j < nlocalcells s') /\
    (forall j, j ∈ recv e -> 0 <= j < nlocalcells s' + nghostcells s') /\
    ((dest e = -1 /\ recv e = [] /\ send e = []) \/
     (nidx s' (dest e) = Z.of_nat k /\ dest e <> this_node E /\
      recv e <> [] /\ send e <> [])).
Proof.
  apply (exchange_descriptors (env_two_ranks 0) (two_ranks_grid 0)
           (reinit (env_two_ranks 0) (two_ranks_grid 0)).2).
  vm_compute. reflexivity.
Defined.

(* ===================================================================== *)
(** ** cell_neighbor_index *)
(* ===================================================================== *)

(** Every cell in the full shell of a local cell is resolved, and is in
    [cells] if it belongs to another rank. *)
Definition layer_complete (E : Env) (s : GridBasedGrid) : Prop :=
  forall g x, local_cell s g ->
    x ∈ gb_full_shell_neigh_without_center (gbox E) g ->
    exists r, owner_of E s x = Ok r /\ (r <> this_node E -> x ∈ cells s).

Section NeighbourIndex.

Context (E : Env).

Lemma layer_complete_view s s' :
  cells s' = cells s -> nlocalcells s' = nlocalcells s -> geometry s' = geometry s ->
  layer_complete E s -> layer_complete E s'.
Proof.
  intros Hc Hn Hg H g x Hloc Hx.
  assert (Hloc' : local_cell s g).
  { unfold local_cell in *. rewrite Hc, Hn in Hloc. exact Hloc. }
  destruct (H g x Hloc' Hx) as (r & Hr & Hin). exists r.
  rewrite (owner_of_geometry E s' s x Hg), Hc. auto.
Qed.

Lemma reinit_layer_complete s s' : reinit E s = (Ok tt, s') -> layer_complete E s'.
Proof.
  intros Hrun g x Hg Hx.
  destruct (reinit_facts E s s' Hrun)
    as (raw & _ & _ & _ & _ & _ & _ & Hres & Hkey & _).
  destruct (Hres g x Hg Hx) as [r Hr]. exists r. split; [exact Hr|]. intros Hne.
  destruct (Hkey g x r Hg Hx (conj Hr Hne)) as [_ [v Hv]].
  destruct (reinit_keys E s s' Hrun x v Hv) as [_ Hc].
  apply list_elem_of_lookup. eauto.
Qed.

Lemma settled_layer_complete s : settled E s -> layer_complete E s.
Proof.
  induction 1 as [peers s Hc|c s Hs IH|a net s b s' Hs IH Hrun].
  - destruct (construct_reinit E peers s Hc) as [s1 H1].
    exact (reinit_layer_complete s1 s H1).
  - assert (H0 : query_frame s s).
    { split; try reflexivity; apply grown_refl. }
    destruct (query_frame_run_call E s c s H0) as [H1 H2 H3 H4 H5 H6 H7 H8].
    eapply layer_complete_view; eauto.
  - destruct b.
    + destruct (repartition_true_reinit E a net s s' Hrun) as [s1 H1].
      exact (reinit_layer_complete s1 s' H1).
    + pose proof (repartition_false_view E a net s s' Hrun) as Hv.
      unfold resolver_view in Hv.
      assert (Hc : cells s' = cells s) by congruence.
      assert (Hn : nlocalcells s' = nlocalcells s) by congruence.
      intros g x Hloc Hx.
      assert (Hloc' : local_cell s g).
      { unfold local_cell in *. rewrite Hc, Hn in Hloc. exact Hloc. }
      destruct (IH g x Hloc' Hx) as (r & Hr & Hin). exists r.
      rewrite (owner_of_view E s' s x Hv), Hc. auto.
Qed.

End NeighbourIndex.

(** X16: in a grid whose calls have returned so far, for an index [cellidx]
    of [cells] and the cell [n = gbox.neighbor(cells[cellidx], neigh)]:
    [cell_neighbor_index] returns the index of [n] in [cells] if [n] is
    there, and otherwise the subscript [global_to_local[n]] gives 0, the
    index of the first local cell, without any error.  For a local
    [cellidx], a cell [n] of the full shell that belongs to another rank is
    always in [cells].  An index outside [cells] is read out of range. *)
Theorem cell_neighbor_index_lookup (E : Env) (s : GridBasedGrid) (cellidx neigh : Z) :
  settled E s ->
  let out := (cell_neighbor_index E cellidx neigh s).1 in
  (vec_at (cells s) cellidx = None -> out = Throw bad_index) /\
  (forall c, vec_at (cells s) cellidx = Some c ->
     let n := gb_neighbor (gbox E) c neigh in
     (forall j, cells s !! j = Some n -> out = Ok (Z.of_nat j)) /\
     (n ∉ cells s -> out = Ok 0) /\
     (cellidx < nlocalcells s ->
      n ∈ gb_full_shell_neigh_without_center (gbox E) c ->
      exists r, owner_of E s n = Ok r /\ (r <> this_node E -> n ∈ cells s))).
Proof.
  intros Hs out.
  pose proof (settled_indexed E s Hs) as [I1 I2 I3 I4 I5].
  pose proof (settled_layer_complete E s Hs) as Hlayer.
  assert (Hout : out = match vec_at (cells s) cellidx with
                       | None => Throw bad_index
                       | Some c =>
                           Ok (map_subscript (global_to_local s)
                                 (gb_neighbor (gbox E) c neigh)).1
                       end).
  { unfold out, cell_neighbor_index, bind, gets, lift_opt.
    destruct (vec_at (cells s) cellidx) as [c|]; [|reflexivity].
    unfold ret. rewrite global_to_local_subscript_run. reflexivity. }
  rewrite Hout. clear Hout. clearbody out.
  split.
  - intros Hnone. rewrite Hnone. reflexivity.
  - intros c Hc. cbv zeta. rewrite Hc.
    set (n := gb_neighbor (gbox E) c neigh).
    split; [|split].
    + intros j Hj. unfold map_subscript. rewrite (I1 j n Hj). reflexivity.
    + intros Hnot. unfold map_subscript.
      destruct (global_to_local s !! n) as [v|] eqn:Hv; [|reflexivity].
      cbn [fst]. destruct (I2 n v Hv) as [->|[_ Hcv]]; [reflexivity|].
      exfalso. apply Hnot. apply list_elem_of_lookup. eauto.
    + intros Hlt Hn. apply (Hlayer c n); [|exact Hn].
      unfold vec_at in Hc. destruct (Z.ltb_spec cellidx 0); [discriminate|].
      exists (Z.to_nat cellidx). split; [exact Hc|lia].
Qed.

Lemma cell_neighbor_index_lookup_witness :
  let E := env_two_ranks 0 in
  let s := two_ranks_grid 0 in
  let out := (cell_neighbor_index E 0 0 s).1 in
  (vec_at (cells s) 0 = None -> out = Throw bad_index) /\
  (forall c, vec_at (cells s) 0 = Some c ->
     let n := gb_neighbor (gbox E) c 0 in
     (forall j, cells s !! j = Some n -> out = Ok (Z.of_nat j)) /\
     (n ∉ cells s -> out = Ok 0) /\
     (0 < nlocalcells s ->
      n ∈ gb_full_shell_neigh_without_center (gbox E) c ->
      exists r, owner_of E s n = Ok r /\ (r <> this_node E -> n ∈ cells s))).
Proof.
  apply (cell_neighbor_index_lookup (env_two_ranks 0) (two_ranks_grid 0) 0 0).
  apply settled_construct with (peers := two_ranks_corners). vm_compute. reflexivity.
Defined.

(* ===================================================================== *)
(** ** When reinit returns *)
(* ===================================================================== *)


Section Returns.

Context (E : Env).




End Returns.


Section ReinitReturns.

Context (E : Env).



End ReinitReturns.



(* ===================================================================== *)
(** ** position_to_cell_index, checked and unchecked *)
(* ===================================================================== *)

(** X18: the two checks of [position_to_cell_index] exist with [GRID_DEBUG]
    only.  Built with it, the call throws the domain error, and leaves the
    object as it is, for every position [position_to_rank] resolves to
    another rank, and it passes on what [position_to_rank] throws.  Built
    without it, the call never throws and never asks for the owner: it
    returns [global_to_local[cell_at_pos(pos)]] for every position, the index
    of a ghost cell if the cell is one, and 0, after inserting the key, if
    the cell is unknown to the map. *)
Theorem position_to_cell_index_unchecked (E : Env) (s : GridBasedGrid) (pos : Vec3d) :
  let g := gb_cell_at_pos (gbox E) pos in
  let out := position_to_cell_index E pos s in
  (GRID_DEBUG E = true ->
   (forall r, (position_to_rank E pos s).1 = Ok r -> r <> this_node E ->
      out = (Throw domain_error_not_in_local_box, s)) /\
   (forall e, (position_to_rank E pos s).1 = Throw e -> out = (Throw e, s))) /\
  (GRID_DEBUG E = false ->
   out = (Ok (local_index s g),
          with_global_to_local (map_subscript (global_to_local s) g).2 s) /\
   (global_to_local s !! g = None ->
    out.1 = Ok 0 /\ global_to_local out.2 !! g = Some 0) /\
   (forall k, global_to_local s !! g = Some k -> out = (Ok k, s))).
Proof.
  intros g out. unfold out, position_to_cell_index. split.
  - intros Hd. rewrite Hd. split.
    + intros r Hr Hne. unfold position_to_rank in *. cbn [fst] in Hr.
      unfold bind at 1. unfold bind at 1. unfold bind at 1. rewrite Hr.
      destruct (Z.eqb_spec r (this_node E)) as [Heq|_]; [contradiction|].
      reflexivity.
    + intros e He. unfold position_to_rank in *. cbn [fst] in He.
      unfold bind at 1. unfold bind at 1. unfold bind at 1. rewrite He. reflexivity.
  - intros Hd. rewrite Hd.
    assert (Hrun : (ret tt ;;;
                    i <- global_to_local_subscript (gb_cell_at_pos (gbox E) pos) ;;
                    ret tt ;;; ret i)%meth s
                   = (Ok (local_index s g),
                      with_global_to_local (map_subscript (global_to_local s) g).2 s)).
    { unfold bind at 1. unfold ret at 1. unfold bind at 1.
      rewrite global_to_local_subscript_run. fold g.
      rewrite map_subscript_fst. reflexivity. }
    rewrite Hrun. split; [reflexivity|]. split.
    + intros Hnone. cbn [fst snd global_to_local with_global_to_local].
      unfold local_index, map_subscript. rewrite Hnone. cbn [snd default].
      rewrite lookup_insert_eq. auto.
    + intros k Hk. unfold local_index, map_subscript. rewrite Hk. cbn [snd default].
      rewrite with_global_to_local_id. reflexivity.
Qed.

(* ===================================================================== *)
(** ** A callback that throws *)
(* ===================================================================== *)

(** The run of [init_octagons] in an accepted call of rank [q], up to the
    callback. *)
Definition at_callback (w : World) (q : Z) (p : Process) : Res unit * GridBasedGrid :=
  init_octagons (pr_env p) (w_candidate w)
    (with_is_regular_grid false
       (with_gridpoints (w_gridpoints w)
          (with_gridpoint (w_candidate w q) (pr_grid p)))).

Lemma run_calls_frame (E : Env) (s0 : GridBasedGrid) cb :
  preserved (query_frame s0) (run_calls E cb).
Proof.
  unfold run_calls. apply preserved_for_each. intros c. apply query_frame_run_call.
Qed.

(** X19: [repartition] has no rollback on the accepting path.  When no rank
    reports a conflict and [exchange_start_callback] throws, the exception
    leaves [repartition] before [reinit] is called: the grid point, the
    gathered grid points and the octagons are the new ones and the grid is
    irregular, while [cells], the two counts and [exchange_vec] are still
    those of the old decomposition. *)
Theorem repartition_callback_throws (w : World) (q : Z) (p : Process) (e : exn) :
  world_ok w -> vec_at w q = Some p -> world_conflicts w <= 0 ->
  (at_callback w q p).1 = Ok tt ->
  (run_calls (pr_env p) (ra_callback (pr_args p)) (at_callback w q p).2).1 = Throw e ->
  let out := repartition (pr_env p) (pr_args p) (world_net w) (pr_grid p) in
  out.1 = Throw e /\
  cells out.2 = cells (pr_grid p) /\
  nlocalcells out.2 = nlocalcells (pr_grid p) /\
  nghostcells out.2 = nghostcells (pr_grid p) /\
  exchange_vec out.2 = exchange_vec (pr_grid p) /\
  grown (global_to_local (pr_grid p)) (global_to_local out.2) /\
  is_regular_grid out.2 = false /\
  gridpoint out.2 = w_candidate w q /\
  gridpoints out.2 = w_gridpoints w /\
  my_dom out.2 = my_dom (at_callback w q p).2 /\
  neighbor_doms out.2 = neighbor_doms (at_callback w q p).2.
Proof.
  intros Hw Hp Hnc Hoct Hcb out.
  destruct (Hw q p Hp) as (Hq & Hn & Ht & Hreach).
  assert (Hrun : out = (Throw e,
            (run_calls (pr_env p) (ra_callback (pr_args p)) (at_callback w q p).2).2)).
  { unfold out. rewrite (world_repartition_rank w q p Hw Hp). cbv zeta.
    destruct (Z.ltb_spec 0 (world_conflicts w)) as [Hlt|_]; [lia|].
    unfold accept. unfold bind at 1. unfold modify at 1.
    unfold bind at 1. cbn [net_gridpoint_octagons world_net].
    fold (at_callback w q p).
    destruct (at_callback w q p) as [[[]|e0] s2]; [|discriminate].
    cbn [fst snd] in *. unfold bind at 1.
    destruct (run_calls (pr_env p) (ra_callback (pr_args p)) s2) as [[u|e1] s3];
      [discriminate|].
    cbn [fst] in Hcb. injection Hcb as ->. reflexivity. }
  rewrite Hrun. cbn [fst snd].
  set (s2 := (at_callback w q p).2).
  assert (F2 : query_frame s2 s2) by (split; try reflexivity; apply grown_refl).
  destruct (run_calls_frame (pr_env p) s2 (ra_callback (pr_args p)) s2 F2)
    as [Q1 Q2 Q3 Q4 Q5 Q6 Q7 Q8].
  set (I := fun t => cells t = cells (pr_grid p) /\ nlocalcells t = nlocalcells (pr_grid p) /\
                     nghostcells t = nghostcells (pr_grid p) /\
                     exchange_vec t = exchange_vec (pr_grid p) /\
                     global_to_local t = global_to_local (pr_grid p) /\
                     is_regular_grid t = false /\ gridpoint t = w_candidate w q).
  assert (HI : I s2).
  { unfold s2, at_callback.
    assert (P : preserved I (init_octagons (pr_env p) (w_candidate w))).
    { unfold init_octagons. repeat frame_step; assumption. }
    apply P. repeat split. }
  destruct HI as (I1 & I2 & I3 & I4 & I5 & I6 & I7).
  assert (Hgps : gridpoints s2 = w_gridpoints w).
  { unfold s2, at_callback. rewrite init_octagons_unfold.
    assert (P : preserved (fun t => gridpoints t = w_gridpoints w) (build_octagons (pr_env p))).
    { unfold build_octagons. repeat frame_step; assumption. }
    apply P. cbn [gridpoints gridpoint with_gridpoints with_gridpoint with_is_regular_grid].
    rewrite <- Hq. rewrite all_gather_consistent, Hn. reflexivity. }
  unfold geometry in Q5.
  repeat split; try congruence.
  - rewrite <- I5. exact (proj1 Q7).
  - rewrite <- I5. exact (proj2 Q7).
Qed.

(** Rank 0 of [four_wide_world] with a callback that asks for the cell of a
    position of rank 1. *)
Definition faulty_load : RepartArgs :=
  mkRepartArgs [1%float] [] [call_position_to_cell_index (mkVec3 3.5 0.5 0.5)%float].

Definition four_wide_faulty : World :=
  [ mkProcess (env_four_wide 0) (four_wide_grid 0) faulty_load;
    mkProcess (env_four_wide 1) (four_wide_grid 1) unit_load ].

Lemma four_wide_faulty_ok : world_ok four_wide_faulty.
Proof.
  intros q p H. pose proof (vec_at_Some_range _ _ _ H) as Hq. simpl in Hq.
  assert (Hcases : q = 0 \/ q = 1) by lia.
  destruct Hcases as [-> | ->]; injection H as <-.
  - split; [reflexivity|]. split; [reflexivity|]. split.
    + unfold topology_ok. simpl. lia.
    + apply reach_construct with (peers := four_wide_corners). vm_compute. reflexivity.
  - split; [reflexivity|]. split; [reflexivity|]. split.
    + unfold topology_ok. simpl. lia.
    + apply reach_construct with (peers := four_wide_corners). vm_compute. reflexivity.
Defined.

Lemma repartition_callback_throws_witness :
  let w := four_wide_faulty in
  let p := mkProcess (env_four_wide 0) (four_wide_grid 0) faulty_load in
  let out := repartition (pr_env p) (pr_args p) (world_net w) (pr_grid p) in
  out.1 = Throw domain_error_not_in_local_box /\
  cells out.2 = cells (pr_grid p) /\
  nlocalcells out.2 = nlocalcells (pr_grid p) /\
  nghostcells out.2 = nghostcells (pr_grid p) /\
  exchange_vec out.2 = exchange_vec (pr_grid p) /\
  grown (global_to_local (pr_grid p)) (global_to_local out.2) /\
  is_regular_grid out.2 = false /\
  gridpoint out.2 = w_candidate w 0 /\
  gridpoints out.2 = w_gridpoints w /\
  my_dom out.2 = my_dom (at_callback w 0 p).2 /\
  neighbor_doms out.2 = neighbor_doms (at_callback w 0 p).2.
Proof.
  apply (repartition_callback_throws four_wide_faulty 0
           (mkProcess (env_four_wide 0) (four_wide_grid 0) faulty_load)
           domain_error_not_in_local_box).
  - exact four_wide_faulty_ok.
  - reflexivity.
  - vm_compute. discriminate.
  - vm_compute. reflexivity.
  - vm_compute. reflexivity.
Defined.

(* ===================================================================== *)
(** ** repartition when no rank has any load *)
(* ===================================================================== *)

(** NaN through the operations of [repartition]. *)
Lemma nan_mul_l x : (nan * x)%float = nan.
Proof.
  apply Prim2SF_inj. rewrite mul_spec. unfold SF64mul, SFmul.
  change (Prim2SF nan) with S754_nan. reflexivity.
Qed.

Lemma nan_mul_r x : (x * nan)%float = nan.
Proof.
  apply Prim2SF_inj. rewrite mul_spec. unfold SF64mul, SFmul.
  change (Prim2SF nan) with S754_nan. destruct (Prim2SF x); reflexivity.
Qed.

Lemma nan_div_l x : (nan / x)%float = nan.
Proof.
  apply Prim2SF_inj. rewrite div_spec. unfold SF64div, SFdiv.
  change (Prim2SF nan) with S754_nan. reflexivity.
Qed.

Lemma nan_add_l x : (nan + x)%float = nan.
Proof.
  apply Prim2SF_inj. rewrite add_spec. unfold SF64add, SFadd.
  change (Prim2SF nan) with S754_nan. reflexivity.
Qed.

Lemma nan_add_r x : (x + nan)%float = nan.
Proof.
  apply Prim2SF_inj. rewrite add_spec. unfold SF64add, SFadd.
  change (Prim2SF nan) with S754_nan. destruct (Prim2SF x); reflexivity.
Qed.

Lemma nan_sub_l x : (nan - x)%float = nan.
Proof.
  apply Prim2SF_inj. rewrite sub_spec. unfold SF64sub, SFsub.
  change (Prim2SF nan) with S754_nan. reflexivity.
Qed.

Lemma nan_sub_r x : (x - nan)%float = nan.
Proof.
  apply Prim2SF_inj. rewrite sub_spec. unfold SF64sub, SFsub.
  change (Prim2SF nan) with S754_nan. destruct (Prim2SF x); reflexivity.
Qed.

Lemma nan_ltb_l x : (nan <? x)%float = false.
Proof.
  rewrite ltb_spec. unfold SFltb, SFcompare.
  change (Prim2SF nan) with S754_nan. reflexivity.
Qed.

Lemma nan_ltb_r x : (x <? nan)%float = false.
Proof.
  rewrite ltb_spec. unfold SFltb, SFcompare.
  change (Prim2SF nan) with S754_nan. destruct (Prim2SF x); reflexivity.
Qed.

Definition is_nan_double (x : double) : bool :=
  match Prim2SF x with S754_nan => true | _ => false end.

Lemma is_nan_double_eq x : is_nan_double x = true -> x = nan.
Proof.
  unfold is_nan_double. intros H. apply Prim2SF_inj. change (Prim2SF nan) with S754_nan.
  destruct (Prim2SF x); try discriminate. reflexivity.
Qed.

(** A vector with a NaN coordinate. *)
Definition has_nan (v : Vec3d) : bool :=
  is_nan_double (c0 v) || is_nan_double (c1 v) || is_nan_double (c2 v).

Lemma nan_sqrt : PrimFloat.sqrt nan = nan.
Proof. reflexivity. Qed.

Lemma dist2_nan_l p q : has_nan p = true -> dist2 p q = nan.
Proof.
  destruct p as [p0 p1 p2], q as [q0 q1 q2].
  unfold has_nan, dist2, norm2, vsub, vmap2. cbn [c0 c1 c2]. intros H.
  apply orb_prop in H as [H|H]; [apply orb_prop in H as [H|H]|];
    apply is_nan_double_eq in H; rewrite H, nan_sub_l, nan_mul_l;
    rewrite ?nan_add_l, ?nan_add_r, ?nan_add_l; reflexivity.
Qed.

Lemma dist2_nan_r p q : has_nan q = true -> dist2 p q = nan.
Proof.
  destruct p as [p0 p1 p2], q as [q0 q1 q2].
  unfold has_nan, dist2, norm2, vsub, vmap2. cbn [c0 c1 c2]. intros H.
  apply orb_prop in H as [H|H]; [apply orb_prop in H as [H|H]|];
    apply is_nan_double_eq in H; rewrite H, nan_sub_r, nan_mul_l;
    rewrite ?nan_add_l, ?nan_add_r, ?nan_add_l; reflexivity.
Qed.

Lemma count_conflicts_cons thr p rest :
  count_conflicts thr (p :: rest) =
  Z.of_nat (length (filter (fun q => (dist2 p q <? thr)%float = true) rest))
  + count_conflicts thr rest.
Proof. reflexivity. Qed.

Lemma close_filter_sound thr p (l : list Vec3d) :
  length (filter (fun q => (dist2 p q <? thr)%float = true) l) =
  length (filter (fun q => (dist2 p q <? thr)%float = true)
            (filter (fun q => has_nan q = false) l)).
Proof.
  induction l as [|q l IH]; [reflexivity|].
  rewrite !filter_cons. destruct (has_nan q) eqn:Hq.
  - rewrite (dist2_nan_r p q Hq), nan_ltb_l.
    repeat case_decide; try discriminate; try congruence; exact IH.
  - repeat case_decide; try congruence; rewrite !filter_cons;
      repeat case_decide; try congruence; simpl; rewrite IH; reflexivity.
Qed.

(** X20: the admissibility check of [repartition] does not see a corner that
    has a NaN coordinate: the pairs it counts are the pairs among the other
    corners of the bounding box, so a box of which every corner has one counts
    no conflict; and it counts none at all when the threshold (twice the
    smallest cell edge) is NaN. *)
Theorem count_conflicts_skips_nan (thr : double) (bb : list Vec3d) :
  count_conflicts thr bb
    = count_conflicts thr (filter (fun q => has_nan q = false) bb) /\
  (forallb has_nan bb = true -> count_conflicts thr bb = 0) /\
  count_conflicts nan bb = 0.
Proof.
  assert (H1 : forall l, count_conflicts thr l
                         = count_conflicts thr (filter (fun q => has_nan q = false) l)).
  { induction l as [|p l IH]; [reflexivity|].
    rewrite count_conflicts_cons, filter_cons. destruct (has_nan p) eqn:Hp.
    - case_decide; [discriminate|]. rewrite <- IH.
      assert (Hz : filter (fun q => (dist2 p q <? thr)%float = true) l = []).
      { clear IH. induction l as [|q l IHl]; [reflexivity|].
        rewrite filter_cons, (dist2_nan_l p q Hp), nan_ltb_l.
        case_decide; [discriminate|]. exact IHl. }
      rewrite Hz. reflexivity.
    - case_decide; [|congruence]. rewrite count_conflicts_cons, <- IH.
      rewrite <- close_filter_sound. reflexivity. }
  split; [apply H1|]. split.
  - intros Hall. rewrite H1.
    assert (Hnil : filter (fun q => has_nan q = false) bb = []).
    { induction bb as [|p l IH]; [reflexivity|]. simpl in Hall.
      apply andb_prop in Hall as [Hp Hl]. rewrite filter_cons.
      case_decide; [congruence|]. apply IH, Hl. }
    rewrite Hnil. reflexivity.
  - clear H1. induction bb as [|p l IH]; [reflexivity|].
    rewrite count_conflicts_cons, IH.
    assert (Hz : filter (fun q => (dist2 p q <? nan)%float = true) l = []).
    { clear IH. induction l as [|q l IHl]; [reflexivity|].
      rewrite filter_cons, nan_ltb_r. case_decide; [discriminate|]. exact IHl. }
    rewrite Hz. reflexivity.
Qed.

Section Idle.

Context (E : Env).

Lemma accumulate_zeros (l : list double) :
  Forall (fun x => x = 0%float) l -> accumulate l = 0%float.
Proof.
  unfold accumulate. induction 1 as [|x l Hx _ IH]; [reflexivity|].
  simpl. subst x. exact IH.
Qed.

Lemma normaliser_zero (n : Z) : 1 <= n <= 8 -> (0 / Z2F n)%float = 0%float.
Proof.
  intros H.
  assert (Hc : n = 1 \/ n = 2 \/ n = 3 \/ n = 4 \/ n = 5 \/ n = 6 \/ n = 7 \/ n = 8) by lia.
  repeat (destruct Hc as [-> | Hc]; [reflexivity|]). subst n. reflexivity.
Qed.

Definition all_nan (v : Vec3d) : Prop := c0 v = nan /\ c1 v = nan /\ c2 v = nan.

Lemma force_nan gp r : all_nan (force gp nan r).
Proof.
  unfold all_nan, force. cbv zeta. cbn [c0 c1 c2].
  rewrite nan_sub_l, !nan_mul_l, !nan_div_l. repeat split.
Qed.

Lemma forces_nan n gp (lambda : list double) (r : list Vec3d) :
  1 <= n <= 8 -> Forall (fun x => x = 0%float) lambda ->
  Forall all_nan (forces n gp lambda r).
Proof.
  intros Hn Hl. unfold forces. cbv zeta.
  rewrite (accumulate_zeros _ Hl), (normaliser_zero _ Hn).
  revert r. induction Hl as [|x l Hx _ IH]; intros [|r0 r]; simpl; auto.
  constructor; [|apply IH]. subst x. apply force_nan.
Qed.

Lemma shift_axis_nan m (f : list Vec3d) gp d :
  vget (cart_coords E) d <> vget (cart_dims E) d - 1 ->
  f <> [] -> Forall all_nan f -> shift_axis E m f gp d = nan.
Proof.
  intros Hd Hne Hf. unfold shift_axis.
  destruct (Z.eqb_spec (vget (cart_coords E) d) (vget (cart_dims E) d - 1)); [contradiction|].
  generalize (vget gp d). induction Hf as [|fi f Hfi Hf IH]; [contradiction|].
  intros acc. cbn [fold_left].
  assert (Hv : @vget float fi d = nan) by (destruct Hfi as (H0 & H1 & H2); destruct d; assumption).
  rewrite Hv, nan_mul_r, nan_add_r.
  destruct f as [|fj f]; [reflexivity|]. apply IH. discriminate.
Qed.

(** The corner a rank proposes when all the loads it gathered are zero. *)
Lemma candidate_idle a net s g r_p d :
  1 <= Z.of_nat (length (sources g)) <= 8 ->
  Forall (fun q => contribution E (net_lambda net) (accumulate (ra_weights a)) q = 0%float)
         (sources g) ->
  vget (cart_coords E) d <> vget (cart_dims E) d - 1 ->
  vget (candidate E a net s g r_p) d = nan.
Proof.
  intros Hn Hl Hd. unfold candidate.
  set (lambda := map _ (sources g)). set (r := map _ (sources g)).
  assert (Hz : Forall (fun x => x = 0%float) lambda).
  { unfold lambda. apply Forall_fmap. exact Hl. }
  pose proof (forces_nan _ (gridpoint s) lambda r Hn Hz) as Hf.
  assert (Hne : forces (Z.of_nat (length (sources g))) (gridpoint s) lambda r <> []).
  { intros H. apply (f_equal (@length _)) in H. unfold forces in H. cbv zeta in H.
    rewrite length_zip_with, length_map in H. unfold lambda, r in H.
    rewrite !length_map in H. simpl in H. lia. }
  unfold new_corner. destruct d; cbn [vget c0 c1 c2]; apply shift_axis_nan; assumption.
Qed.

End Idle.

(** No rank has any load: the weights of every rank add up to zero. *)
Definition idle (w : World) : Prop :=
  Forall (fun p => accumulate (ra_weights (pr_args p)) = 0%float) w.

Lemma idle_lambda (w : World) (q : Z) : idle w -> w_lambda w q = 0%float.
Proof.
  intros Hi. unfold w_lambda. destruct (vec_at w q) as [p|] eqn:Hp; [|reflexivity].
  unfold idle in Hi. rewrite Forall_forall in Hi. apply Hi, (vec_at_elem _ _ _ Hp).
Qed.

(** X21: all ranks call [repartition] and the weights of every rank add up to
    zero (no cells, or cells without load).  Then the normaliser is zero,
    every normalised load is 0/0, and on every axis on which the rank is not
    the last of the process grid the corner it proposes is NaN, whatever
    [mu] and the centres of load are.  Unless some other corners conflict the
    call does not return [false]: the NaN is stored in [gridpoint] and the
    grid is marked irregular. *)
Theorem repartition_without_load (w : World) (q : Z) (p : Process) (d : axis) :
  world_ok w -> vec_at w q = Some p -> cart_consistent (pr_env p) -> idle w ->
  vget (cart_coords (pr_env p)) d <> vget (cart_dims (pr_env p)) d - 1 ->
  let out := repartition (pr_env p) (pr_args p) (world_net w) (pr_grid p) in
  vget (w_candidate w q) d = nan /\
  has_nan (w_candidate w q) = true /\
  (world_conflicts w <= 0 ->
     out.1 <> Ok false /\ vget (gridpoint out.2) d = nan /\
     gridpoints out.2 = w_gridpoints w /\ is_regular_grid out.2 = false).
Proof.
  intros Hw Hp Hcart Hidle Hd out.
  destruct (Hw q p Hp) as (Hq & Hn & Ht & Hreach).
  pose proof (vec_at_Some_range _ _ _ Hp) as Hrange.
  assert (Hr : rank_ok (pr_env p)) by (unfold rank_ok; lia).
  pose proof (reachable_inv _ _ Hr Hreach) as Hinv.
  assert (Hcand : vget (w_candidate w q) d = nan).
  { unfold w_candidate. rewrite Hp, (gi_neighcomm _ _ Hinv).
    apply candidate_idle; [| |exact Hd].
    - cbn [sources]. rewrite length_app. simpl.
      destruct (neigh_loop_inv (pr_env p)) as [Hsn _ _ Hs _ _ _ _].
      assert (Hzero : mkVec3 0 0 0 ∈ filter (fun o => all_ge0 o = true) (offsets [-1; 0; 1])).
      { apply list_elem_of_filter. split; [reflexivity|].
        apply elem_of_offsets. cbn [c0 c1 c2].
        repeat split; apply list_elem_of_In; simpl; auto. }
      pose proof (stencil_bound (pr_env p) (nl_source (neigh_loop (pr_env p))) _
                    Hcart Hsn Hzero) as Hb.
      assert (Hlen : length (filter (fun o => all_ge0 o = true) (offsets [-1; 0; 1])) = 8%nat)
        by reflexivity.
      rewrite Hlen in Hb.
      assert (S (length (nl_source (neigh_loop (pr_env p)))) <= 8)%nat; [|lia].
      apply Hb. intros r Hin. apply Hs in Hin as (Hne & off & Ho & Hge & ->).
      split; [exact Hne|]. exists off. split; [|reflexivity].
      apply list_elem_of_filter. split; assumption.
    - apply Forall_forall. intros r _. unfold contribution. cbn [net_lambda].
      destruct (r =? this_node (pr_env p)).
      + unfold idle in Hidle. rewrite Forall_forall in Hidle.
        apply Hidle, (vec_at_elem _ _ _ Hp).
      + apply idle_lambda, Hidle. }
  split; [exact Hcand|]. split.
  { unfold has_nan, is_nan_double. destruct d; cbn [vget] in Hcand; rewrite Hcand;
      rewrite ?orb_true_r; reflexivity. }
  intros Hno.
  assert (Hrun : repartition (pr_env p) (pr_args p) (world_net w) (pr_grid p) = out)
    by reflexivity.
  rewrite (world_repartition_rank w q p Hw Hp) in Hrun. cbv zeta in Hrun.
  destruct (0 <? world_conflicts w) eqn:Hpos; [apply Z.ltb_lt in Hpos; lia|].
  pose proof (corners_kept_accept w q p Hq Hn
                (with_gridpoints (w_gridpoints w)
                   (with_gridpoint (w_candidate w q) (pr_grid p)))
                eq_refl eq_refl) as (K1 & K2 & K3).
  rewrite Hrun in K1, K2, K3.
  split; [|rewrite K1; auto].
  rewrite <- Hrun. apply accept_not_false.
Qed.

Definition zero_load : RepartArgs := mkRepartArgs [] [] [].

Definition four_wide_idle : World :=
  [ mkProcess (env_four_wide 0) (four_wide_grid 0) zero_load;
    mkProcess (env_four_wide 1) (four_wide_grid 1) zero_load ].

Lemma four_wide_idle_ok : world_ok four_wide_idle.
Proof.
  intros q p H. pose proof (vec_at_Some_range _ _ _ H) as Hq. simpl in Hq.
  assert (Hcases : q = 0 \/ q = 1) by lia.
  destruct Hcases as [-> | ->]; injection H as <-.
  - split; [reflexivity|]. split; [reflexivity|]. split.
    + unfold topology_ok. simpl. lia.
    + apply reach_construct with (peers := four_wide_corners). vm_compute. reflexivity.
  - split; [reflexivity|]. split; [reflexivity|]. split.
    + unfold topology_ok. simpl. lia.
    + apply reach_construct with (peers := four_wide_corners). vm_compute. reflexivity.
Defined.

Lemma four_wide_cart_consistent : cart_consistent (env_four_wide 0).
Proof.
  split; [|reflexivity]. intros d. destruct d; vm_compute; split; congruence.
Defined.

(** There both ranks return [true]; rank 0 holds the corner (NaN, 4, 4), has
    no cell left, and [position_to_rank] finds no owner for a position. *)
Example four_wide_idle_accepts :
  world_conflicts four_wide_idle = 0 /\
  map fst (world_repartition four_wide_idle) = [Ok true; Ok true] /\
  map (fun o => (n_local_cells o.2).1) (world_repartition four_wide_idle) = [Ok 0; Ok 0] /\
  map (fun o => (position_to_rank (env_four_wide 0) (mkVec3 0.5 0.5 0.5)%float o.2).1)
      (world_repartition four_wide_idle)
  = [Throw runtime_error_position_unknown; Throw runtime_error_position_unknown].
Proof. vm_compute. repeat split; reflexivity. Qed.

Lemma repartition_without_load_witness :
  let p := mkProcess (env_four_wide 0) (four_wide_grid 0) zero_load in
  let out := repartition (pr_env p) (pr_args p) (world_net four_wide_idle) (pr_grid p) in
  vget (w_candidate four_wide_idle 0) ax0 = nan /\
  has_nan (w_candidate four_wide_idle 0) = true /\
  (world_conflicts four_wide_idle <= 0 ->
     out.1 <> Ok false /\ vget (gridpoint out.2) ax0 = nan /\
     gridpoints out.2 = w_gridpoints four_wide_idle /\ is_regular_grid out.2 = false).
Proof.
  apply (repartition_without_load four_wide_idle 0
           (mkProcess (env_four_wide 0) (four_wide_grid 0) zero_load) ax0).
  - exact four_wide_idle_ok.
  - reflexivity.
  - exact four_wide_cart_consistent.
  - repeat constructor.
  - vm_compute. congruence.
Defined.

(* ===================================================================== *)
(** ** When the constructor and repartition return *)
(* ===================================================================== *)

Section Outcomes.

Context (E : Env).

Lemma neigh_rank_range (off : Vec3i) :
  topology_ok E -> cart_consistent E -> off ∈ offsets [-1; 0; 1] ->
  0 <= neigh_rank E off < n_nodes E.
Proof.
  intros (T0 & T1 & T2 & Tn) [Hc _] Ho.
  apply elem_of_offsets in Ho as (O0 & O1 & O2).
  assert (W : forall d, 0 < vget (cart_dims E) d -> vget off d ∈ [-1; 0; 1] ->
                        0 <= neigh_wrap E d off < vget (cart_dims E) d).
  { intros d Hpos Hd. specialize (Hc d). unfold neigh_wrap. cbv zeta.
    repeat rewrite elem_of_cons in Hd. rewrite elem_of_nil in Hd.
    destruct (Z.ltb_spec (vget (cart_coords E) d + vget off d) 0); [lia|].
    destruct (Z.eqb_spec (vget (cart_coords E) d + vget off d) (vget (cart_dims E) d)); lia. }
  unfold neigh_rank, MPI_Cart_rank. rewrite Tn.
  apply linearize_range; cbn [c0 c1 c2].
  - apply (W ax0 T0 O0).
  - apply (W ax1 T1 O1).
  - apply (W ax2 T2 O2).
Qed.

Lemma neighbor_ranks_range (s : GridBasedGrid) :
  topology_ok E -> cart_consistent E -> neighbor_ranks s = nl_ranks (neigh_loop E) ->
  Forall (fun r => 0 <= r < n_nodes E) (neighbor_ranks s).
Proof.
  intros Ht Hc Hs. rewrite Hs. apply Forall_forall. intros r Hin.
  destruct (neigh_loop_inv E) as [_ _ _ _ _ Hr _ _].
  apply Hr in Hin as (_ & off & Ho & ->). apply neigh_rank_range; assumption.
Qed.

Lemma init_neighbors_run (s : GridBasedGrid) :
  init_neighbors E s =
  (Ok tt,
   with_neighcomm
     (Some (mkDistGraph (nl_source (neigh_loop E) ++ [this_node E])
                        (nl_dest (neigh_loop E) ++ [this_node E])))
     (with_neighbor_idx (nl_idx (neigh_loop E))
        (with_neighbor_ranks (nl_ranks (neigh_loop E)) s))).
Proof. reflexivity. Qed.

(** The loop of [init_partitioning] over the axes. *)
Definition place_corner (d : axis) : M unit :=
  (modify (fun s => with_gridpoint (vset (gridpoint s) d (vget (my_right E) d)) s) ;;;
   if (vget (my_right E) d <? vget (box_l E) d)%float
   then modify (fun s => with_gridpoint
                  (vset (gridpoint s) d (vget (gridpoint s) d - lit_1e_6)%float) s)
   else ret tt)%meth.

Lemma place_corner_run d s :
  exists gp, place_corner d s = (Ok tt, with_gridpoint gp s).
Proof.
  unfold place_corner, bind, modify, ret.
  destruct (PrimFloat.ltb _ _); eexists; reflexivity.
Qed.

Lemma axes_loop_returns s :
  exists gp, for_each axes place_corner s = (Ok tt, with_gridpoint gp s).
Proof.
  cbn [for_each axes].
  destruct (place_corner_run ax0 s) as [g0 H0].
  rewrite (bind_eq_ok _ _ _ _ _ H0).
  destruct (place_corner_run ax1 (with_gridpoint g0 s)) as [g1 H1].
  rewrite (bind_eq_ok _ _ _ _ _ H1).
  destruct (place_corner_run ax2 (with_gridpoint g1 (with_gridpoint g0 s))) as [g2 H2].
  rewrite (bind_eq_ok _ _ _ _ _ H2).
  exists g2. unfold ret. destruct s. reflexivity.
Qed.

Lemma init_neighbors_returns (s : GridBasedGrid) :
  exists sb, init_neighbors E s = (Ok tt, sb) /\
             neighbor_ranks sb = nl_ranks (neigh_loop E) /\
             is_regular_grid sb = is_regular_grid s.
Proof.
  eexists. split; [apply init_neighbors_run|].
  generalize (nl_ranks (neigh_loop E)), (nl_idx (neigh_loop E)),
             (nl_source (neigh_loop E)), (nl_dest (neigh_loop E)).
  intros ranks idx src dst. split; reflexivity.
Qed.


End Outcomes.





(* ===================================================================== *)
(** ** The strings command accepts *)
(* ===================================================================== *)

Definition spaces (w : list ascii) : Prop := forallb is_space w = true.
Definition digits (d : list ascii) : Prop := d <> [] /\ forallb is_digit d = true.

(** The text of the group: digits and a point, a point and digits, or digits,
    any character but a line terminator, and digits. *)
Inductive mu_number : list ascii -> Prop :=
  | mu_trailing d : digits d -> mu_number (d ++ ["."%char])
  | mu_leading d : digits d -> mu_number ("."%char :: d)
  | mu_between d1 c d2 :
      digits d1 -> is_line_terminator c = false -> digits d2 ->
      mu_number (d1 ++ c :: d2).

(** [s] is white space, "mu", white space, "=", white space and [num]. *)
Definition mu_command (s num : list ascii) : Prop :=
  exists w1 w2 w3,
    spaces w1 /\ spaces w2 /\ spaces w3 /\ mu_number num /\
    s = w1 ++ "m"%char :: "u"%char :: w2 ++ "="%char :: w3 ++ num.

Section Matcher.

Context {R : Type}.

(** The greedy iteration of a class of characters. *)
Fixpoint greedy (f : ascii -> bool) (s : list ascii) (k : list ascii -> option R)
    : option R :=
  match s with
  | c :: s' =>
      if f c then match greedy f s' k with Some x => Some x | None => k s end
      else k s
  | [] => k []
  end.

Lemma greedy_inv f s k x :
  greedy f s k = Some x ->
  exists w t, s = w ++ t /\ forallb f w = true /\ k t = Some x.
Proof.
  induction s as [|c s IH]; simpl; intros H.
  - exists [], []. auto.
  - destruct (f c) eqn:Hc; [|exists [], (c :: s); auto].
    destruct (greedy f s k) as [y|] eqn:Hg; [|exists [], (c :: s); auto].
    injection H as ->. destruct (IH eq_refl) as (w & t & -> & Hw & Hk).
    exists (c :: w), t. simpl. rewrite Hc, Hw. auto.
Qed.

Lemma greedy_intro f w t k :
  forallb f w = true -> is_Some (k t) -> is_Some (greedy f (w ++ t) k).
Proof.
  intros Hw Hk. induction w as [|c w IH]; simpl.
  - destruct t as [|c t]; [exact Hk|]. simpl.
    destruct (f c); [|exact Hk]. destruct (greedy f t k); [eauto|exact Hk].
  - simpl in Hw. apply andb_prop in Hw as [Hc Hw]. rewrite Hc.
    destruct (IH Hw) as [y Hy]. rewrite Hy. eauto.
Qed.

Lemma star_space s cap (k : list ascii -> option (list ascii) -> option R) :
  rmatch (Star Space) s cap k = greedy is_space s (fun s' => k s' cap).
Proof.
  induction s as [|c s IH]; [reflexivity|].
  change (rmatch (Star Space) (c :: s) cap k)
    with (match (if is_space c
                 then if (length s <? length (c :: s))%nat
                      then rmatch (Star Space) s cap k else None
                 else None) with
          | Some x => Some x
          | None => k (c :: s) cap
          end).
  assert (Hlt : (length s <? length (c :: s))%nat = true)
    by (apply Nat.ltb_lt; simpl; lia).
  rewrite Hlt, IH. simpl. destruct (is_space c); reflexivity.
Qed.

Lemma star_digit s cap (k : list ascii -> option (list ascii) -> option R) :
  rmatch (Star Digit) s cap k = greedy is_digit s (fun s' => k s' cap).
Proof.
  induction s as [|c s IH]; [reflexivity|].
  change (rmatch (Star Digit) (c :: s) cap k)
    with (match (if is_digit c
                 then if (length s <? length (c :: s))%nat
                      then rmatch (Star Digit) s cap k else None
                 else None) with
          | Some x => Some x
          | None => k (c :: s) cap
          end).
  assert (Hlt : (length s <? length (c :: s))%nat = true)
    by (apply Nat.ltb_lt; simpl; lia).
  rewrite Hlt, IH. simpl. destruct (is_digit c); reflexivity.
Qed.

Lemma plus_digit s cap (k : list ascii -> option (list ascii) -> option R) :
  rmatch (Plus Digit) s cap k =
  match s with
  | c :: s' => if is_digit c then rmatch (Star Digit) s' cap k else None
  | [] => None
  end.
Proof. destruct s; reflexivity. Qed.

Lemma ascii_eqb_eq a b : ascii_eqb a b = true <-> a = b.
Proof.
  unfold ascii_eqb. rewrite Nat.eqb_eq. split; [|intros ->; reflexivity].
  intros H. rewrite <- (ascii_nat_embedding a), <- (ascii_nat_embedding b), H. reflexivity.
Qed.

Lemma spaces_inv s cap (k : list ascii -> option (list ascii) -> option R) x :
  rmatch (Star Space) s cap k = Some x ->
  exists w t, s = w ++ t /\ spaces w /\ k t cap = Some x.
Proof. rewrite star_space. apply greedy_inv. Qed.

Lemma spaces_intro w t cap (k : list ascii -> option (list ascii) -> option R) :
  spaces w -> is_Some (k t cap) -> is_Some (rmatch (Star Space) (w ++ t) cap k).
Proof. intros Hw Hk. rewrite star_space. apply greedy_intro; assumption. Qed.

Lemma digits_inv s cap (k : list ascii -> option (list ascii) -> option R) x :
  rmatch (Plus Digit) s cap k = Some x ->
  exists d t, s = d ++ t /\ digits d /\ k t cap = Some x.
Proof.
  rewrite plus_digit. destruct s as [|c s]; [discriminate|].
  destruct (is_digit c) eqn:Hc; [|discriminate].
  rewrite star_digit. intros H. apply greedy_inv in H as (w & t & -> & Hw & Hk).
  exists (c :: w), t. split; [reflexivity|]. split; [|exact Hk].
  split; [discriminate|]. simpl. rewrite Hc, Hw. reflexivity.
Qed.

Lemma digits_intro d t cap (k : list ascii -> option (list ascii) -> option R) :
  digits d -> is_Some (k t cap) -> is_Some (rmatch (Plus Digit) (d ++ t) cap k).
Proof.
  intros [Hne Hd] Hk. destruct d as [|c d]; [contradiction|].
  simpl in Hd. apply andb_prop in Hd as [Hc Hd].
  rewrite plus_digit. cbn [app]. rewrite Hc, star_digit. apply greedy_intro; assumption.
Qed.

Lemma chr_inv c s cap (k : list ascii -> option (list ascii) -> option R) x :
  rmatch (Chr c) s cap k = Some x -> exists t, s = c :: t /\ k t cap = Some x.
Proof.
  destruct s as [|a s]; [discriminate|]. simpl.
  destruct (ascii_eqb c a) eqn:Ha; [|discriminate].
  apply ascii_eqb_eq in Ha as <-. eauto.
Qed.

Lemma chr_intro c t cap (k : list ascii -> option (list ascii) -> option R) :
  is_Some (k t cap) -> is_Some (rmatch (Chr c) (c :: t) cap k).
Proof.
  intros Hk. simpl. rewrite (proj2 (ascii_eqb_eq c c) eq_refl). exact Hk.
Qed.

Lemma any_inv s cap (k : list ascii -> option (list ascii) -> option R) x :
  rmatch AnyChar s cap k = Some x ->
  exists a t, s = a :: t /\ is_line_terminator a = false /\ k t cap = Some x.
Proof.
  destruct s as [|a s]; [discriminate|]. simpl.
  destruct (is_line_terminator a) eqn:Ha; [discriminate|]. simpl. eauto.
Qed.

Lemma any_intro a t cap (k : list ascii -> option (list ascii) -> option R) :
  is_line_terminator a = false -> is_Some (k t cap) ->
  is_Some (rmatch AnyChar (a :: t) cap k).
Proof. intros Ha Hk. simpl. rewrite Ha. exact Hk. Qed.

Lemma alt_inv r1 r2 s cap (k : list ascii -> option (list ascii) -> option R) x :
  rmatch (Alt r1 r2) s cap k = Some x ->
  rmatch r1 s cap k = Some x \/ rmatch r2 s cap k = Some x.
Proof.
  change (rmatch (Alt r1 r2) s cap k)
    with (match rmatch r1 s cap k with Some y => Some y | None => rmatch r2 s cap k end).
  destruct (rmatch r1 s cap k); auto.
Qed.

Lemma alt_intro r1 r2 s cap (k : list ascii -> option (list ascii) -> option R) :
  is_Some (rmatch r1 s cap k) \/ is_Some (rmatch r2 s cap k) ->
  is_Some (rmatch (Alt r1 r2) s cap k).
Proof.
  change (rmatch (Alt r1 r2) s cap k)
    with (match rmatch r1 s cap k with Some y => Some y | None => rmatch r2 s cap k end).
  destruct (rmatch r1 s cap k); [eauto|]. intros [[y Hy]|H]; [discriminate|exact H].
Qed.

End Matcher.

Lemma seq_eq {R} r1 r2 s cap (k : list ascii -> option (list ascii) -> option R) :
  rmatch (Seq r1 r2) s cap k = rmatch r1 s cap (fun s' cap' => rmatch r2 s' cap' k).
Proof. reflexivity. Qed.

Lemma eps_eq {R} s cap (k : list ascii -> option (list ascii) -> option R) :
  rmatch Eps s cap k = k s cap.
Proof. reflexivity. Qed.

Lemma group_eq {R} r s cap (k : list ascii -> option (list ascii) -> option R) :
  rmatch (Group r) s cap k =
  rmatch r s cap (fun s' _ => k s' (Some (take (length s - length s') s))).
Proof. reflexivity. Qed.

(** The end of [regex_match]: nothing is left of the string. *)
Definition whole (rest : list ascii) (cap : option (list ascii)) : option (option string) :=
  match rest with
  | [] => Some (option_map string_of_list_ascii cap)
  | _ => None
  end.

Lemma whole_inv rest cap c : whole rest cap = Some c ->
  rest = [] /\ c = option_map string_of_list_ascii cap.
Proof. destruct rest; [|discriminate]. intros [= <-]. auto. Qed.

Lemma take_whole (l : list ascii) : take (length l - length (@nil ascii)) l = l.
Proof. simpl. rewrite Nat.sub_0_r. apply firstn_all. Qed.

Lemma mure_sound (s : list ascii) c :
  rmatch mure s None whole = Some c ->
  exists num, c = Some (string_of_list_ascii num) /\ mu_command s num.
Proof.
  unfold mure. rewrite mure_parsed. intros H.
  rewrite !seq_eq, eps_eq in H.
  apply spaces_inv in H as (w1 & t1 & -> & Hw1 & H).
  apply chr_inv in H as (t2 & -> & H).
  apply chr_inv in H as (t3 & -> & H).
  apply spaces_inv in H as (w2 & t4 & -> & Hw2 & H).
  apply chr_inv in H as (t5 & -> & H).
  apply spaces_inv in H as (w3 & num & -> & Hw3 & H).
  rewrite group_eq in H.
  assert (Hnum : c = Some (string_of_list_ascii num) /\ mu_number num).
  { apply alt_inv in H as [H|H]; [|apply alt_inv in H as [H|H]].
    - rewrite !seq_eq, eps_eq in H.
      apply digits_inv in H as (d & t & -> & Hd & H).
      apply chr_inv in H as (t' & -> & H).
      apply whole_inv in H as [-> ->]. rewrite take_whole.
      split; [reflexivity|]. apply mu_trailing, Hd.
    - rewrite !seq_eq, eps_eq in H.
      apply chr_inv in H as (t & -> & H).
      apply digits_inv in H as (d & t' & -> & Hd & H).
      apply whole_inv in H as [-> ->]. rewrite take_whole, app_nil_r.
      split; [reflexivity|]. apply mu_leading, Hd.
    - rewrite !seq_eq, eps_eq in H.
      apply digits_inv in H as (d1 & t & -> & Hd1 & H).
      apply any_inv in H as (a & t' & -> & Ha & H).
      apply digits_inv in H as (d2 & t'' & -> & Hd2 & H).
      apply whole_inv in H as [-> ->]. rewrite take_whole, app_nil_r.
      split; [reflexivity|]. apply mu_between; assumption. }
  destruct Hnum as [-> Hnum]. exists num. split; [reflexivity|].
  exists w1, w2, w3. auto.
Qed.

Lemma mure_complete (s num : list ascii) :
  mu_command s num -> is_Some (rmatch mure s None whole).
Proof.
  intros (w1 & w2 & w3 & Hw1 & Hw2 & Hw3 & Hnum & ->).
  unfold mure. rewrite mure_parsed. rewrite !seq_eq, eps_eq.
  apply spaces_intro; [exact Hw1|]. apply chr_intro, chr_intro.
  apply spaces_intro; [exact Hw2|]. apply chr_intro.
  apply spaces_intro; [exact Hw3|]. rewrite group_eq.
  destruct Hnum as [d Hd|d Hd|d1 c d2 Hd1 Hc Hd2].
  - apply alt_intro. left. rewrite !seq_eq, eps_eq.
    apply digits_intro; [exact Hd|]. apply chr_intro. eexists. reflexivity.
  - apply alt_intro. right. apply alt_intro. left. rewrite !seq_eq, eps_eq.
    apply chr_intro. rewrite <- (app_nil_r d).
    apply digits_intro; [exact Hd|]. eexists. reflexivity.
  - apply alt_intro. right. apply alt_intro. right. rewrite !seq_eq, eps_eq.
    apply digits_intro; [exact Hd1|]. apply any_intro; [exact Hc|].
    rewrite <- (app_nil_r d2). apply digits_intro; [exact Hd2|]. eexists. reflexivity.
Qed.

Lemma digit_not_space c : is_digit c = true -> is_space c = false.
Proof.
  unfold is_digit, is_space. cbv zeta. generalize (nat_of_ascii c). intros n H.
  apply andb_prop in H as [H1 H2]. apply Nat.leb_le in H1. apply Nat.leb_le in H2.
  apply orb_false_iff. split; [apply Nat.eqb_neq; lia|].
  apply andb_false_iff. right. apply Nat.leb_gt. lia.
Qed.

Lemma mu_number_head num :
  mu_number num -> exists c t, num = c :: t /\ is_space c = false.
Proof.
  intros [d [Hne Hd]|d _|d1 c d2 [Hne Hd] _ _].
  - destruct d as [|a d]; [contradiction|]. simpl in Hd.
    apply andb_prop in Hd as [Ha _]. exists a, (d ++ ["."%char]).
    split; [reflexivity|apply digit_not_space, Ha].
  - exists "."%char, d. split; reflexivity.
  - destruct d1 as [|a d1]; [contradiction|]. simpl in Hd.
    apply andb_prop in Hd as [Ha _]. exists a, (d1 ++ c :: d2).
    split; [reflexivity|apply digit_not_space, Ha].
Qed.

(** A run of a class of characters ends where the first other character is. *)
Lemma run_unique (f : ascii -> bool) w w' c c' (t t' : list ascii) :
  forallb f w = true -> forallb f w' = true -> f c = false -> f c' = false ->
  w ++ c :: t = w' ++ c' :: t' -> w = w' /\ c = c' /\ t = t'.
Proof.
  revert w'. induction w as [|a w IH]; intros [|a' w'] Hw Hw' Hc Hc' Heq;
    simpl in *.
  - injection Heq as -> ->. auto.
  - injection Heq as -> _. apply andb_prop in Hw' as [Ha _]. congruence.
  - injection Heq as -> _. apply andb_prop in Hw as [Ha _]. congruence.
  - injection Heq as -> Heq. apply andb_prop in Hw as [_ Hw].
    apply andb_prop in Hw' as [_ Hw'].
    destruct (IH w' Hw Hw' Hc Hc' Heq) as (-> & -> & ->). auto.
Qed.

Lemma mu_command_unique s n1 n2 : mu_command s n1 -> mu_command s n2 -> n1 = n2.
Proof.
  intros (w1 & w2 & w3 & Hw1 & Hw2 & Hw3 & Hn1 & ->)
         (v1 & v2 & v3 & Hv1 & Hv2 & Hv3 & Hn2 & Heq).
  apply (run_unique is_space) in Heq as (_ & _ & Heq); try assumption; try reflexivity.
  injection Heq as Heq.
  apply (run_unique is_space) in Heq as (_ & _ & Heq); try assumption; try reflexivity.
  destruct (mu_number_head _ Hn1) as (c1 & t1 & -> & Hc1).
  destruct (mu_number_head _ Hn2) as (c2 & t2 & -> & Hc2).
  apply (run_unique is_space) in Heq as (_ & -> & ->); try assumption. reflexivity.
Qed.

(** X24: [command(s)] sets [mu] exactly for the strings that are white space,
    "mu", white space, "=", white space and a number text, each run of white
    space possibly empty and the number text one of: digits and a point; a
    point and digits; digits, any one character but a line terminator, and
    digits.  Then [mu] becomes what [strtod] reads from the number text, which
    the string determines.  For every other string, the empty one and a
    number with a sign or without digits among them, the object is left as
    it is; no string makes [command] throw. *)
Theorem command_language (E : Env) (str : string) (s : GridBasedGrid) :
  (forall num, mu_command (list_ascii_of_string str) num ->
     command E str s = (Ok tt, with_mu (strtod E (string_of_list_ascii num)) s)) /\
  ((forall num, ~ mu_command (list_ascii_of_string str) num) ->
     command E str s = (Ok tt, s)) /\
  (command E str s).1 = Ok tt.
Proof.
  unfold command, regex_match.
  change (fun (rest : list ascii) (cap : option (list ascii)) =>
            match rest with
            | [] => Some (option_map string_of_list_ascii cap)
            | _ :: _ => None
            end) with whole.
  destruct (rmatch mure (list_ascii_of_string str) None whole) as [c|] eqn:H.
  - apply mure_sound in H as (num & -> & Hcmd). split; [|split].
    + intros n2 H2. rewrite (mu_command_unique _ _ _ H2 Hcmd). reflexivity.
    + intros Hno. exfalso. exact (Hno num Hcmd).
    + reflexivity.
  - split; [|split; reflexivity].
    intros num Hcmd. apply mure_complete in Hcmd as [y Hy]. congruence.
Qed.

(** Strings of the three forms, and some that are none. *)
Example mu_command_examples :
  mu_command (list_ascii_of_string "mu=1.") (list_ascii_of_string "1.") /\
  mu_command (list_ascii_of_string "  mu = .25") (list_ascii_of_string ".25") /\
  mu_command (list_ascii_of_string "mu =  1e5") (list_ascii_of_string "1e5") /\
  (forall E s, map (fun str => command E str s) [EmptyString; "mu"; "mu=5"; "mu=-0.5"; "mu=0.5 "; "Mu=0.5"]%string
               = replicate 6 (Ok tt, s)).
Proof.
  assert (D : forall d, d <> [] -> forallb is_digit d = true -> digits d)
    by (intros d H1 H2; split; assumption).
  split; [|split; [|split]].
  - exists [], [], []. repeat split.
    apply (mu_trailing ["1"%char]). apply D; [discriminate|reflexivity].
  - exists [" "%char; " "%char], [" "%char], [" "%char]. repeat split.
    apply (mu_leading ["2"%char; "5"%char]). apply D; [discriminate|reflexivity].
  - exists [], [" "%char], [" "%char; " "%char]. repeat split.
    apply (mu_between ["1"%char] "e"%char ["5"%char]);
      [apply D; [discriminate|reflexivity]|reflexivity|apply D; [discriminate|reflexivity]].
  - intros E s. reflexivity.
Qed.

(* ===================================================================== *)
(** ** The exchange lists of two ranks *)
(* ===================================================================== *)




Section TwoRanks.

Context (E : Env).



End TwoRanks.














(* ===================================================================== *)
(** ** The corners all ranks hold after a call of repartition *)
(* ===================================================================== *)

(** The job after every rank has called [repartition]. *)
Definition world_after (w : World) : World :=
  map (fun p => mkProcess (pr_env p)
                  (repartition (pr_env p) (pr_args p) (world_net w) (pr_grid p)).2
                  (pr_args p)) w.

Lemma vec_at_map {A B} (f : A -> B) (l : list A) (i : Z) :
  vec_at (map f l) i = f <$> vec_at l i.
Proof. unfold vec_at. destruct (i <? 0); [reflexivity|]. apply list_lookup_fmap. Qed.

Lemma vec_at_of_elem {A} (l : list A) (x : A) : x ∈ l -> exists i, vec_at l i = Some x.
Proof.
  intros H. apply list_elem_of_lookup in H as [k Hk]. exists (Z.of_nat k).
  unfold vec_at. destruct (Z.ltb_spec (Z.of_nat k) 0); [lia|].
  rewrite Nat2Z.id. exact Hk.
Qed.

Section Coherence.

Context (w : World).

(** The corners a rank holds when the call is over, however it ends. *)
Lemma corners_after q p :
  world_ok w -> vec_at w q = Some p ->
  let out := repartition (pr_env p) (pr_args p) (world_net w) (pr_grid p) in
  gridpoint out.2 = (if 0 <? world_conflicts w then gridpoint (pr_grid p)
                     else w_candidate w q) /\
  gridpoints out.2 = (if 0 <? world_conflicts w then gridpoints (pr_grid p)
                      else w_gridpoints w).
Proof.
  intros Hw Hp out.
  destruct (Hw q p Hp) as (Hq & Hn & Ht & Hreach).
  pose proof (vec_at_Some_range _ _ _ Hp) as Hrange.
  assert (Hr : rank_ok (pr_env p)) by (unfold rank_ok; lia).
  pose proof (reachable_inv _ _ Hr Hreach) as Hinv.
  assert (Hrun : repartition (pr_env p) (pr_args p) (world_net w) (pr_grid p) = out)
    by reflexivity.
  rewrite (world_repartition_rank w q p Hw Hp) in Hrun. cbv zeta in Hrun.
  destruct (0 <? world_conflicts w).
  - rewrite (reject_run _ _ _ _ (gi_gridpoint _ _ Hinv)) in Hrun. rewrite <- Hrun.
    split; reflexivity.
  - pose proof (corners_kept_accept w q p Hq Hn
                  (with_gridpoints (w_gridpoints w)
                     (with_gridpoint (w_candidate w q) (pr_grid p)))
                  eq_refl eq_refl) as (K1 & K2 & _).
    rewrite Hrun in K1, K2. split; assumption.
Qed.

Lemma corner_after q :
  world_ok w -> 0 <= q < Z.of_nat (length w) ->
  w_corner (world_after w) q =
  if 0 <? world_conflicts w then w_corner w q else w_candidate w q.
Proof.
  intros Hw Hq. destruct (vec_at_is_Some w q Hq) as [p Hp].
  unfold w_corner at 1. unfold world_after. rewrite vec_at_map, Hp. cbn [fmap option_fmap option_map pr_grid].
  rewrite (proj1 (corners_after q p Hw Hp)).
  unfold w_corner. rewrite Hp. reflexivity.
Qed.

End Coherence.

(** X26: the corners stay common knowledge.  All ranks call [repartition],
    every rank holding in [gridpoints] the corners of all ranks.  When the
    calls are over, however each ended (with [true], with [false], or with
    an exception of the callback or of [reinit]), every rank again holds in
    [gridpoints] the corners all ranks now have: the corners as they were if
    a conflict was reported, and the proposed corners otherwise.  The grids
    are again in states of the kind the calls started from. *)
Theorem repartition_keeps_coherence (w : World) :
  world_ok w -> coherent w ->
  world_ok (world_after w) /\ coherent (world_after w) /\
  (forall q, 0 <= q < Z.of_nat (length w) ->
     w_corner (world_after w) q =
     if 0 <? world_conflicts w then w_corner w q else w_candidate w q).
Proof.
  intros Hw Hco.
  assert (Hlen : length (world_after w) = length w) by apply length_map.
  split; [|split].
  - intros q p' Hp'. unfold world_after in Hp'. rewrite vec_at_map in Hp'.
    destruct (vec_at w q) as [p|] eqn:Hp; [|discriminate]. injection Hp' as <-.
    destruct (Hw q p Hp) as (Hq & Hn & Ht & Hreach). cbn [pr_env pr_grid].
    split; [exact Hq|]. split; [rewrite Hlen; exact Hn|]. split; [exact Ht|].
    apply reach_repartition, Hreach.
  - unfold coherent. rewrite Hlen. apply Forall_forall. intros p' Hp'.
    apply vec_at_of_elem in Hp' as [q Hp']. unfold world_after in Hp'.
    rewrite vec_at_map in Hp'.
    destruct (vec_at w q) as [p|] eqn:Hp; [|discriminate]. injection Hp' as <-.
    cbn [pr_grid]. rewrite (proj2 (corners_after w q p Hw Hp)).
    assert (Hold : gridpoints (pr_grid p) = map (w_corner w) (seqZ 0 (Z.of_nat (length w)))).
    { unfold coherent in Hco. rewrite Forall_forall in Hco.
      apply Hco, (vec_at_elem _ _ _ Hp). }
    assert (Hext : forall f, (forall q', 0 <= q' < Z.of_nat (length w) ->
                                w_corner (world_after w) q' = f q') ->
              map f (seqZ 0 (Z.of_nat (length w)))
              = map (w_corner (world_after w)) (seqZ 0 (Z.of_nat (length w)))).
    { intros f Hf. apply map_ext_in. intros q' Hq'.
      apply list_elem_of_In, elem_of_seqZ in Hq'. symmetry. apply Hf. lia. }
    pose proof (corner_after w) as Hc.
    destruct (0 <? world_conflicts w).
    + rewrite Hold. apply Hext. intros q' Hq'. apply (Hc q' Hw Hq').
    + unfold w_gridpoints. apply Hext. intros q' Hq'. apply (Hc q' Hw Hq').
  - intros q Hq. apply corner_after; assumption.
Qed.

Lemma repartition_keeps_coherence_witness :
  let w := four_wide_world in
  world_ok (world_after w) /\ coherent (world_after w) /\
  (forall q, 0 <= q < Z.of_nat (length w) ->
     w_corner (world_after w) q =
     if 0 <? world_conflicts w then w_corner w q else w_candidate w q).
Proof.
  apply (repartition_keeps_coherence four_wide_world).
  - exact four_wide_world_ok.
  - exact four_wide_world_coherent.
Defined.

Section Gathered.

Context (E : Env).

(** [init_octagons] gathers the corners before anything can fail. *)
Lemma init_octagons_gridpoints peers s :
  gridpoints (init_octagons E peers s).2 = all_gather E peers (gridpoint s) /\
  gridpoint (init_octagons E peers s).2 = gridpoint s.
Proof.
  split.
  - rewrite init_octagons_unfold.
    assert (P : preserved (fun t => gridpoints t = all_gather E peers (gridpoint s))
                          (build_octagons E)).
    { unfold build_octagons. repeat frame_step; assumption. }
    apply P. reflexivity.
  - apply (init_octagons_gridpoint E peers (gridpoint s)). reflexivity.
Qed.

Lemma init_partitioning_gridpoints peers s :
  gridpoints (init_partitioning E peers s).2 = all_gather E peers (initial_corner E).
Proof.
  pose proof (init_partitioning_gridpoint E peers s) as Hgp.
  fold (initial_corner E) in Hgp. revert Hgp.
  unfold init_partitioning. fold (place_corner E).
  rewrite (bind_eq_ok _ _ s tt (with_is_regular_grid true s)) by reflexivity.
  destruct (axes_loop_returns E (with_is_regular_grid true s)) as [gp Hrun].
  rewrite (bind_eq_ok _ _ _ _ _ Hrun).
  destruct (init_neighbors_returns E (with_gridpoint gp (with_is_regular_grid true s)))
    as (sb & Hn & _ & _).
  rewrite (bind_eq_ok _ _ _ _ _ Hn).
  destruct (init_octagons_gridpoints peers sb) as [H1 H2].
  intros Hgp. rewrite H1. rewrite <- H2, Hgp. reflexivity.
Qed.

Lemma construct_gridpoints peers :
  gridpoints (construct E peers).2 = all_gather E peers (initial_corner E) /\
  gridpoint (construct E peers).2 = initial_corner E.
Proof.
  pose proof (init_partitioning_gridpoints peers fresh) as H1.
  pose proof (init_partitioning_gridpoint E peers fresh) as H2.
  fold (initial_corner E) in H2.
  unfold construct, bind.
  destruct (init_partitioning E peers fresh) as [[[]|e] s1]; cbn [snd] in *.
  - pose proof (reinit_geometry E s1) as Hg. unfold geometry in Hg.
    split; congruence.
  - split; assumption.
Qed.

End Gathered.

(** X27: the corners are common knowledge from the construction on.  When
    every rank of a job constructs its grid and the all-gather of
    [init_octagons] delivers the corners the other ranks start from, every
    rank holds in [gridpoints] the corner of every rank, whether or not its
    constructor went on to return. *)
Theorem construction_is_coherent (w : World) (peers : Z -> Vec3d) :
  (forall q p, vec_at w q = Some p ->
     this_node (pr_env p) = q /\ n_nodes (pr_env p) = Z.of_nat (length w) /\
     pr_grid p = (construct (pr_env p) peers).2 /\
     peers q = initial_corner (pr_env p)) ->
  coherent w /\
  (forall q, 0 <= q < Z.of_nat (length w) -> w_corner w q = peers q).
Proof.
  intros Hw.
  assert (Hc : forall q, 0 <= q < Z.of_nat (length w) -> w_corner w q = peers q).
  { intros q Hq. destruct (vec_at_is_Some w q Hq) as [p Hp].
    destruct (Hw q p Hp) as (_ & _ & Hg & Hpeer).
    unfold w_corner. rewrite Hp, Hg, Hpeer.
    apply (construct_gridpoints (pr_env p) peers). }
  split; [|exact Hc].
  unfold coherent. apply Forall_forall. intros p Hp.
  apply vec_at_of_elem in Hp as [q Hp].
  destruct (Hw q p Hp) as (Hq & Hn & Hg & Hpeer).
  rewrite Hg, (proj1 (construct_gridpoints (pr_env p) peers)).
  rewrite <- Hpeer, <- Hq, all_gather_consistent, Hn.
  apply map_ext_in. intros q' Hq'. apply list_elem_of_In, elem_of_seqZ in Hq'.
  symmetry. apply Hc. lia.
Qed.

Lemma construction_is_coherent_witness :
  coherent four_wide_world /\
  (forall q, 0 <= q < Z.of_nat (length four_wide_world) ->
     w_corner four_wide_world q = four_wide_corners q).
Proof.
  apply (construction_is_coherent four_wide_world four_wide_corners).
  intros q p H. pose proof (vec_at_Some_range _ _ _ H) as Hq. simpl in Hq.
  assert (Hcases : q = 0 \/ q = 1) by lia.
  destruct Hcases as [-> | ->]; injection H as <-; repeat split.
Defined.

(* ===================================================================== *)
(** ** The neighbourhoods of two ranks *)
(* ===================================================================== *)

Lemma linearize_inj (c c' grid : Vec3i) :
  0 <= c1 c < c1 grid -> 0 <= c2 c < c2 grid ->
  0 <= c1 c' < c1 grid -> 0 <= c2 c' < c2 grid ->
  linearize c grid = linearize c' grid -> c = c'.
Proof.
  unfold linearize. destruct c as [a0 a1 a2], c' as [b0 b1 b2]. cbn [c0 c1 c2].
  intros H1 H2 H1' H2' Heq.
  assert (E2 : a2 = b2 /\ a0 * c1 grid + a1 = b0 * c1 grid + b1).
  { assert (Hq : (a0 * c1 grid + a1 - (b0 * c1 grid + b1)) * c2 grid = b2 - a2) by lia.
    assert (Hz : a0 * c1 grid + a1 - (b0 * c1 grid + b1) = 0) by nia. lia. }
  destruct E2 as [-> E1].
  assert (Hz : a0 - b0 = 0) by nia.
  assert (a0 = b0) by lia. subst. f_equal. lia.
Qed.

(** The offset that leads back. *)
Definition opposite (off : Vec3i) : Vec3i := mkVec3 (- c0 off) (- c1 off) (- c2 off).

Lemma opposite_offsets (off : Vec3i) :
  (off ∈ offsets [-1; 0; 1] -> opposite off ∈ offsets [-1; 0; 1]) /\
  all_ge0 off = all_le0 (opposite off) /\ all_le0 off = all_ge0 (opposite off) /\
  opposite (opposite off) = off.
Proof.
  split; [|split; [|split]].
  - rewrite !elem_of_offsets. unfold opposite. cbn [c0 c1 c2].
    repeat setoid_rewrite elem_of_cons. repeat setoid_rewrite elem_of_nil. lia.
  - unfold all_ge0, all_le0, opposite. cbn [c0 c1 c2].
    repeat match goal with
           | |- context [?a <=? ?b] => destruct (Z.leb_spec a b)
           end; simpl; try reflexivity; lia.
  - unfold all_ge0, all_le0, opposite. cbn [c0 c1 c2].
    repeat match goal with
           | |- context [?a <=? ?b] => destruct (Z.leb_spec a b)
           end; simpl; try reflexivity; lia.
  - destruct off as [o0 o1 o2]. unfold opposite. cbn [c0 c1 c2]. f_equal; lia.
Qed.

Section Mutual.

Context (Ea Eb : Env).

Lemma wrap_back (d : axis) (off : Vec3i) :
  cart_dims Eb = cart_dims Ea ->
  0 < vget (cart_dims Ea) d ->
  0 <= vget (cart_coords Ea) d < vget (cart_dims Ea) d ->
  0 <= vget (cart_coords Eb) d < vget (cart_dims Ea) d ->
  vget off d ∈ [-1; 0; 1] ->
  neigh_wrap Ea d off = vget (cart_coords Eb) d ->
  neigh_wrap Eb d (opposite off) = vget (cart_coords Ea) d.
Proof.
  intros Hdims. unfold neigh_wrap. rewrite Hdims. cbv zeta. intros Hpos Ha Hb Ho.
  repeat rewrite elem_of_cons in Ho. rewrite elem_of_nil in Ho.
  assert (Hopp : vget (opposite off) d = - vget off d) by (destruct d; reflexivity).
  rewrite Hopp.
  repeat match goal with
         | |- context [?a <? ?b] => destruct (Z.ltb_spec a b)
         | |- context [?a =? ?b] => destruct (Z.eqb_spec a b)
         end; lia.
Qed.

Lemma mutual_offset (off : Vec3i) :
  cart_dims Eb = cart_dims Ea ->
  (forall d, 0 < vget (cart_dims Ea) d) -> cart_consistent Ea -> cart_consistent Eb ->
  off ∈ offsets [-1; 0; 1] ->
  neigh_rank Ea off = this_node Eb -> neigh_rank Eb (opposite off) = this_node Ea.
Proof.
  intros Hdims T [Ca Ra] [Cb Rb] Ho Heq.
  pose proof (T ax0) as T0. pose proof (T ax1) as T1. pose proof (T ax2) as T2.
  rewrite Hdims in Cb, Rb.
  apply elem_of_offsets in Ho as (O0 & O1 & O2).
  assert (W : forall d, 0 < vget (cart_dims Ea) d -> vget off d ∈ [-1; 0; 1] ->
                        0 <= neigh_wrap Ea d off < vget (cart_dims Ea) d).
  { intros d Hpos Hd. specialize (Ca d). unfold neigh_wrap. cbv zeta.
    repeat rewrite elem_of_cons in Hd. rewrite elem_of_nil in Hd.
    destruct (Z.ltb_spec (vget (cart_coords Ea) d + vget off d) 0); [lia|].
    destruct (Z.eqb_spec (vget (cart_coords Ea) d + vget off d) (vget (cart_dims Ea) d)); lia. }
  unfold neigh_rank, MPI_Cart_rank in Heq. rewrite <- Rb in Heq.
  unfold MPI_Cart_rank in Heq.
  apply linearize_inj in Heq; cbn [c0 c1 c2];
    [|apply (W ax1 T1 O1)|apply (W ax2 T2 O2)|apply (Cb ax1)|apply (Cb ax2)].
  assert (H0 : neigh_wrap Ea ax0 off = vget (cart_coords Eb) ax0)
    by (rewrite <- Heq; reflexivity).
  assert (H1 : neigh_wrap Ea ax1 off = vget (cart_coords Eb) ax1)
    by (rewrite <- Heq; reflexivity).
  assert (H2 : neigh_wrap Ea ax2 off = vget (cart_coords Eb) ax2)
    by (rewrite <- Heq; reflexivity).
  unfold neigh_rank.
  rewrite (wrap_back ax0 off Hdims T0 (Ca ax0) (Cb ax0) O0 H0).
  rewrite (wrap_back ax1 off Hdims T1 (Ca ax1) (Cb ax1) O1 H1).
  rewrite (wrap_back ax2 off Hdims T2 (Ca ax2) (Cb ax2) O2 H2).
  rewrite Hdims, <- Ra. cbn [vget]. destruct (cart_coords Ea) as [a0 a1 a2]. reflexivity.
Qed.

End Mutual.

(** X28: the neighbourhoods [init_neighbors] builds on two ranks of one
    Cartesian process grid fit together.  In every state of their grids,
    rank [b] is among the neighbours of rank [a] exactly when [a] is among
    those of [b]; and [b] is a source of the graph communicator of [a]
    exactly when [a] is a destination of that of [b], which is what
    [MPI_Dist_graph_create_adjacent] asks of its callers. *)
Theorem neighbourhood_is_mutual (Ea Eb : Env) (sa sb : GridBasedGrid) :
  topology_ok Ea -> cart_dims Eb = cart_dims Ea ->
  rank_ok Ea -> rank_ok Eb -> cart_consistent Ea -> cart_consistent Eb ->
  reachable Ea sa -> reachable Eb sb ->
  (this_node Eb ∈ neighbor_ranks sa <-> this_node Ea ∈ neighbor_ranks sb) /\
  exists ga gb, neighcomm sa = Some ga /\ neighcomm sb = Some gb /\
    (this_node Eb ∈ sources ga <-> this_node Ea ∈ destinations gb) /\
    (this_node Eb ∈ destinations ga <-> this_node Ea ∈ sources gb).
Proof.
  intros Ta Hdims Ra Rb Ca Cb Ha Hb.
  assert (Pa : forall d, 0 < vget (cart_dims Ea) d).
  { destruct Ta as (T0 & T1 & T2 & _). intros d. destruct d; assumption. }
  assert (Pb : forall d, 0 < vget (cart_dims Eb) d) by (rewrite Hdims; exact Pa).
  destruct (reachable_inv Ea sa Ra Ha) as [_ Hca Hra _ _ _].
  destruct (reachable_inv Eb sb Rb Hb) as [_ Hcb Hrb _ _ _].
  destruct (neigh_loop_inv Ea) as [_ _ _ Sa Da Na _ _].
  destruct (neigh_loop_inv Eb) as [_ _ _ Sb Db Nb _ _].
  pose proof (fun off => mutual_offset Ea Eb off Hdims) as Mab.
  pose proof (fun off => mutual_offset Eb Ea off (eq_sym Hdims)) as Mba.
  assert (Hmut : forall (P Q : Vec3i -> bool),
            (forall off, P off = Q (opposite off)) ->
            ((exists off, off ∈ offsets [-1; 0; 1] /\ P off = true /\
                          this_node Eb = neigh_rank Ea off) <->
             (exists off, off ∈ offsets [-1; 0; 1] /\ Q off = true /\
                          this_node Ea = neigh_rank Eb off))).
  { intros P Q HPQ. split.
    - intros (off & Ho & HP & Heq). exists (opposite off).
      split; [apply opposite_offsets, Ho|]. split; [rewrite <- HPQ; exact HP|].
      symmetry. apply Mab; auto.
    - intros (off & Ho & HQ & Heq). exists (opposite off).
      split; [apply opposite_offsets, Ho|].
      split; [rewrite HPQ; destruct (opposite_offsets off) as (_ & _ & _ & ->); exact HQ|].
      symmetry. apply Mba; auto. }
  split.
  - rewrite Hra, Hrb, Na, Nb.
    pose proof (Hmut (fun _ => true) (fun _ => true) (fun _ => eq_refl)) as H.
    split.
    + intros (Hne & off & Ho & Heq). split; [congruence|].
      destruct (proj1 H) as (off' & Ho' & _ & Heq'); eauto.
    + intros (Hne & off & Ho & Heq). split; [congruence|].
      destruct (proj2 H) as (off' & Ho' & _ & Heq'); eauto.
  - eexists _, _. split; [exact Hca|]. split; [exact Hcb|]. cbn [sources destinations].
    rewrite !elem_of_app, !list_elem_of_singleton, Sa, Da, Sb, Db.
    pose proof (Hmut all_ge0 all_le0 (fun off => proj1 (proj2 (opposite_offsets off)))) as H1.
    pose proof (Hmut all_le0 all_ge0
                  (fun off => proj1 (proj2 (proj2 (opposite_offsets off))))) as H2.
    split; split.
    + intros [(Hne & Hex)|Heq]; [left|right; congruence].
      split; [congruence|]. apply H1, Hex.
    + intros [(Hne & Hex)|Heq]; [left|right; congruence].
      split; [congruence|]. apply H1, Hex.
    + intros [(Hne & Hex)|Heq]; [left|right; congruence].
      split; [congruence|]. apply H2, Hex.
    + intros [(Hne & Hex)|Heq]; [left|right; congruence].
      split; [congruence|]. apply H2, Hex.
Qed.

Lemma four_wide_cart_consistent_1 : cart_consistent (env_four_wide 1).
Proof.
  split; [|reflexivity]. intros d. destruct d; vm_compute; split; congruence.
Defined.

Lemma neighbourhood_is_mutual_witness :
  let Ea := env_four_wide 0 in
  let Eb := env_four_wide 1 in
  let sa := four_wide_grid 0 in
  let sb := four_wide_grid 1 in
  (this_node Eb ∈ neighbor_ranks sa <-> this_node Ea ∈ neighbor_ranks sb) /\
  exists ga gb, neighcomm sa = Some ga /\ neighcomm sb = Some gb /\
    (this_node Eb ∈ sources ga <-> this_node Ea ∈ destinations gb) /\
    (this_node Eb ∈ destinations ga <-> this_node Ea ∈ sources gb).
Proof.
  apply (neighbourhood_is_mutual (env_four_wide 0) (env_four_wide 1)
           (four_wide_grid 0) (four_wide_grid 1)).
  - unfold topology_ok. simpl. lia.
  - reflexivity.
  - unfold rank_ok. simpl. lia.
  - unfold rank_ok. simpl. lia.
  - exact four_wide_cart_consistent.
  - exact four_wide_cart_consistent_1.
  - apply reach_construct with (peers := four_wide_corners). vm_compute. reflexivity.
  - apply reach_construct with (peers := four_wide_corners). vm_compute. reflexivity.
Defined.

(* ===================================================================== *)
(** ** The octagons two ranks keep of one subdomain *)
(* ===================================================================== *)

(** [bounding_box] takes nothing of the caller but the process grid and the
    box. *)
Lemma bounding_box_of_env (Ea Eb : Env) (gps : list Vec3d) (r : Z) :
  cart_dims Eb = cart_dims Ea -> box_l Eb = box_l Ea ->
  bounding_box_of Eb gps r = bounding_box_of Ea gps r.
Proof.
  intros Hd Hl. unfold bounding_box_of, bb_corner, bb_wrap. rewrite Hd, Hl. reflexivity.
Qed.

(** The octagons as [init_octagons] builds them from the corners [gps]. *)
Definition octagons_of (E : Env) (gps : list Vec3d) (t : GridBasedGrid) : Prop :=
  bounding_box_of E gps (this_node E) = Some (my_dom t) /\
  Forall2 (fun r d => bounding_box_of E gps r = Some d) (neighbor_ranks t) (neighbor_doms t).

Section AcceptedOctagons.

Context (w : World).

Lemma octagons_kept (dom : Octagon) (doms : list Octagon) (ranks : list Z) :
  update_closed (fun t => my_dom t = dom /\ neighbor_doms t = doms /\
                          neighbor_ranks t = ranks).
Proof. split; intros; assumption. Qed.

Lemma accept_octagons q p :
  world_ok w -> vec_at w q = Some p -> cart_consistent (pr_env p) ->
  world_conflicts w <= 0 ->
  octagons_of (pr_env p) (w_gridpoints w)
    (repartition (pr_env p) (pr_args p) (world_net w) (pr_grid p)).2.
Proof.
  intros Hw Hp Hcart Hnc.
  destruct (Hw q p Hp) as (Hq & Hn & Ht & Hreach).
  pose proof (vec_at_Some_range _ _ _ Hp) as Hrange.
  assert (Hr : rank_ok (pr_env p)) by (unfold rank_ok; lia).
  pose proof (reachable_inv _ _ Hr Hreach) as Hinv.
  rewrite (world_repartition_rank w q p Hw Hp). cbv zeta.
  destruct (Z.ltb_spec 0 (world_conflicts w)) as [Hlt|_]; [lia|].
  set (s1 := with_is_regular_grid false
               (with_gridpoints (w_gridpoints w)
                  (with_gridpoint (w_candidate w q) (pr_grid p)))).
  assert (Hranks : neighbor_ranks s1 = nl_ranks (neigh_loop (pr_env p)))
    by exact (gi_ranks _ _ Hinv).
  destruct (init_octagons_run (pr_env p) (w_candidate w) s1 Ht Hr
              (neighbor_ranks_range (pr_env p) s1 Ht Hcart Hranks))
    as (dom & doms & Hoct & _ & _ & Hdom & Hdoms).
  cbv zeta in Hoct.
  assert (Hgps : all_gather (pr_env p) (w_candidate w) (gridpoint s1) = w_gridpoints w).
  { cbn [gridpoint s1 with_is_regular_grid with_gridpoints with_gridpoint].
    rewrite <- Hq. rewrite all_gather_consistent, Hn. reflexivity. }
  rewrite Hgps in Hoct, Hdom, Hdoms.
  unfold accept. unfold bind at 1. unfold modify at 1.
  unfold bind at 1. cbn [net_gridpoint_octagons world_net]. fold s1. rewrite Hoct.
  set (s2 := with_neighbor_doms doms (with_my_dom dom (with_gridpoints (w_gridpoints w) s1))).
  set (J := fun t => my_dom t = dom /\ neighbor_doms t = doms /\
                     neighbor_ranks t = neighbor_ranks s1).
  assert (HJ : J s2) by (repeat split).
  assert (P : preserved J
                (run_calls (pr_env p) (ra_callback (pr_args p)) ;;;
                 reinit (pr_env p) ;;; ret true)%meth).
  { apply preserved_bind; [|intros u].
    - apply closed_run_calls, octagons_kept.
    - apply preserved_bind; [|intros u'; apply preserved_ret].
      intros t Ht'. rewrite reinit_unfold.
      apply closed_reinit_body;
        [apply octagons_kept|exact Ht']. }
  destruct (P s2 HJ) as (J1 & J2 & J3).
  unfold octagons_of. rewrite J1, J2, J3. split; [exact Hdom|exact Hdoms].
Qed.

End AcceptedOctagons.

(** X29: after an accepted call of [repartition] the ranks keep the same
    octagon of a subdomain.  All ranks of one process grid and box call
    [repartition] and no conflict is reported.  Then, however the call went
    on after [init_octagons], [my_dom] of a rank is the bounding box of its
    own rank over the gathered new corners, [neighbor_doms] has one octagon
    per neighbour, and the octagon a rank keeps for its neighbour [b] is
    the very octagon [b] keeps as its [my_dom]. *)
Theorem neighbour_octagons_agree (w : World) (a b : Z) (pa pb : Process) (i : nat) :
  world_ok w ->
  (forall p, p ∈ w -> cart_consistent (pr_env p) /\
                       cart_dims (pr_env p) = cart_dims (pr_env pa) /\
                       box_l (pr_env p) = box_l (pr_env pa)) ->
  world_conflicts w <= 0 ->
  vec_at w a = Some pa -> vec_at w b = Some pb ->
  let sa' := (repartition (pr_env pa) (pr_args pa) (world_net w) (pr_grid pa)).2 in
  let sb' := (repartition (pr_env pb) (pr_args pb) (world_net w) (pr_grid pb)).2 in
  bounding_box_of (pr_env pa) (w_gridpoints w) a = Some (my_dom sa') /\
  length (neighbor_doms sa') = length (neighbor_ranks sa') /\
  (neighbor_ranks sa' !! i = Some b -> neighbor_doms sa' !! i = Some (my_dom sb')).
Proof.
  intros Hw Hjob Hnc Ha Hb sa' sb'.
  destruct (Hjob pa (vec_at_elem _ _ _ Ha)) as (Ca & _ & _).
  destruct (Hjob pb (vec_at_elem _ _ _ Hb)) as (Cb & Db & Lb).
  destruct (accept_octagons w a pa Hw Ha Ca Hnc) as [Ma Na]. fold sa' in Ma, Na.
  destruct (accept_octagons w b pb Hw Hb Cb Hnc) as [Mb _]. fold sb' in Mb.
  destruct (Hw a pa Ha) as (Hqa & _). destruct (Hw b pb Hb) as (Hqb & _).
  rewrite Hqa in Ma. rewrite Hqb in Mb.
  split; [exact Ma|]. split; [symmetry; exact (Forall2_length _ _ _ Na)|].
  intros Hi.
  destruct (Forall2_lookup_l _ _ _ _ _ Na Hi) as (d & Hd & Hbb).
  rewrite <- (bounding_box_of_env (pr_env pa) (pr_env pb) _ _ Db Lb) in Hbb.
  rewrite Hbb in Mb. injection Mb as ->. exact Hd.
Qed.

Lemma neighbour_octagons_agree_witness :
  let w := four_wide_world in
  let pa := mkProcess (env_four_wide 0) (four_wide_grid 0) unit_load in
  let pb := mkProcess (env_four_wide 1) (four_wide_grid 1) unit_load in
  let sa' := (repartition (pr_env pa) (pr_args pa) (world_net w) (pr_grid pa)).2 in
  let sb' := (repartition (pr_env pb) (pr_args pb) (world_net w) (pr_grid pb)).2 in
  bounding_box_of (pr_env pa) (w_gridpoints w) 0 = Some (my_dom sa') /\
  length (neighbor_doms sa') = length (neighbor_ranks sa') /\
  (neighbor_ranks sa' !! 0%nat = Some 1 -> neighbor_doms sa' !! 0%nat = Some (my_dom sb')).
Proof.
  apply (neighbour_octagons_agree four_wide_world 0 1
           (mkProcess (env_four_wide 0) (four_wide_grid 0) unit_load)
           (mkProcess (env_four_wide 1) (four_wide_grid 1) unit_load) 0%nat).
  - exact four_wide_world_ok.
  - intros p Hp. apply vec_at_of_elem in Hp as [q Hp].
    pose proof (vec_at_Some_range _ _ _ Hp) as Hq. simpl in Hq.
    assert (Hcases : q = 0 \/ q = 1) by lia.
    destruct Hcases as [-> | ->]; injection Hp as <-.
    + split; [exact four_wide_cart_consistent|split; vm_compute; reflexivity].
    + split; [exact four_wide_cart_consistent_1|split; vm_compute; reflexivity].
  - vm_compute. discriminate.
  - reflexivity.
  - reflexivity.
Defined.
